(** * Swinsian AI playlist agent: catalog encoding, reply parsing and
      playlist materialisation

    A shallow embedding of [swinsian_agent.py] (command line) and
    [swinsian_ui.py] (GUI), and the properties of the pipeline

      library reader -> catalog encoder -> curator client -> materialiser.

    Conventions of the embedding.
    - A Python [str] is a sequence of Unicode code points: [list N].
    - A track is the dict built by [get_library_tracks]; its keys are the
      fields of the record [track].
    - A [bridge] is the outside world: the outcome of one
      [subprocess.run(["osascript", "-e", script])] call, as a function of the
      scripts issued before it and of the script itself.
    - A [model] is the hosted model: the reply text for a system instruction
      and a user message, or the exception of the client.
    - The pseudo random generator is the sequence of draws that
      [random.shuffle] obtains from [randbelow].
    - Exceptions are values of [exn]; a computation is a [result].
    - [print] and [log] calls only report progress and are left out, and so
      are [main] and the window of the GUI, which only sequence the functions
      below and report their failures.
    - Functions that the two files share word for word are given once; where
      the files differ (error texts, the instruction on quantity, the shuffle
      flag) the modules [Agent] and [UI] hold either version. *)

From Stdlib Require Import ZArith NArith Zpow_facts Ascii String Lia Sorted.
From stdpp Require Import base option list gmap.

Local Open Scope N_scope.
Local Open Scope nat_scope.
Local Open Scope list_scope.

(** ** Strings *)

Abbreviation char := N (only parsing).
Abbreviation str := (list N) (only parsing).

(** An ASCII literal as a Python string. *)
Definition u (s : string) : str := map N_of_ascii (list_ascii_of_string s).

Definition DQ : char := 34%N.        (* the double quote *)
Definition NL : char := 10%N.        (* \n *)
Definition BACKSLASH : char := 92%N.
Definition LBRACE : char := 123%N.
Definition RBRACE : char := 125%N.
Definition BACKTICK : char := 96%N.

Definition str_eqb (a b : str) : bool := bool_decide (a = b).

(** [str.isspace] on one code point: the characters [str.strip()] removes. *)
Definition is_space (c : char) : bool :=
  ((9 <=? c) && (c <=? 13) || (28 <=? c) && (c <=? 32)
   || (c =? 133) || (c =? 160) || (c =? 5760)
   || (8192 <=? c) && (c <=? 8202)
   || (c =? 8232) || (c =? 8233) || (c =? 8239) || (c =? 8287)
   || (c =? 12288))%N.

Fixpoint dropwhile {A} (p : A -> bool) (l : list A) : list A :=
  match l with
  | [] => []
  | x :: l' => if p x then dropwhile p l' else l
  end.

Definition lstrip (s : str) : str := dropwhile is_space s.
Definition rstrip (s : str) : str := rev (dropwhile is_space (rev s)).
(** [s.strip()] *)
Definition strip (s : str) : str := rstrip (lstrip s).

Fixpoint is_prefix (p s : str) : bool :=
  match p, s with
  | [], _ => true
  | a :: p', b :: s' => (a =? b)%N && is_prefix p' s'
  | _ :: _, [] => false
  end.

(** [s.split(sep)] for a non-empty [sep]: [skip] counts the characters of a
    separator still to be passed over, [cur] is the current piece reversed. *)
Fixpoint split_go (sep : str) (skip : nat) (cur : str) (s : str) : list str :=
  match s with
  | [] => [rev cur]
  | c :: s' =>
      match skip with
      | S k => split_go sep k cur s'
      | O =>
          if is_prefix sep s
          then rev cur :: split_go sep (length sep - 1) [] s'
          else split_go sep 0 (c :: cur) s'
      end
  end.

Definition split (sep s : str) : list str := split_go sep 0 [] s.

(** [sep.join(parts)] *)
Fixpoint join (sep : str) (parts : list str) : str :=
  match parts with
  | [] => []
  | [p] => p
  | p :: rest => p ++ sep ++ join sep rest
  end.

(** [s.replace(old, new)] for a one-character [old]. *)
Definition replace1 (old : char) (new : str) (s : str) : str :=
  flat_map (fun c => if (c =? old)%N then new else [c]) s.

(** ** Exceptions and results *)

Inductive exn : Type :=
  | RuntimeError (msg : str)        (* raised by [run_applescript] *)
  | ValueError (msg : str)          (* raised by the reply parser *)
  | IntValueError (literal : str)   (* the ValueError of [int(literal)] *)
  | JSONDecodeError                 (* raised by [json.loads] *)
  | AttributeError                  (* [data.get] on a value that is no dict *)
  | APIError (msg : str).           (* raised by [client.messages.create] *)

Inductive result (A : Type) : Type :=
  | Ok (a : A)
  | Raise (e : exn).
Arguments Ok {A} a.
Arguments Raise {A} e.

Definition rbind {A B} (r : result A) (f : A -> result B) : result B :=
  match r with
  | Ok a => f a
  | Raise e => Raise e
  end.

(** ** The scripting bridge *)

Record completed : Type := Completed {
  returncode : Z;
  stdout : str;
  stderr : str;
}.

(** The outside world: scripts issued so far, script, outcome. *)
Definition bridge : Type := list str -> str -> completed.

(** A computation that may call the bridge: it reads the world, extends the
    log of issued scripts and returns or raises. *)
Definition M (A : Type) : Type := bridge -> list str -> list str * result A.

Definition ret {A} (a : A) : M A := fun _ log => (log, Ok a).
Definition raise {A} (e : exn) : M A := fun _ log => (log, Raise e).
Definition bind {A B} (m : M A) (f : A -> M B) : M B :=
  fun w log =>
    match m w log with
    | (log', Ok a) => f a w log'
    | (log', Raise e) => (log', Raise e)
    end.

Notation "'let!' x ':=' m 'in' k" := (bind m (fun x => k))
  (at level 10, x name, m at level 100, k at level 200).
Notation "'do!' m 'in' k" := (bind m (fun _ => k))
  (at level 10, m at level 100, k at level 200).

(** [run_applescript]; [prefix] is the text put before the stripped stderr
    in the error message ("AppleScript error: " on the command line, nothing
    in the GUI). *)
Definition run_applescript_with (prefix : str) (script : str) : M str :=
  fun w log =>
    let r := w log script in
    if (returncode r =? 0)%Z
    then (log ++ [script], Ok (strip (stdout r)))
    else (log ++ [script], Raise (RuntimeError (prefix ++ strip (stderr r)))).

(** ** Tracks *)

Record track : Type := Track {
  t_id : Z;          (* "id" *)
  t_title : str;     (* "title" *)
  t_artist : str;    (* "artist" *)
  t_album : str;     (* "album" *)
  t_genre : str;     (* "genre" *)
  t_year : str;      (* "year" *)
  t_rating : str;    (* "rating" *)
  t_plays : str;     (* "plays" *)
}.

Global Instance track_eq_dec : EqDecision track.
Proof. solve_decision. Defined.

(** [xs[i].strip() if i < len(xs) else ""] *)
Definition field_at (xs : list str) (i : nat) : str :=
  match xs !! i with
  | Some x => strip x
  | None => []
  end.

(** The loop [for i, name in enumerate(names)] of [get_library_tracks],
    started at index [i]. *)
Fixpoint collect_from (i : nat) (names artists albums genres years ratings plays : list str)
  : list track :=
  match names with
  | [] => []
  | name :: names' =>
      let name' := strip name in
      let rest := collect_from (S i) names' artists albums genres years ratings plays in
      match name' with
      | [] => rest
      | _ :: _ =>
          Track (Z.of_nat i) name' (field_at artists i) (field_at albums i)
                (field_at genres i) (field_at years i) (field_at ratings i)
                (field_at plays i) :: rest
      end
  end.

Definition collect_tracks := collect_from 0.

(** The script of [fetch_property]. *)
Definition fetch_script (prop : str) : str :=
  [NL] ++ u "tell application " ++ [DQ] ++ u "Swinsian" ++ [DQ] ++ [NL]
  ++ u "    set vals to " ++ prop ++ u " of every track" ++ [NL]
  ++ u "    set AppleScript's text item delimiters to " ++ [DQ] ++ u "~~~" ++ [DQ] ++ [NL]
  ++ u "    set output to vals as string" ++ [NL]
  ++ u "    set AppleScript's text item delimiters to " ++ [DQ] ++ [DQ] ++ [NL]
  ++ u "    return output" ++ [NL]
  ++ u "end tell" ++ [NL].

Definition fetch_property_with (prefix : str) (prop : str) : M (list str) :=
  let! raw := run_applescript_with prefix (fetch_script prop) in
  ret (match raw with [] => [] | _ :: _ => split (u "~~~") raw end).

Definition get_library_tracks_with (prefix : str) : M (list track) :=
  let! names := fetch_property_with prefix (u "name") in
  let! artists := fetch_property_with prefix (u "artist") in
  let! albums := fetch_property_with prefix (u "album") in
  let! genres := fetch_property_with prefix (u "genre") in
  let! years := fetch_property_with prefix (u "year") in
  let! ratings := fetch_property_with prefix (u "rating") in
  let! plays := fetch_property_with prefix (u "play count") in
  ret (collect_tracks names artists albums genres years ratings plays).

(** ** Identifier lookup *)

(** [{t["id"]: t for t in all_tracks}]: a later track replaces an earlier one
    with the same id. *)
Definition id_to_track (all_tracks : list track) : gmap Z track :=
  foldl (fun m t => <[t_id t := t]> m) ∅ all_tracks.

(** [[id_to_track[i] for i in track_ids if i in id_to_track]] *)
Definition resolve (track_ids : list Z) (all_tracks : list track) : list track :=
  omap (fun i => id_to_track all_tracks !! i) track_ids.

(** ** Integers as text *)

Definition is_digit (c : char) : bool := ((48 <=? c) && (c <=? 57))%N.

Fixpoint digits_go (fuel : nat) (n : N) (acc : str) : str :=
  match fuel with
  | O => acc
  | S fuel' =>
      let acc' := (48 + n mod 10)%N :: acc in
      if (n / 10 =? 0)%N then acc' else digits_go fuel' (n / 10)%N acc'
  end.

Definition str_of_N (n : N) : str := digits_go (S (N.size_nat n)) n [].

(** [str(z)], as the f-strings render [t["id"]]. *)
Definition str_of_Z (z : Z) : str :=
  match z with
  | Z0 => u "0"
  | Zpos p => str_of_N (Npos p)
  | Zneg p => u "-" ++ str_of_N (Npos p)
  end.

(** The digits of an integer literal: decimal digits, single underscores
    allowed between two digits. [prev] tells whether the previous character
    was a digit. *)
Fixpoint int_digits (acc : N) (prev : bool) (s : str) : option N :=
  match s with
  | [] => if prev then Some acc else None
  | c :: s' =>
      if is_digit c then int_digits (acc * 10 + (c - 48))%N true s'
      else if (c =? 95)%N && prev then int_digits acc false s'
      else None
  end.

(** The default of [sys.get_int_max_str_digits()]. *)
Definition MAX_STR_DIGITS : nat := 4300.

(** The digits after the sign; a literal of more than [MAX_STR_DIGITS] digits
    is refused. *)
Definition int_body (r : str) : option N :=
  if MAX_STR_DIGITS <? length (List.filter is_digit r) then None
  else int_digits 0 false r.

(** The code points of the digit zero of every script with decimal digits
    (general category Nd), each followed by its digits one to nine: the
    table of Unicode 14.0, which CPython 3.11 carries. *)
Definition DECIMAL_ZEROS : list N :=
  [48; 1632; 1776; 1984; 2406; 2534; 2662; 2790; 2918; 3046; 3174; 3302; 3430;
   3558; 3664; 3792; 3872; 4160; 4240; 6112; 6160; 6470; 6608; 6784; 6800;
   6992; 7088; 7232; 7248; 42528; 43216; 43264; 43472; 43504; 43600; 44016;
   65296; 66720; 68912; 69734; 69872; 69942; 70096; 70384; 70736; 70864;
   71248; 71360; 71472; 71904; 72016; 72784; 73040; 73120; 92768; 92864;
   93008; 120782; 120792; 120802; 120812; 120822; 123200; 123632; 125264;
   130032]%N.

(** [Py_UNICODE_TODECIMAL]: the value of a decimal digit of any script. *)
Definition decimal_of (c : char) : option N :=
  (fun z => c - z)%N <$> find (fun z => (z <=? c) && (c <? z + 10))%N DECIMAL_ZEROS.

(** The white space [int] passes over at both ends of the ASCII text it
    parses ([Py_ISSPACE]): unlike [str.strip], not the separators U+001C to
    U+001F. *)
Definition is_c_space (c : char) : bool :=
  ((9 <=? c) && (c <=? 13) || (c =? 32))%N.

(** One character of the ASCII text [int] makes of a string before parsing
    it: a code point below 127 is kept, white space becomes a blank, a decimal
    digit its ASCII digit, anything else a question mark. *)
Definition int_char (c : char) : char :=
  if (c <? 127)%N then c
  else if is_space c then 32%N
  else match decimal_of c with
       | Some d => (48 + d)%N
       | None => 63%N
       end.

(** [int(s)] for a string [s]: white space around the numeral is ignored,
    one sign is allowed, the digits may be those of any script. [None]
    stands for the ValueError. *)
Definition py_int (s : str) : option Z :=
  match rev (dropwhile is_c_space (rev (dropwhile is_c_space (map int_char s)))) with
  | c :: r =>
      if (c =? 45)%N then (fun n => (- Z.of_N n)%Z) <$> int_body r
      else if (c =? 43)%N then Z.of_N <$> int_body r
      else Z.of_N <$> int_body (c :: r)
  | [] => None
  end.

(** ** Catalog encoding *)

Definition MAX_TRACKS_FULL : nat := 1500.
Definition MAX_TRACKS_COMPACT : nat := 4000.

Definition BAR : str := [124%N].      (* | *)
Definition STAR : str := [9733%N].    (* U+2605 *)
Definition PLAY : str := [9654%N].    (* U+25B6 *)

Definition full_line (t : track) : str :=
  str_of_Z (t_id t) ++ BAR ++ t_title t ++ BAR ++ t_artist t ++ BAR ++ t_album t
  ++ BAR ++ t_genre t ++ BAR ++ t_year t ++ BAR ++ STAR ++ t_rating t
  ++ BAR ++ PLAY ++ t_plays t.

Definition compact_line (t : track) : str :=
  str_of_Z (t_id t) ++ BAR ++ t_title t ++ BAR ++ t_artist t.

Definition build_full_catalog (tracks : list track) : str :=
  join [NL] (map full_line tracks).

Definition build_compact_catalog (tracks : list track) : str :=
  join [NL] (map compact_line tracks).

Definition FULL_DESC : str := u "id|title|artist|album|genre|year|rating|plays".
Definition COMPACT_DESC : str := u "id|title|artist".

(** ** Sampling *)

(** [int(x["plays"] or 0)]: the empty string is falsy and gives 0, any other
    string goes through [int]. *)
Definition play_key (t : track) : result Z :=
  match t_plays t with
  | [] => Ok 0%Z
  | s =>
      match py_int s with
      | Some n => Ok n
      | None => Raise (IntValueError s)
      end
  end.

(** The keys of [sorted]: computed for every element, in order, before any
    comparison; the first failure is the one raised. *)
Fixpoint keyed (tracks : list track) : result (list (Z * track)) :=
  match tracks with
  | [] => Ok []
  | t :: ts =>
      rbind (play_key t) (fun k =>
      rbind (keyed ts) (fun ks => Ok ((k, t) :: ks)))
  end.

(** Stable sort by descending key: an element goes before the elements
    already placed (which followed it in the input) unless their key is
    strictly larger, so equal keys keep the input order, as [sorted] with
    [reverse=True] does. *)
Fixpoint insert_desc (x : Z * track) (l : list (Z * track)) : list (Z * track) :=
  match l with
  | [] => [x]
  | y :: l' => if (x.1 <? y.1)%Z then y :: insert_desc x l' else x :: l
  end.

Definition sort_desc (l : list (Z * track)) : list (Z * track) :=
  foldr insert_desc [] l.

(** [sorted(tracks, key=lambda x: int(x["plays"] or 0), reverse=True)] *)
Definition sorted_by_plays (tracks : list track) : result (list track) :=
  rbind (keyed tracks) (fun ks => Ok (map snd (sort_desc ks))).

(** [x[i], x[j] = x[j], x[i]] *)
Definition swap {A} (x : list A) (i j : nat) : list A :=
  match x !! i, x !! j with
  | Some a, Some b => <[i := b]> (<[j := a]> x)
  | _, _ => x
  end.

(** The loop of [random.shuffle]: [for i in reversed(range(1, len(x)))],
    [j = randbelow(i + 1)], swap. [rnd] holds the draws still to come; a
    draw is reduced below its bound. *)
Fixpoint shuffle_go {A} (i : nat) (rnd : list nat) (x : list A) : list A :=
  match i with
  | O => x
  | S i' =>
      let j := hd 0 rnd mod (S i) in
      shuffle_go i' (tl rnd) (swap x i j)
  end.

Definition shuffle {A} (rnd : list nat) (x : list A) : list A :=
  shuffle_go (length x - 1) rnd x.

(** The head-and-sample step of the [else] branch. *)
Definition sample_tracks (rnd : list nat) (by_plays : list track) : list track :=
  let top := take (MAX_TRACKS_COMPACT / 2) by_plays in
  let rest := drop (MAX_TRACKS_COMPACT / 2) by_plays in
  let rest := shuffle rnd rest in
  top ++ take (MAX_TRACKS_COMPACT - length top) rest.

(** The choice of catalog in [ask_claude_for_playlist] / [ask_claude]:
    the catalog text, its field descriptor, and the tracks it lists. *)
Definition select_catalog (rnd : list nat) (tracks : list track)
  : result (str * str * list track) :=
  let total := length tracks in
  if total <=? MAX_TRACKS_FULL then
    Ok (build_full_catalog tracks, FULL_DESC, tracks)
  else if total <=? MAX_TRACKS_COMPACT then
    Ok (build_compact_catalog tracks, COMPACT_DESC, tracks)
  else
    rbind (sorted_by_plays tracks) (fun by_plays =>
      let tracks := sample_tracks rnd by_plays in
      Ok (build_compact_catalog tracks, COMPACT_DESC, tracks)).

(** ** JSON values and [json.loads]

    The decoder of the standard library, reproduced for the grammar it
    accepts: RFC 8259 plus the constants NaN, Infinity and -Infinity; a
    number with a fraction or an exponent is a float and keeps its lexeme; an
    object keeps its pairs in source order (a dict: the last pair of a key is
    the one looked up). Integers of any length are read: the digit limit of
    [int] and the recursion limit of the interpreter are left out. *)

#[local] Set Warnings "-register-all".
Inductive json : Type :=
  | JNull
  | JBool (b : bool)
  | JInt (z : Z)
  | JFloat (lexeme : str)
  | JString (s : str)
  | JList (l : list json)
  | JDict (kvs : list (str * json)).

Definition is_json_ws (c : char) : bool :=
  ((c =? 32) || (c =? 9) || (c =? 10) || (c =? 13))%N.

Definition skip_ws (s : str) : str := dropwhile is_json_ws s.

Definition hex_val (c : char) : option N :=
  if is_digit c then Some (c - 48)%N
  else if ((97 <=? c) && (c <=? 102))%N then Some (c - 87)%N
  else if ((65 <=? c) && (c <=? 70))%N then Some (c - 55)%N
  else None.

Definition hex4 (a b c d : char) : option N :=
  match hex_val a, hex_val b, hex_val c, hex_val d with
  | Some x, Some y, Some z, Some w => Some (((x * 16 + y) * 16 + z) * 16 + w)%N
  | _, _, _, _ => None
  end.

Definition is_high_surrogate (c : N) : bool := ((55296 <=? c) && (c <=? 56319))%N.
Definition is_low_surrogate (c : N) : bool := ((56320 <=? c) && (c <=? 57343))%N.

(** The one-letter escapes of a string literal: quote, backslash, slash,
    and b, f, n, r, t for backspace, form feed, newline, carriage return and
    tab. *)
Definition simple_escape (e : char) : option char :=
  if (e =? 34)%N then Some 34%N
  else if (e =? 92)%N then Some 92%N
  else if (e =? 47)%N then Some 47%N
  else if (e =? 98)%N then Some 8%N
  else if (e =? 102)%N then Some 12%N
  else if (e =? 110)%N then Some 10%N
  else if (e =? 114)%N then Some 13%N
  else if (e =? 116)%N then Some 9%N
  else None.

(** What follows a u-escape that gave the high surrogate [hi]: a second
    escape for a low surrogate is joined with it; [None] is the error of a
    second escape with bad digits; [Some None] is no pair. *)
Definition low_surrogate_after (hi : N) (s : str) : option (option (N * str)) :=
  match s with
  | b1 :: b2 :: e :: f :: g :: h :: r =>
      if is_high_surrogate hi && (b1 =? 92)%N && (b2 =? 117)%N then
        match hex4 e f g h with
        | None => None
        | Some lo =>
            if is_low_surrogate lo
            then Some (Some ((65536 + ((hi - 55296) * 1024 + (lo - 56320)))%N, r))
            else Some None
        end
      else Some None
  | _ => Some None
  end.

(** The body of a string literal, after the opening quote; [acc] is the
    decoded text so far, reversed. Returns the text and the input left after
    the closing quote. *)
Fixpoint scan_string (acc : str) (s : str) : option (str * str) :=
  match s with
  | [] => None
  | c :: r =>
      if (c =? 34)%N then Some (rev acc, r)
      else if (c =? 92)%N then
        match r with
        | [] => None
        | e :: r1 =>
            if (e =? 117)%N then
              match r1 with
              | a :: b :: c' :: d :: r2 =>
                  match hex4 a b c' d with
                  | None => None
                  | Some hi =>
                      match r2 with
                      | b1 :: b2 :: e' :: f :: g :: h :: r3 =>
                          match low_surrogate_after hi r2 with
                          | None => None
                          | Some (Some (joined, _)) => scan_string (joined :: acc) r3
                          | Some None => scan_string (hi :: acc) r2
                          end
                      | _ => scan_string (hi :: acc) r2
                      end
                  end
              | _ => None
              end
            else
              match simple_escape e with
              | Some ch => scan_string (ch :: acc) r1
              | None => None
              end
        end
      else if (c <? 32)%N then None
      else scan_string (c :: acc) r
  end.

Fixpoint span {A} (p : A -> bool) (l : list A) : list A * list A :=
  match l with
  | [] => ([], [])
  | x :: l' => if p x then let '(a, b) := span p l' in (x :: a, b) else ([], l)
  end.

Definition N_of_digits (ds : str) : N :=
  foldl (fun acc c => (acc * 10 + (c - 48))%N) 0%N ds.

(** The integer part of a number: 0, or a non-zero digit followed by
    digits. *)
Definition scan_int_part (s : str) : option (str * str) :=
  match s with
  | c :: r =>
      if (c =? 48)%N then Some ([48%N], r)
      else if is_digit c then let '(ds, r') := span is_digit r in Some (c :: ds, r')
      else None
  | [] => None
  end.

Definition scan_frac (s : str) : str * str :=
  match s with
  | c :: r =>
      if (c =? 46)%N then
        match span is_digit r with
        | ([], _) => ([], s)
        | (ds, r') => (46%N :: ds, r')
        end
      else ([], s)
  | [] => ([], s)
  end.

Definition scan_exp (s : str) : str * str :=
  match s with
  | e :: r =>
      if ((e =? 101) || (e =? 69))%N then
        let '(sign, r1) :=
          match r with
          | sg :: r1 => if ((sg =? 43) || (sg =? 45))%N then ([sg], r1) else ([], r)
          | [] => ([], r)
          end in
        match span is_digit r1 with
        | ([], _) => ([], s)
        | (ds, r') => (e :: sign ++ ds, r')
        end
      else ([], s)
  | [] => ([], s)
  end.

Definition scan_number (s : str) : option (json * str) :=
  let '(neg, s1) :=
    match s with
    | c :: r => if (c =? 45)%N then (true, r) else (false, s)
    | [] => (false, s)
    end in
  match scan_int_part s1 with
  | None => None
  | Some (ds, r) =>
      let '(fr, r1) := scan_frac r in
      let '(ex, r2) := scan_exp r1 in
      match fr, ex with
      | [], [] =>
          let n := Z.of_N (N_of_digits ds) in
          Some (JInt (if neg then (- n)%Z else n), r2)
      | _, _ => Some (JFloat ((if neg then [45%N] else []) ++ ds ++ fr ++ ex), r2)
      end
  end.

Definition strip_prefix (p s : str) : option str :=
  if is_prefix p s then Some (drop (length p) s) else None.

Definition scan_constant (s : str) : option (json * str) :=
  match strip_prefix (u "null") s with Some r => Some (JNull, r) | None =>
  match strip_prefix (u "true") s with Some r => Some (JBool true, r) | None =>
  match strip_prefix (u "false") s with Some r => Some (JBool false, r) | None =>
  match strip_prefix (u "NaN") s with Some r => Some (JFloat (u "NaN"), r) | None =>
  match strip_prefix (u "Infinity") s with Some r => Some (JFloat (u "Infinity"), r) | None =>
  match strip_prefix (u "-Infinity") s with Some r => Some (JFloat (u "-Infinity"), r) | None =>
  scan_number s
  end end end end end end.

(** One value at the head of [s] ([scan_once]); [fuel] bounds the nesting
    and the number of elements. *)
Fixpoint parse_value (fuel : nat) (s : str) : option (json * str) :=
  match fuel with
  | O => None
  | S fuel' =>
      match s with
      | [] => None
      | c :: r =>
          if (c =? 34)%N then                       (* a string *)
            match scan_string [] r with
            | Some (txt, r') => Some (JString txt, r')
            | None => None
            end
          else if (c =? LBRACE)%N then              (* an object *)
            match skip_ws r with
            | [] => None
            | c' :: r' =>
                if (c' =? RBRACE)%N then Some (JDict [], r')
                else parse_members fuel' [] (c' :: r')
            end
          else if (c =? 91)%N then                  (* an array *)
            match skip_ws r with
            | [] => None
            | c' :: r' =>
                if (c' =? 93)%N then Some (JList [], r')
                else parse_elems fuel' [] (c' :: r')
            end
          else scan_constant s
      end
  end
with parse_elems (fuel : nat) (acc : list json) (s : str) : option (json * str) :=
  match fuel with
  | O => None
  | S fuel' =>
      match parse_value fuel' s with
      | None => None
      | Some (v, r) =>
          match skip_ws r with
          | [] => None
          | c :: r' =>
              if (c =? 93)%N then Some (JList (rev (v :: acc)), r')
              else if (c =? 44)%N then parse_elems fuel' (v :: acc) (skip_ws r')
              else None
          end
      end
  end
with parse_members (fuel : nat) (acc : list (str * json)) (s : str) : option (json * str) :=
  match fuel with
  | O => None
  | S fuel' =>
      match s with
      | [] => None
      | c :: r =>
          if (c =? 34)%N then
            match scan_string [] r with
            | None => None
            | Some (key, r1) =>
                match skip_ws r1 with
                | [] => None
                | c1 :: r2 =>
                    if (c1 =? 58)%N then
                      match parse_value fuel' (skip_ws r2) with
                      | None => None
                      | Some (v, r3) =>
                          match skip_ws r3 with
                          | [] => None
                          | c3 :: r4 =>
                              if (c3 =? RBRACE)%N
                              then Some (JDict (rev ((key, v) :: acc)), r4)
                              else if (c3 =? 44)%N
                              then parse_members fuel' ((key, v) :: acc) (skip_ws r4)
                              else None
                          end
                      end
                    else None
                end
            end
          else None
      end
  end.

(** [json.loads(s)]: one value, whitespace around it, nothing else. *)
Definition json_loads (s : str) : result json :=
  match parse_value (2 * length s + 2) (skip_ws s) with
  | Some (v, r) =>
      match skip_ws r with
      | [] => Ok v
      | _ :: _ => Raise JSONDecodeError
      end
  | None => Raise JSONDecodeError
  end.

(** [d.get(key)] on the pairs of an object: the last pair of the key. *)
Fixpoint dict_lookup (kvs : list (str * json)) (key : str) : option json :=
  match kvs with
  | [] => None
  | (k, v) :: kvs' =>
      match dict_lookup kvs' key with
      | Some v' => Some v'
      | None => if str_eqb k key then Some v else None
      end
  end.

(** [d.get(key, default)] *)
Definition dict_get (kvs : list (str * json)) (key : str) (default : json) : json :=
  match dict_lookup kvs key with
  | Some v => v
  | None => default
  end.

(** ** Reply parsing *)

Definition is_lower (c : char) : bool := ((97 <=? c) && (c <=? 122))%N.

Definition FENCE : str := [BACKTICK; BACKTICK; BACKTICK].

(** [re.sub(r'^```[a-z]*\n?', '', raw)] *)
Definition strip_fence_open (raw : str) : str :=
  match strip_prefix FENCE raw with
  | Some r =>
      match dropwhile is_lower r with
      | c :: r' => if (c =? NL)%N then r' else c :: r'
      | [] => []
      end
  | None => raw
  end.

(** Removes one trailing newline of a reversed string. *)
Definition chomp_rev (r : str) : str :=
  match r with
  | c :: r' => if (c =? NL)%N then r' else r
  | [] => []
  end.

(** [re.sub(r'\n?```$', '', raw)]: [$] matches at the end of the string and
    before a newline that ends it. *)
Definition strip_fence_close (raw : str) : str :=
  let r := rev raw in
  match strip_prefix FENCE r with
  | Some r' => rev (chomp_rev r')
  | None =>
      match strip_prefix (NL :: FENCE) r with
      | Some r' => rev (NL :: chomp_rev r')
      | None => raw
      end
  end.

(** [re.search(r'\{.*\}', raw, re.DOTALL)]: from the first opening brace to
    the last closing brace after it. *)
Definition find_brace_span (raw : str) : option str :=
  match dropwhile (fun c => negb (c =? LBRACE)%N) raw with
  | [] => None
  | _ :: t =>
      match dropwhile (fun c => negb (c =? RBRACE)%N) (rev t) with
      | [] => None
      | rt => Some (LBRACE :: rev rt)
      end
  end.

(** The reply text as the parser sees it: stripped, then without fences. *)
Definition unfence (text : str) : str :=
  strip_fence_close (strip_fence_open (strip text)).

(** What the functions return: [(playlist_name, ids, rationale)]. *)
Definition curation : Type := json * json * json.

Definition DEFAULT_NAME : json := JString (u "AI Playlist").

(** [data.get(...)] three times; [data] must be a dict to have [get]. *)
Definition curation_of (data : json) : result curation :=
  match data with
  | JDict kvs =>
      Ok (dict_get kvs (u "playlist_name") DEFAULT_NAME,
          dict_get kvs (u "ids") (JList []),
          dict_get kvs (u "rationale") (JString []))
  | _ => Raise AttributeError
  end.

(** The [try] / [except json.JSONDecodeError] block: the value of [data].
    [msg] is the text before the raw reply in the ValueError. *)
Definition load_reply (msg : str) (raw : str) : result json :=
  match json_loads raw with
  | Ok d => Ok d
  | Raise _ =>
      match find_brace_span raw with
      | Some m => json_loads m
      | None => Raise (ValueError (msg ++ raw))
      end
  end.

(** Lines 147-160 of the command line, 160-173 of the GUI. *)
Definition parse_reply_with (msg : str) (text : str) : result curation :=
  let raw := unfence text in
  rbind (load_reply msg raw) curation_of.

(** ** The curation request *)

(** The hosted model: system instruction, user message, reply text. *)
Definition model : Type := str -> str -> result str.

Definition q (s : str) : str := [DQ] ++ s ++ [DQ].

Definition SYSTEM_HEAD : str :=
  u "You are an expert music curator with encyclopedic knowledge of genres, moods, eras, artists, and song characteristics." ++ [NL]
  ++ u "You will receive a user's music library and a playlist request." ++ [NL]
  ++ u "Your job: select the best tracks from the library to fulfil the request." ++ [NL]
  ++ [NL]
  ++ u "Rules:" ++ [NL]
  ++ u "- Return ONLY a JSON object in this exact format (no markdown, no extra text):" ++ [NL]
  ++ u "  {" ++ q (u "playlist_name") ++ u ": " ++ q (u "...") ++ u ", " ++ q (u "ids")
  ++ u ": [id1, id2, ...], " ++ q (u "rationale") ++ u ": " ++ q (u "one sentence") ++ u "}" ++ [NL]
  ++ u "- The ids must be integers from the catalog's first column." ++ [NL].

Definition SYSTEM_TAIL : str :=
  u "- Prioritise variety, curation quality, and faithfulness to the request." ++ [NL]
  ++ u "- If the library doesn't have enough matching tracks, pick the closest alternatives and note it in the rationale.".

(** [f"User request: {prompt}\n\nLibrary catalog ({catalog_desc}):\n{catalog}"] *)
Definition user_message (prompt catalog_desc catalog : str) : str :=
  u "User request: " ++ prompt ++ [NL; NL] ++ u "Library catalog (" ++ catalog_desc
  ++ u "):" ++ [NL] ++ catalog.

Definition ask_with (system msg : str) (claude : model) (rnd : list nat)
    (prompt : str) (tracks : list track) : result curation :=
  rbind (select_catalog rnd tracks) (fun '(catalog, desc, _) =>
  rbind (claude system (user_message prompt desc catalog)) (fun text =>
  parse_reply_with msg text)).

(** ** Playlist materialisation *)

(** [s.replace("\\", "\\\\").replace('"', '\\"')] *)
Definition escape (s : str) : str :=
  replace1 DQ [BACKSLASH; DQ] (replace1 BACKSLASH [BACKSLASH; BACKSLASH] s).

Definition create_script (safe_name : str) : str :=
  [NL] ++ u "tell application " ++ q (u "Swinsian") ++ u " to activate" ++ [NL]
  ++ u "delay 0.5" ++ [NL]
  ++ u "tell application " ++ q (u "System Events") ++ [NL]
  ++ u "    tell process " ++ q (u "Swinsian") ++ [NL]
  ++ u "        click menu item " ++ q (u "New Playlist") ++ u " of menu " ++ q (u "File")
  ++ u " of menu bar 1" ++ [NL]
  ++ u "        delay 0.5" ++ [NL]
  ++ u "        keystroke " ++ q safe_name ++ [NL]
  ++ u "        key code 36" ++ [NL]
  ++ u "    end tell" ++ [NL]
  ++ u "end tell".

(** One entry of [inner]. *)
Definition add_track_lines (safe_name : str) (t : track) : str :=
  [NL] ++ u "        set found to (every track whose name is " ++ q (escape (t_title t))
  ++ u " and artist is " ++ q (escape (t_artist t)) ++ u ")" ++ [NL]
  ++ u "        if (count of found) > 0 then add tracks {item 1 of found} to normal playlist "
  ++ q safe_name.

Definition batch_script (safe_name : str) (chunk : list track) : str :=
  u "tell application " ++ q (u "Swinsian") ++ [NL]
  ++ join [NL] (map (add_track_lines safe_name) chunk)
  ++ [NL] ++ u "end tell".

Definition BATCH : nat := 50.

(** [math.ceil(n / BATCH)]; the float quotient is exact enough for every
    length a list can have. *)
Definition batch_count (n : nat) : nat := (n + (BATCH - 1)) / BATCH.

(** [selected[b * BATCH:(b + 1) * BATCH]] *)
Definition chunk_at (selected : list track) (b : nat) : list track :=
  take BATCH (drop (b * BATCH) selected).

(** [for b in range(batches)], entered at [b] with [todo] rounds to go. *)
Fixpoint batch_loop (prefix safe_name : str) (selected : list track)
    (todo b : nat) : M unit :=
  match todo with
  | O => ret tt
  | S todo' =>
      do! run_applescript_with prefix (batch_script safe_name (chunk_at selected b)) in
      batch_loop prefix safe_name selected todo' (S b)
  end.

(** What follows the shuffle in both files. *)
Definition add_selected (prefix playlist_name : str) (selected : list track) : M nat :=
  match selected with
  | [] => ret 0
  | _ :: _ =>
      let safe_name := escape playlist_name in
      do! run_applescript_with prefix (create_script safe_name) in
      do! batch_loop prefix safe_name selected (batch_count (length selected)) 0 in
      ret (length selected)
  end.

(** *** swinsian_agent.py *)
Module Agent.

Definition ERR_PREFIX : str := u "AppleScript error: ".

Definition run_applescript : str -> M str := run_applescript_with ERR_PREFIX.
Definition fetch_property : str -> M (list str) := fetch_property_with ERR_PREFIX.
Definition get_library_tracks : M (list track) := get_library_tracks_with ERR_PREFIX.

Definition system : str :=
  SYSTEM_HEAD
  ++ u "- Honour quantity requests (e.g. " ++ q (u "100 songs")
  ++ u ") as closely as possible given the library size." ++ [NL]
  ++ SYSTEM_TAIL.

Definition FORMAT_MSG : str := u "Claude returned unexpected format:" ++ [NL].

Definition parse_reply : str -> result curation := parse_reply_with FORMAT_MSG.

Definition ask_claude_for_playlist
  : model -> list nat -> str -> list track -> result curation :=
  ask_with system FORMAT_MSG.

(** The selection is always shuffled. *)
Definition create_swinsian_playlist (rnd : list nat) (playlist_name : str)
    (track_ids : list Z) (all_tracks : list track) : M nat :=
  let selected := resolve track_ids all_tracks in
  let selected := shuffle rnd selected in
  add_selected ERR_PREFIX playlist_name selected.

End Agent.

(** *** swinsian_ui.py *)
Module UI.

Definition ERR_PREFIX : str := [].

Definition run_applescript : str -> M str := run_applescript_with ERR_PREFIX.
Definition fetch_property : str -> M (list str) := fetch_property_with ERR_PREFIX.
Definition get_library_tracks : M (list track) := get_library_tracks_with ERR_PREFIX.

Definition system (num_songs : Z) : str :=
  SYSTEM_HEAD
  ++ u "- Select exactly " ++ str_of_Z num_songs
  ++ u " tracks if possible, or as close as the library allows." ++ [NL]
  ++ SYSTEM_TAIL.

Definition FORMAT_MSG : str := u "Unexpected Claude response: ".

Definition parse_reply : str -> result curation := parse_reply_with FORMAT_MSG.

Definition ask_claude (claude : model) (rnd : list nat) (prompt : str)
    (num_songs : Z) (tracks : list track) : result curation :=
  ask_with (system num_songs) FORMAT_MSG claude rnd prompt tracks.

(** The selection is shuffled when [randomise] is set. *)
Definition create_playlist (rnd : list nat) (playlist_name : str)
    (track_ids : list Z) (all_tracks : list track) (randomise : bool) : M nat :=
  let selected := resolve track_ids all_tracks in
  let selected := if randomise then shuffle rnd selected else selected in
  add_selected ERR_PREFIX playlist_name selected.

End UI.

(** ** The liveness probe and the checks of the window *)

(** [s.lower()] on the letters A to Z. The case table of the other scripts is
    not reproduced; the probe compares the result with an ASCII word, and no
    character outside ASCII lower-cases to one of its letters. *)
Definition lower (s : str) : str :=
  map (fun c => if ((65 <=? c) && (c <=? 90))%N then (c + 32)%N else c) s.

Definition RUNNING_SCRIPT : str :=
  u "tell application " ++ q (u "System Events")
  ++ u " to return (name of processes) contains " ++ q (u "Swinsian").

(** [is_swinsian_running], the same in both files: every exception of the
    call is caught and answered with [False]. *)
Definition is_swinsian_running_with (prefix : str) : M bool :=
  fun w log =>
    match run_applescript_with prefix RUNNING_SCRIPT w log with
    | (log', Ok out) => (log', Ok (str_eqb (lower (strip out)) (u "true")))
    | (log', Raise _) => (log', Ok false)
    end.

(** *** The window of swinsian_ui.py *)
Module App.

Definition PLACEHOLDER : str := u "e.g. 100 songs that rock and surprise".

(** How [_run] ends: with one of its four messages, or by starting the worker
    on the checked inputs. *)
Inductive run_outcome : Type :=
  | BadKey
  | BadPrompt
  | BadNumber
  | NotRunning
  | Started (api_key prompt : str) (num_songs : Z) (randomise : bool).

(** [not api_key or api_key.startswith("sk-ant-") is False and
    len(api_key) < 10]: the comparison binds first, then [and], then [or]. *)
Definition key_refused (api_key : str) : bool :=
  match api_key with
  | [] => true
  | _ :: _ => negb (is_prefix (u "sk-ant-") api_key) && (length api_key <? 10)
  end.

(** [not prompt or prompt == "e.g. ..."] *)
Definition prompt_refused (prompt : str) : bool :=
  match prompt with
  | [] => true
  | _ :: _ => str_eqb prompt PLACEHOLDER
  end.

(** [num_songs = int(num_str); assert 1 <= num_songs <= 500], [None] when
    either fails. *)
Definition read_num_songs (num_str : str) : option Z :=
  match py_int num_str with
  | Some n => if ((1 <=? n) && (n <=? 500))%Z then Some n else None
  | None => None
  end.

(** [_run], on the texts of the three entry fields and the check box. *)
Definition run (api_key_var prompt_var num_songs_var : str) (randomise : bool)
  : M run_outcome :=
  let api_key := strip api_key_var in
  let prompt := strip prompt_var in
  let num_str := strip num_songs_var in
  if key_refused api_key then ret BadKey
  else if prompt_refused prompt then ret BadPrompt
  else
    match read_num_songs num_str with
    | None => ret BadNumber
    | Some num_songs =>
        let! running := is_swinsian_running_with UI.ERR_PREFIX in
        if running : bool then ret (Started api_key prompt num_songs randomise)
        else ret NotRunning
    end.

(** [_load_api_key]: [keyring] is what [keyring.get_password] gives (a key,
    [None], or an exception), [env] the environment variable if set. The
    result is the key put into the entry field, if any. *)
Definition load_api_key (keyring : result (option str)) (env : option str) : option str :=
  let from_env :=
    match default [] env with
    | [] => None
    | c :: k => Some (c :: k)
    end in
  match keyring with
  | Ok (Some (c :: k)) => Some (c :: k)
  | Ok (Some []) | Ok None => from_env
  | Raise _ => from_env
  end.

End App.

(** * Vocabulary of the statements

    Predicates, example libraries, bridges and replies that the properties
    below are stated with. *)

(** The id of every track is its index in the sequence of tracks. *)
Definition ids_are_running_index (ts : list track) : Prop :=
  ∀ k t, ts !! k = Some t → t_id t = Z.of_nat k.

(** The play count of a track whose [plays] string can be read. *)
Definition plays_of (t : track) : Z :=
  match play_key t with
  | Ok k => k
  | Raise _ => 0%Z
  end.

(** The [plays] string is empty or an integer literal. *)
Definition plays_readable (t : track) : Prop :=
  t_plays t = [] ∨ is_Some (py_int (t_plays t)).

(** A character that no integer literal holds: neither white space, a sign,
    an underscore nor a decimal digit of any script. *)
Definition not_numeral_char (c : char) : Prop :=
  is_space c = false ∧ c ≠ 43%N ∧ c ≠ 45%N ∧ c ≠ 95%N ∧ decimal_of c = None.

(** A track with its sort key. *)
Definition decorate (t : track) : Z * track := (plays_of t, t).

(** Descending order, on keyed tracks and on tracks. *)
Definition ge_key (a b : Z * track) : Prop := (b.1 <= a.1)%Z.

Definition ge_plays (a b : track) : Prop := (plays_of b <= plays_of a)%Z.

(** Turns the character tests into arithmetic. *)
Ltac char_facts :=
  unfold is_space, is_digit, is_lower, is_json_ws in *;
  rewrite ?orb_true_iff, ?andb_true_iff, ?orb_false_iff, ?andb_false_iff,
    ?N.leb_le, ?N.leb_gt, ?N.eqb_eq, ?N.eqb_neq in *.

(** Splits the cases of the tests and matches in [H]. *)
Ltac split_match H :=
  repeat (match type of H with
          | context [if ?b then _ else _] => destruct b eqn:?
          | context [match ?x with _ => _ end] => destruct x eqn:?
          end; try discriminate H).

(** A string of decimal digits. *)
Definition all_digits (s : str) : Prop := Forall (λ c, is_digit c = true) s.

(** Names "A", blank, "B" as the bridge returns them. *)
Definition gapped_names : list str := split (u "~~~") (u "A~~~ ~~~B").

Definition gapped_library : list track := collect_tracks gapped_names [] [] [] [] [] [].

(** A bridge that answers the name and artist queries of a library of three
    entries, the second of them without a name. *)
Definition gapped_bridge : bridge :=
  λ _ script,
    if bool_decide (script = fetch_script (u "name"))
    then Completed 0 (u "A~~~ ~~~B") []
    else if bool_decide (script = fetch_script (u "artist"))
    then Completed 0 (u "X~~~Y~~~Z") []
    else Completed 0 [] [].

(** A track whose play count reads "abc". *)
Definition unreadable_track : track := Track 0 (u "A") [] [] [] [] [] (u "abc").

(** A library of 4001 tracks whose first play count reads "abc". *)
Definition unreadable_library : list track :=
  collect_tracks (replicate 4001 (u "A")) [] [] [] [] [] [u "abc"].

(** 4001 tracks; the second play count reads "n/a". *)
Definition half_readable_library : list track :=
  collect_tracks (replicate 4001 (u "A")) [] [] [] [] [] [u "12"; u "n/a"].

(** 4001 tracks with play counts 3, 5 and then none. *)
Definition readable_library : list track :=
  collect_tracks (replicate 4001 (u "A")) [] [] [] [] [] [u "3"; u "5"].









(** The scripts of the batches, in the order they are issued. *)
Definition batch_scripts (safe_name : str) (selected : list track) : list str :=
  map (λ b, batch_script safe_name (chunk_at selected b))
      (seq 0 (batch_count (length selected))).

(** All scripts a run issues when no call fails. *)
Definition planned_scripts (playlist_name : str) (selected : list track) : list str :=
  create_script (escape playlist_name) :: batch_scripts (escape playlist_name) selected.

(** A bridge on which every call succeeds. *)
Definition compliant (w : bridge) : Prop := ∀ log script, returncode (w log script) = 0%Z.

(** The bridge whose every call succeeds with no output. *)
Definition ok_bridge : bridge := λ _ _, Completed 0 [] [].

(** A bridge that fails from the [n]-th call on. *)
Definition failing_from (n : nat) : bridge :=
  λ log _, if length log <? n then Completed 0 [] [] else Completed 1 [] (u "boom").

(** The library of the end-to-end example. *)
Definition lib3 : list track :=
  collect_tracks [u "A"; u "B"; u "C"] [u "X"; u "Y"; u "Z"] [] [] [] [] [].

(** Its first and its last track. *)
Definition track_A : track := Track 0 (u "A") (u "X") [] [] [] [] [].

Definition track_C : track := Track 2 (u "C") (u "Z") [] [] [] [] [].








(** The reply of the end-to-end example. *)
Definition example_mid : str :=
  q (u "playlist_name") ++ u ":" ++ q (u "Test") ++ u "," ++ q (u "ids") ++ u ":[2,0,9],"
  ++ q (u "rationale") ++ u ":" ++ q (u "ok").

Definition example_object : str := LBRACE :: example_mid ++ [RBRACE].

Definition example_pairs : list (str * json) :=
  [(u "playlist_name", JString (u "Test"));
   (u "ids", JList [JInt 2; JInt 0; JInt 9]);
   (u "rationale", JString (u "ok"))].


(** The result read off the pairs of an object. *)
Definition curation_of_pairs (kvs : list (str * json)) : curation :=
  (dict_get kvs (u "playlist_name") DEFAULT_NAME,
   dict_get kvs (u "ids") (JList []),
   dict_get kvs (u "rationale") (JString [])).

(** The body of a string literal of the script language, after its opening
    quote: a backslash makes the backslash or quote after it part of the text,
    a bare quote ends the literal. Returns the text and what follows the
    closing quote. *)
Fixpoint read_literal (acc : str) (s : str) : option (str * str) :=
  match s with
  | [] => None
  | c :: r =>
      if (c =? DQ)%N then Some (rev acc, r)
      else if (c =? BACKSLASH)%N then
        match r with
        | e :: r' =>
            if ((e =? BACKSLASH) || (e =? DQ))%N then read_literal (e :: acc) r'
            else None
        | [] => None
        end
      else read_literal (c :: acc) r
  end.

(** What [escape] puts for one character. *)
Definition escape_char (c : char) : str :=
  if (c =? BACKSLASH)%N then [BACKSLASH; BACKSLASH]
  else if (c =? DQ)%N then [BACKSLASH; DQ]
  else [c].

(** The text of a catalog line before its first bar. *)
Definition first_column (line : str) : str :=
  (span (λ c, negb (c =? 124)%N) line).1.

(** A quoted literal at the head of a text: its content and what follows. *)
Definition read_quoted (s : str) : option (str * str) :=
  match s with
  | c :: r => if (c =? DQ)%N then read_literal [] r else None
  | [] => None
  end.

(** The creation script up to the name it types, and after it. *)
Definition CREATE_HEAD : str :=
  [NL] ++ u "tell application " ++ q (u "Swinsian") ++ u " to activate" ++ [NL]
  ++ u "delay 0.5" ++ [NL]
  ++ u "tell application " ++ q (u "System Events") ++ [NL]
  ++ u "    tell process " ++ q (u "Swinsian") ++ [NL]
  ++ u "        click menu item " ++ q (u "New Playlist") ++ u " of menu " ++ q (u "File")
  ++ u " of menu bar 1" ++ [NL]
  ++ u "        delay 0.5" ++ [NL]
  ++ u "        keystroke ".

Definition CREATE_TAIL : str :=
  [NL] ++ u "        key code 36" ++ [NL] ++ u "    end tell" ++ [NL] ++ u "end tell".

(** The name a creation script types into the player. *)
Definition typed_name (script : str) : option str :=
  match strip_prefix CREATE_HEAD script with
  | Some r =>
      match read_quoted r with
      | Some (name, rest) => if str_eqb rest CREATE_TAIL then Some name else None
      | None => None
      end
  | None => None
  end.

(** The texts of a batch script around the literals of a track. *)
Definition ENTRY_HEAD : str :=
  [NL] ++ u "        set found to (every track whose name is ".

Definition ENTRY_MID : str := u " and artist is ".

Definition ENTRY_TAIL : str :=
  u ")" ++ [NL]
  ++ u "        if (count of found) > 0 then add tracks {item 1 of found} to normal playlist ".

Definition BATCH_HEAD : str := u "tell application " ++ q (u "Swinsian") ++ [NL].

Definition BATCH_END : str := u "end tell".

(** What a batch script asks the player for one track: the title and the
    artist to look up, and the playlist to add the track found to. *)
Abbreviation entry := (str * str * str)%type (only parsing).

Definition entry_of (playlist_name : str) (t : track) : entry :=
  (t_title t, t_artist t, playlist_name).

(** One request at the head of a text, and what follows it. *)
Definition read_entry (s : str) : option (entry * str) :=
  match strip_prefix ENTRY_HEAD s with
  | None => None
  | Some r1 =>
      match read_quoted r1 with
      | None => None
      | Some (title, r2) =>
          match strip_prefix ENTRY_MID r2 with
          | None => None
          | Some r3 =>
              match read_quoted r3 with
              | None => None
              | Some (artist, r4) =>
                  match strip_prefix ENTRY_TAIL r4 with
                  | None => None
                  | Some r5 =>
                      match read_quoted r5 with
                      | None => None
                      | Some (name, r6) => Some ((title, artist, name), r6)
                      end
                  end
              end
          end
      end
  end.

(** The requests of the body of a batch script, up to its last line; at
    most [fuel] of them. *)
Fixpoint read_entries (fuel : nat) (s : str) : option (list entry) :=
  match fuel with
  | O => None
  | S fuel' =>
      match read_entry s with
      | None => None
      | Some (e, r) =>
          match strip_prefix [NL] r with
          | None => None
          | Some r' =>
              if str_eqb r' BATCH_END then Some [e]
              else cons e <$> read_entries fuel' r'
          end
      end
  end.

(** The requests of a batch script, in the order the player carries them
    out. *)
Definition script_entries (script : str) : option (list entry) :=
  match strip_prefix BATCH_HEAD script with
  | Some body => read_entries (length body) body
  | None => None
  end.

(** The requests of a sequence of batch scripts, in order. *)
Fixpoint inserted (scripts : list str) : option (list entry) :=
  match scripts with
  | [] => Some []
  | script :: rest =>
      match script_entries script, inserted rest with
      | Some es, Some es' => Some (es ++ es')
      | _, _ => None
      end
  end.

(** Running scripts one after the other, as the materialisers do. *)
Fixpoint run_scripts (prefix : str) (scripts : list str) : M unit :=
  match scripts with
  | [] => ret tt
  | script :: rest =>
      do! run_applescript_with prefix script in run_scripts prefix rest
  end.

(** The seven queries of the library reader, in the order they are made. *)
Definition library_queries : list str :=
  map fetch_script
    [u "name"; u "artist"; u "album"; u "genre"; u "year"; u "rating"; u "play count"].

(** The [k]-th of the scripts, issued after the ones before it, succeeds. *)
Definition call_succeeds (w : bridge) (log : list str) (scripts : list str) (k : nat) : Prop :=
  ∀ script, scripts !! k = Some script →
    returncode (w (log ++ take k scripts) script) = 0%Z.

(** The same outcome in the GUI and on the command line: the same value, or
    the same bridge error, which the command line prefixes. *)
Definition same_outcome {A} (ui agent : result A) : Prop :=
  match ui, agent with
  | Ok a, Ok b => a = b
  | Raise (RuntimeError m), Raise (RuntimeError m') => m' = Agent.ERR_PREFIX ++ m
  | _, _ => False
  end.

(** Two runs, one of the GUI and one of the command line, that issue the same
    scripts and end in the same outcome. *)
Definition agree {A} (ui agent : list str * result A) : Prop :=
  ui.1 = agent.1 ∧ same_outcome ui.2 agent.2.

(** A bridge on which the player is found running. *)
Definition running_bridge : bridge := λ _ _, Completed 0 (u "TRUE") [].

(** The second track of [half_readable_library]. *)
Definition track_na : track := Track 1 (u "A") [] [] [] [] [] (u "n/a").

(** The track the reader makes of position [j] of the seven sequences: none
    when there is no name there or the name is blank. *)
Definition track_at_position (names artists albums genres years ratings plays : list str)
    (j : nat) : option track :=
  match names !! j with
  | Some name =>
      match strip name with
      | [] => None
      | _ :: _ =>
          Some (Track (Z.of_nat j) (strip name) (field_at artists j) (field_at albums j)
                      (field_at genres j) (field_at years j) (field_at ratings j)
                      (field_at plays j))
      end
  | None => None
  end.

(** The tilde, of which the separator of the field values is made. *)
Definition TILDE : char := 126%N.

(** * Properties *)

(** ** Identifier lookup *)

Section Lookup.
Implicit Types (ts : list track) (m : gmap Z track) (t : track).

Let ins m t := <[t_id t := t]> m.

Lemma foldl_insert_fresh ts m (k : Z) :
  k ∉ map t_id ts → foldl ins m ts !! k = m !! k.
Proof.
  revert m. induction ts as [|a ts IH]; intros m Hk; simpl in *; [done|].
  apply not_elem_of_cons in Hk as [Hne Hk].
  rewrite IH by done. unfold ins. by apply lookup_insert_ne.
Qed.

Lemma foldl_insert_member ts m t :
  NoDup (map t_id ts) → t ∈ ts → foldl ins m ts !! t_id t = Some t.
Proof.
  revert m. induction ts as [|a ts IH]; intros m Hnd Hin; simpl in *.
  - by apply elem_of_nil in Hin.
  - apply NoDup_cons in Hnd as [Ha Hnd].
    apply elem_of_cons in Hin as [->|Hin]; [|by apply IH].
    rewrite foldl_insert_fresh by done. apply lookup_insert_eq.
Qed.

(** Whatever the list, a stored track sits under its own id. *)
Lemma foldl_insert_key ts m (k : Z) t :
  (∀ k' t', m !! k' = Some t' → t_id t' = k') →
  foldl ins m ts !! k = Some t → t_id t = k.
Proof.
  revert m. induction ts as [|a ts IH]; intros m Hm Hk; simpl in *; [by eapply Hm|].
  eapply IH; [|exact Hk]. intros k' t'. unfold ins.
  rewrite lookup_insert. case_decide; naive_solver.
Qed.

Lemma foldl_insert_elem ts m (k : Z) t :
  foldl ins m ts !! k = Some t → t ∈ ts ∨ m !! k = Some t.
Proof.
  revert m. induction ts as [|a ts IH]; intros m Hk; simpl in *; [by right|].
  apply IH in Hk as [?|Hk]; [left; by apply list_elem_of_further|].
  unfold ins in Hk. rewrite lookup_insert in Hk.
  case_decide; [left | by right].
  injection Hk as ->. apply list_elem_of_here.
Qed.
End Lookup.

Lemma id_to_track_member ts t :
  NoDup (map t_id ts) → t ∈ ts → id_to_track ts !! t_id t = Some t.
Proof. apply foldl_insert_member. Qed.

Lemma id_to_track_key ts k t : id_to_track ts !! k = Some t → t_id t = k.
Proof. apply foldl_insert_key. intros ??. by rewrite lookup_empty. Qed.

Lemma id_to_track_elem ts k t : id_to_track ts !! k = Some t → t ∈ ts.
Proof.
  intros H. apply foldl_insert_elem in H as [?|H]; [done|].
  by rewrite lookup_empty in H.
Qed.

Lemma resolve_cons i ids ts :
  resolve (i :: ids) ts =
  match id_to_track ts !! i with
  | Some t => t :: resolve ids ts
  | None => resolve ids ts
  end.
Proof. reflexivity. Qed.

Lemma resolve_app ids1 ids2 ts :
  resolve (ids1 ++ ids2) ts = resolve ids1 ts ++ resolve ids2 ts.
Proof. apply omap_app. Qed.

Lemma resolve_elem ids ts t : t ∈ resolve ids ts → t ∈ ts ∧ t_id t ∈ ids.
Proof.
  unfold resolve. rewrite list_elem_of_omap. intros (i & Hi & Hl).
  split; [by eapply id_to_track_elem|]. by rewrite (id_to_track_key _ _ _ Hl).
Qed.

(** ** The library reader *)

Section Collect.
Variables artists albums genres years ratings plays : list str.

Let collect i names := collect_from i names artists albums genres years ratings plays.

Lemma collect_from_position names : ∀ i k t,
  collect i names !! k = Some t →
  ∃ j name, t_id t = Z.of_nat (i + j) ∧ k ≤ j
       ∧ names !! j = Some name ∧ t_title t = strip name ∧ t_title t ≠ [].
Proof.
  induction names as [|name names IH]; intros i k t Hk; [done|].
  unfold collect in *. simpl in Hk.
  destruct (strip name) as [|c cs] eqn:Hname.
  - apply IH in Hk as (j & nm & Hid & Hle & Hnm & Htt & Hne).
    exists (S j), nm. repeat split; [rewrite Hid; f_equal; lia | lia | done | done | done].
  - destruct k as [|k]; simpl in Hk.
    + injection Hk as <-. exists 0, name.
      cbn. rewrite Hname. repeat split; try done. f_equal; lia.
    + apply IH in Hk as (j & nm & Hid & Hle & Hnm & Htt & Hne).
      exists (S j), nm. repeat split; [rewrite Hid; f_equal; lia | lia | done | done | done].
Qed.

Lemma collect_from_lower names : ∀ i,
  Forall (fun z => (Z.of_nat i <= z)%Z) (map t_id (collect i names)).
Proof.
  induction names as [|name names IH]; intros i; [constructor|].
  unfold collect in *. simpl.
  assert (Forall (λ z : Z, (Z.of_nat i <= z)%Z)
            (map t_id (collect_from (S i) names artists albums genres years ratings plays))).
  { eapply Forall_impl; [apply IH|]. simpl. intros. lia. }
  destruct (strip name); [done|]. simpl. constructor; [lia | done].
Qed.

Lemma collect_from_sorted names : ∀ i,
  StronglySorted Z.lt (map t_id (collect i names)).
Proof.
  induction names as [|name names IH]; intros i; [constructor|].
  unfold collect in *. simpl.
  destruct (strip name); [apply IH|]. simpl. constructor; [apply IH|].
  eapply Forall_impl; [apply collect_from_lower|]. simpl. intros. lia.
Qed.

Lemma collect_from_contiguous names : ∀ i,
  Forall (fun name => strip name ≠ []) names →
  map t_id (collect i names) = map Z.of_nat (seq i (length names)).
Proof.
  induction names as [|name names IH]; intros i Hall; [done|].
  apply Forall_cons in Hall as [Hname Hall].
  unfold collect in *. simpl. destruct (strip name); [done|].
  simpl. f_equal. by apply IH.
Qed.
End Collect.

Lemma StronglySorted_lt_NoDup (l : list Z) : StronglySorted Z.lt l → NoDup l.
Proof.
  induction 1 as [|x l Hs IH Hall]; constructor; [|done].
  intros Hin. rewrite Forall_forall in Hall. specialize (Hall x Hin). lia.
Qed.

Example split_ex :
  split (u "~~~") (u "a~~~b~~~~c~~~") = [u "a"; u "b"; u "~c"; u ""].
Proof. reflexivity. Qed.

Example strip_ex : strip (u "  a b	 ") = u "a b".
Proof. reflexivity. Qed.

Example py_int_ex :
  py_int (u "12") = Some 12%Z /\ py_int (u " -1_000 ") = Some (-1000)%Z
  /\ py_int (u "abc") = None /\ py_int (u "1__0") = None /\ py_int (u "") = None
  /\ py_int (u "1.5") = None.
Proof. repeat split; reflexivity. Qed.

(** The Arabic-Indic digit three is read as 3, also between no-break spaces;
    a file separator before a digit is refused, although [strip] removes it. *)
Example py_int_scripts_ex :
  py_int [1635%N] = Some 3%Z /\ py_int [160%N; 1635%N; 49%N; 160%N] = Some 31%Z
  /\ py_int [28%N; 49%N] = None /\ strip [28%N; 49%N] = [49%N]
  /\ py_int [178%N] = None.
Proof. repeat split; reflexivity. Qed.

Example str_of_Z_ex : str_of_Z 4071 = u "4071" /\ str_of_Z 0 = u "0" /\ str_of_Z (-12) = u "-12".
Proof. repeat split; reflexivity. Qed.

Example shuffle_ex : shuffle [0; 0; 0] [1; 2; 3; 4] = [2; 3; 4; 1].
Proof. reflexivity. Qed.

(** ** Sorting by play count *)

Lemma play_key_readable t : plays_readable t → play_key t = Ok (plays_of t).
Proof.
  unfold plays_readable, plays_of, play_key.
  intros [->|[z Hz]]; [done|].
  destruct (t_plays t); [done|]. by rewrite Hz.
Qed.

Lemma play_key_unreadable t :
  ¬ plays_readable t → play_key t = Raise (IntValueError (t_plays t)).
Proof.
  unfold plays_readable, play_key. intros Hn.
  destruct (t_plays t) as [|c s] eqn:Hp; [by destruct Hn; left|].
  destruct (py_int (c :: s)) eqn:Hi; [|done].
  destruct Hn. right. by eexists.
Qed.

Lemma keyed_readable ts :
  Forall plays_readable ts → keyed ts = Ok (map decorate ts).
Proof.
  induction 1 as [|t ts Ht _ IH]; [done|].
  simpl. rewrite (play_key_readable t Ht). simpl. by rewrite IH.
Qed.

Lemma keyed_unreadable ts :
  ¬ Forall plays_readable ts → ∃ s, keyed ts = Raise (IntValueError s).
Proof.
  induction ts as [|t ts IH]; intros Hn; [destruct Hn; constructor|].
  simpl. destruct (play_key t) as [k|e] eqn:Hk.
  - assert (plays_readable t) as Ht.
    { unfold plays_readable. unfold play_key in Hk.
      destruct (t_plays t); [by left|].
      destruct (py_int _); [right; by eexists | done]. }
    destruct IH as [s Hs].
    { intros Hall. apply Hn. by constructor. }
    exists s. simpl. by rewrite Hs.
  - unfold play_key in Hk. destruct (t_plays t) as [|c s]; [done|].
    destruct (py_int (c :: s)); [done|]. injection Hk as <-. by eexists.
Qed.

Lemma insert_desc_perm x l : insert_desc x l ≡ₚ x :: l.
Proof.
  induction l as [|y l IH]; simpl; [done|].
  destruct (x.1 <? y.1)%Z; [|done].
  rewrite IH. apply Permutation_swap.
Qed.

Lemma sort_desc_perm l : sort_desc l ≡ₚ l.
Proof.
  induction l as [|x l IH]; simpl; [done|].
  rewrite insert_desc_perm. by rewrite IH.
Qed.

Lemma insert_desc_sorted x l :
  StronglySorted ge_key l → StronglySorted ge_key (insert_desc x l).
Proof.
  induction 1 as [|y l Hs IH Hall]; simpl; [repeat constructor|].
  destruct (Z.ltb_spec (x.1) (y.1)).
  - constructor; [done|].
    rewrite insert_desc_perm. constructor; [unfold ge_key; lia | done].
  - constructor; [by constructor|].
    constructor; [unfold ge_key; lia|].
    eapply Forall_impl; [exact Hall|]. unfold ge_key. simpl. intros. lia.
Qed.

Lemma sort_desc_sorted l : StronglySorted ge_key (sort_desc l).
Proof.
  induction l as [|x l IH]; simpl; [constructor | by apply insert_desc_sorted].
Qed.

(** Stability: the elements of one key keep their input order. *)
Lemma insert_desc_stable (k : Z) x l :
  filter (λ y, y.1 = k) (insert_desc x l) = filter (λ y, y.1 = k) (x :: l).
Proof.
  induction l as [|y l IH]; simpl; [done|].
  destruct (Z.ltb_spec (x.1) (y.1)) as [Hlt|Hge]; [|done].
  rewrite (filter_cons _ y), IH, !filter_cons.
  repeat case_decide; try done; lia.
Qed.

Lemma sort_desc_stable (k : Z) l :
  filter (λ y, y.1 = k) (sort_desc l) = filter (λ y, y.1 = k) l.
Proof.
  induction l as [|x l IH]; simpl; [done|].
  rewrite insert_desc_stable, !filter_cons. by rewrite IH.
Qed.

Lemma decorate_sorted l :
  StronglySorted ge_key (map decorate l) → StronglySorted ge_plays l.
Proof.
  induction l as [|t l IH]; simpl; intros Hs; [constructor|].
  apply StronglySorted_inv in Hs as [Hs Hall]. constructor; [by apply IH|].
  apply List.Forall_forall. intros t' Hin.
  apply (proj1 (List.Forall_forall _ _) Hall (decorate t')). by apply in_map.
Qed.

Lemma decorate_filter (k : Z) l :
  map snd (filter (λ y, y.1 = k) (map decorate l)) = filter (λ t, plays_of t = k) l.
Proof.
  induction l as [|t l IH]; simpl; [done|].
  rewrite !filter_cons. simpl. case_decide; simpl; by rewrite IH.
Qed.

Lemma map_snd_decorate l : map snd (map decorate l) = l.
Proof. induction l; simpl; congruence. Qed.

(** [sorted] on a readable library: a stable rearrangement in descending
    order of play count. *)
Lemma sorted_by_plays_spec ts :
  Forall plays_readable ts →
  ∃ by_plays,
    sorted_by_plays ts = Ok by_plays
    ∧ by_plays ≡ₚ ts
    ∧ StronglySorted ge_plays by_plays
    ∧ ∀ k, filter (λ t, plays_of t = k) by_plays = filter (λ t, plays_of t = k) ts.
Proof.
  intros Hall. unfold sorted_by_plays. rewrite (keyed_readable _ Hall). simpl.
  destruct (Permutation_map_inv decorate ts (sort_desc_perm (map decorate ts)))
    as (l & Hl & Hperm).
  exists l. rewrite Hl, map_snd_decorate. split_and!.
  - done.
  - by symmetry.
  - apply decorate_sorted. rewrite <- Hl. apply sort_desc_sorted.
  - intros k. rewrite <- !decorate_filter, <- Hl. by rewrite sort_desc_stable.
Qed.

(** ** Shuffling *)

Lemma insert_delete_perm {A} (l : list A) j a b :
  l !! j = Some b → <[j := a]> l ≡ₚ a :: delete j l.
Proof.
  revert j. induction l as [|x l IH]; intros [|j] Hj; simplify_eq/=; [done|].
  rewrite (IH _ Hj). apply Permutation_swap.
Qed.

Lemma insert_insert_perm {A} (x : list A) : ∀ i j a b,
  x !! i = Some a → x !! j = Some b → i ≠ j → <[i := b]> (<[j := a]> x) ≡ₚ x.
Proof.
  induction x as [|y x IH]; intros [|i] [|j] a b Hi Hj Hne; simplify_eq/=.
  - rewrite (insert_delete_perm _ _ _ _ Hj).
    rewrite (delete_Permutation x j b Hj) at 2. apply Permutation_swap.
  - rewrite (insert_delete_perm _ _ _ _ Hi).
    rewrite (delete_Permutation x i a Hi) at 2. apply Permutation_swap.
  - f_equiv. apply IH; [done | done | congruence].
Qed.

Lemma swap_perm {A} (x : list A) i j : swap x i j ≡ₚ x.
Proof.
  unfold swap.
  destruct (x !! i) as [a|] eqn:Hi; [|done].
  destruct (x !! j) as [b|] eqn:Hj; [|done].
  destruct (decide (i = j)) as [->|Hne].
  - rewrite Hi in Hj. injection Hj as <-.
    by rewrite !(list_insert_id x j a Hi).
  - by apply insert_insert_perm.
Qed.

Lemma shuffle_go_perm {A} i : ∀ rnd (x : list A), shuffle_go i rnd x ≡ₚ x.
Proof.
  induction i as [|i IH]; intros rnd x; [done|].
  cbn [shuffle_go]. rewrite IH. apply swap_perm.
Qed.

Lemma shuffle_perm {A} rnd (x : list A) : shuffle rnd x ≡ₚ x.
Proof. apply shuffle_go_perm. Qed.

Lemma shuffle_length {A} rnd (x : list A) : length (shuffle rnd x) = length x.
Proof. apply Permutation_length, shuffle_perm. Qed.

Lemma shuffle_nil {A} rnd : shuffle rnd (@nil A) = [].
Proof. reflexivity. Qed.

(** ** Characters and stripping *)

Lemma digit_not_space c : is_digit c = true → is_space c = false.
Proof. intros H. char_facts. lia. Qed.

Lemma dropwhile_false {A} (p : A → bool) x l : p x = false → dropwhile p (x :: l) = x :: l.
Proof. intros H. simpl. by rewrite H. Qed.

Lemma dropwhile_app_stop {A} (p : A → bool) l x r :
  p x = false → dropwhile p (l ++ x :: r) = dropwhile p l ++ x :: r.
Proof.
  intros Hx. induction l as [|y l IH]; simpl; [by rewrite Hx|].
  destruct (p y); [exact IH | done].
Qed.

Lemma dropwhile_all {A} (p : A → bool) l r :
  Forall (λ x, p x = true) l → dropwhile p (l ++ r) = dropwhile p r.
Proof. induction 1 as [|x l Hx _ IH]; simpl; [done|]. by rewrite Hx. Qed.

Lemma dropwhile_suffix {A} (p : A → bool) l : ∃ k, l = k ++ dropwhile p l.
Proof.
  induction l as [|x l [k Hk]]; simpl; [by exists []|].
  destruct (p x); [|by exists []]. exists (x :: k). simpl. by f_equal.
Qed.

Lemma rstrip_snoc s c : is_space c = false → rstrip (s ++ [c]) = s ++ [c].
Proof.
  intros Hc. unfold rstrip. rewrite rev_app_distr. simpl.
  rewrite Hc. simpl. by rewrite rev_involutive.
Qed.

(** A string that starts and ends with a character that is no whitespace is
    left alone by [strip]. *)
Lemma strip_fixed c s d :
  is_space c = false → is_space d = false → strip (c :: s ++ [d]) = c :: s ++ [d].
Proof.
  intros Hc Hd. unfold strip, lstrip. rewrite dropwhile_false by done.
  exact (rstrip_snoc (c :: s) d Hd).
Qed.

Lemma strip_fixed1 c : is_space c = false → strip [c] = [c].
Proof. intros Hc. unfold strip, lstrip, rstrip. simpl. rewrite Hc. simpl. by rewrite Hc. Qed.

Lemma strip_no_space s :
  Forall (λ c, is_space c = false) s → strip s = s.
Proof.
  intros Hs. destruct s as [|c s]; [done|].
  apply Forall_cons in Hs as [Hc Hs].
  destruct (decide (s = [])) as [->|Hne]; [by apply strip_fixed1|].
  destruct (exists_last Hne) as (s' & d & ->).
  apply Forall_app in Hs as [_ Hd]. apply Forall_cons in Hd as [Hd _].
  by apply strip_fixed.
Qed.

(** ** Decimal numerals *)

Lemma digit_of_mod (n : N) : is_digit (48 + n mod 10)%N = true.
Proof.
  pose proof (N.mod_upper_bound n 10 ltac:(done)) as H.
  revert H. generalize (n mod 10)%N. intros m H. char_facts. lia.
Qed.

Lemma digits_go_all_digits fuel : ∀ n acc,
  all_digits acc → all_digits (digits_go fuel n acc).
Proof.
  induction fuel as [|fuel IH]; intros n acc Hacc; simpl; [done|].
  assert (all_digits ((48 + n mod 10)%N :: acc)).
  { constructor; [apply digit_of_mod | done]. }
  destruct (n / 10 =? 0)%N; [done | by apply IH].
Qed.

Lemma digits_go_nonempty fuel n acc : digits_go (S fuel) n acc ≠ [].
Proof.
  revert n acc. induction fuel as [|fuel IH]; intros n acc.
  - simpl. by destruct (n / 10 =? 0)%N.
  - change (digits_go (S (S fuel)) n acc) with
      (let acc' := (48 + n mod 10)%N :: acc in
       if (n / 10 =? 0)%N then acc' else digits_go (S fuel) (n / 10)%N acc').
    simpl. destruct (n / 10 =? 0)%N; [done | apply IH].
Qed.

(** Reading back what [digits_go] wrote. *)
Lemma int_digits_digits_go fuel : ∀ n acc a prev,
  (n < 2 ^ N.of_nat fuel)%N →
  ∃ p, int_digits a prev (digits_go (S fuel) n acc) = int_digits (a * p + n) true acc.
Proof.
  induction fuel as [|fuel IH]; intros n acc a prev Hn.
  - assert (n = 0%N) as -> by (simpl in Hn; lia).
    exists 10%N. simpl. f_equal; lia.
  - change (digits_go (S (S fuel)) n acc) with
      (let acc' := (48 + n mod 10)%N :: acc in
       if (n / 10 =? 0)%N then acc' else digits_go (S fuel) (n / 10)%N acc').
    cbv zeta. pose proof (N.div_mod n 10 ltac:(done)) as Hdm.
    pose proof (N.mod_upper_bound n 10 ltac:(done)) as Hm.
    pose proof (digit_of_mod n) as Hdig.
    rewrite Nat2N.inj_succ, N.pow_succ_r' in Hn.
    revert Hdm Hm Hdig. generalize (n / 10)%N (n mod 10)%N. intros q r Hdm Hm Hdig.
    destruct (N.eqb_spec q 0) as [Hz|Hnz].
    + exists 10%N. simpl. rewrite Hdig. f_equal; lia.
    + destruct (IH q ((48 + r)%N :: acc) a prev) as [p Hp]; [lia|].
      exists (p * 10)%N. rewrite Hp. simpl. rewrite Hdig. f_equal; lia.
Qed.

Lemma size_nat_bound (n : N) : (n < 2 ^ N.of_nat (N.size_nat n))%N.
Proof.
  destruct n as [|p]; [done|].
  pose proof (proj2 (Zpower2_Psize (Pos.size_nat p) p) (le_n _)) as H.
  apply N2Z.inj_lt. rewrite N2Z.inj_pow, nat_N_Z. exact H.
Qed.

Lemma str_of_N_digits n : all_digits (str_of_N n) ∧ str_of_N n ≠ [].
Proof.
  split; [apply digits_go_all_digits; constructor | apply digits_go_nonempty].
Qed.

Lemma digits_go_length fuel : ∀ n acc k,
  (n < 10 ^ N.of_nat k)%N → 1 ≤ k → length (digits_go fuel n acc) ≤ length acc + k.
Proof.
  induction fuel as [|fuel IH]; intros n acc k Hn Hk; simpl; [lia|].
  destruct (N.eqb_spec (n / 10) 0) as [Hz|Hnz]; [simpl; lia|].
  destruct k as [|[|k]]; [lia | |].
  - destruct Hnz. apply N.div_small. simpl in Hn. lia.
  - etrans; [apply (IH _ _ (S k)); [|lia]|simpl; lia].
    rewrite Nat2N.inj_succ, N.pow_succ_r' in Hn.
    apply N.Div0.div_lt_upper_bound. lia.
Qed.

Lemma filter_all_digits s : all_digits s → List.filter is_digit s = s.
Proof. induction 1 as [|c s Hc _ IH]; simpl; [done|]. by rewrite Hc, IH. Qed.

Lemma dropwhile_none {A} (p : A → bool) l :
  Forall (λ x, p x = false) l → dropwhile p l = l.
Proof. destruct 1 as [|x l Hx _]; [done|]. simpl. by rewrite Hx. Qed.

Lemma digit_not_c_space c : is_digit c = true → is_c_space c = false.
Proof. unfold is_c_space. intros H. char_facts. lia. Qed.

Lemma int_char_digit c : is_digit c = true → int_char c = c.
Proof.
  intros H. unfold int_char.
  destruct (N.ltb_spec c 127) as [_|Hge]; [done|]. char_facts. lia.
Qed.

(** The text [int] parses for a string of ASCII digits is the string. *)
Lemma int_text_digits s :
  all_digits s →
  rev (dropwhile is_c_space (rev (dropwhile is_c_space (map int_char s)))) = s.
Proof.
  intros Hd.
  assert (map int_char s = s) as ->.
  { induction Hd as [|c s Hc _ IH]; [done|]. simpl. by rewrite int_char_digit, IH. }
  assert (Forall (λ c, is_c_space c = false) s) as Hs.
  { eapply Forall_impl; [exact Hd|]. apply digit_not_c_space. }
  rewrite (dropwhile_none _ s Hs).
  rewrite (dropwhile_none _ (rev s)) by by apply Forall_rev.
  apply rev_involutive.
Qed.

(** [int] reads the decimal numeral of [n] as [n]. *)
Lemma py_int_str_of_N n :
  (n < 10 ^ N.of_nat MAX_STR_DIGITS)%N → py_int (str_of_N n) = Some (Z.of_N n).
Proof.
  intros Hn. destruct (str_of_N_digits n) as [Hd Hne].
  unfold py_int. rewrite int_text_digits by done.
  destruct (int_digits_digits_go (N.size_nat n) n [] 0%N false (size_nat_bound n))
    as [p Hp].
  fold (str_of_N n) in Hp.
  assert (int_body (str_of_N n) = Some n) as Hval.
  { unfold int_body. rewrite filter_all_digits by done.
    assert (length (str_of_N n) ≤ MAX_STR_DIGITS) as Hlen.
    { apply (digits_go_length _ n [] MAX_STR_DIGITS Hn). unfold MAX_STR_DIGITS. lia. }
    destruct (Nat.ltb_spec MAX_STR_DIGITS (length (str_of_N n))); [lia|].
    rewrite Hp. simpl. f_equal; lia. }
  destruct (str_of_N n) as [|c s] eqn:Hs; [done|].
  apply Forall_cons in Hd as [Hc _].
  assert (c ≠ 45%N ∧ c ≠ 43%N) as [H1 H2] by (char_facts; lia).
  apply N.eqb_neq in H1, H2. rewrite H1, H2. by rewrite Hval.
Qed.

(** ** Head-and-sample *)

Lemma sorted_head_dominates {A} (R : A → A → Prop) (l : list A) : ∀ h x y,
  StronglySorted R l → x ∈ take h l → y ∈ drop h l → R x y.
Proof.
  induction l as [|a l IH]; intros h x y Hs Hx Hy.
  - rewrite take_nil in Hx. by apply elem_of_nil in Hx.
  - apply StronglySorted_inv in Hs as [Hs Hall].
    destruct h as [|h]; simpl in *; [by apply elem_of_nil in Hx|].
    apply elem_of_cons in Hx as [->|Hx]; [|by eapply IH].
    apply (proj1 (List.Forall_forall _ _) Hall).
    apply list_elem_of_In. by eapply subseteq_drop.
Qed.

Lemma head_and_sample_spec {A} (h m : nat) rnd (bp : list A) :
  h ≤ m → m < length bp →
  let s := take h bp ++ take (m - length (take h bp)) (shuffle rnd (drop h bp)) in
  length s = m ∧ take h s = take h bp ∧ s ⊆+ bp.
Proof.
  intros Hhm Hm s. subst s.
  assert (length (take h bp) = h) as Hlen by (rewrite length_take; lia).
  split_and!.
  - rewrite length_app, Hlen, length_take, shuffle_length, length_drop. lia.
  - by rewrite take_app_length' by done.
  - transitivity (take h bp ++ drop h bp); [|by rewrite take_drop].
    apply submseteq_app; [done|].
    transitivity (shuffle rnd (drop h bp)); [apply submseteq_take|].
    by rewrite shuffle_perm.
Qed.

Lemma half_budget_le : MAX_TRACKS_COMPACT / 2 ≤ MAX_TRACKS_COMPACT.
Proof. apply Nat.Div0.div_le_upper_bound. lia. Qed.

Lemma sample_tracks_spec rnd bp :
  MAX_TRACKS_COMPACT < length bp →
  length (sample_tracks rnd bp) = MAX_TRACKS_COMPACT
  ∧ take (MAX_TRACKS_COMPACT / 2) (sample_tracks rnd bp) = take (MAX_TRACKS_COMPACT / 2) bp
  ∧ sample_tracks rnd bp ⊆+ bp.
Proof. intros H. exact (head_and_sample_spec _ _ rnd bp half_budget_le H). Qed.

(** Which branch [select_catalog] takes. *)
Lemma select_catalog_full rnd tracks :
  length tracks ≤ MAX_TRACKS_FULL →
  select_catalog rnd tracks = Ok (build_full_catalog tracks, FULL_DESC, tracks).
Proof.
  intros H. unfold select_catalog.
  by destruct (Nat.leb_spec (length tracks) MAX_TRACKS_FULL); [|lia].
Qed.

Lemma full_below_compact : MAX_TRACKS_FULL < MAX_TRACKS_COMPACT.
Proof. apply Nat.ltb_lt. by vm_compute. Qed.

Lemma select_catalog_compact rnd tracks :
  MAX_TRACKS_FULL < length tracks → length tracks ≤ MAX_TRACKS_COMPACT →
  select_catalog rnd tracks = Ok (build_compact_catalog tracks, COMPACT_DESC, tracks).
Proof.
  intros H1 H2. unfold select_catalog.
  destruct (Nat.leb_spec (length tracks) MAX_TRACKS_FULL); [lia|].
  by destruct (Nat.leb_spec (length tracks) MAX_TRACKS_COMPACT); [|lia].
Qed.

Lemma select_catalog_sampled rnd tracks :
  MAX_TRACKS_COMPACT < length tracks →
  select_catalog rnd tracks =
  rbind (sorted_by_plays tracks) (fun by_plays =>
    let used := sample_tracks rnd by_plays in
    Ok (build_compact_catalog used, COMPACT_DESC, used)).
Proof.
  intros H. pose proof full_below_compact. unfold select_catalog.
  destruct (Nat.leb_spec (length tracks) MAX_TRACKS_FULL); [lia|].
  by destruct (Nat.leb_spec (length tracks) MAX_TRACKS_COMPACT); [lia|].
Qed.

(** The tracks a catalog lists are tracks of the library. *)
Lemma select_catalog_used rnd tracks catalog desc used :
  select_catalog rnd tracks = Ok (catalog, desc, used) →
  used ⊆+ tracks ∧ (catalog = build_full_catalog used ∨ catalog = build_compact_catalog used).
Proof.
  unfold select_catalog.
  destruct (length tracks <=? MAX_TRACKS_FULL); [intros [= <- <- <-]; by split; [|left]|].
  destruct (length tracks <=? MAX_TRACKS_COMPACT) eqn:Hc;
    [intros [= <- <- <-]; by split; [|right]|].
  apply Nat.leb_gt in Hc.
  destruct (decide (Forall plays_readable tracks)) as [Hr|Hr].
  - destruct (sorted_by_plays_spec tracks Hr) as (bp & -> & Hperm & _).
    simpl. intros [= <- <- <-]. split; [|by right].
    rewrite <- Hperm. apply sample_tracks_spec.
    by rewrite (Permutation_length Hperm).
  - unfold sorted_by_plays. destruct (keyed_unreadable tracks Hr) as [s ->]. done.
Qed.

(** ** The library reader: identifiers *)

Example gapped_library_ids : map t_id gapped_library = [0; 2]%Z.
Proof. reflexivity. Qed.

Lemma run_applescript_ok prefix script w log :
  compliant w →
  ∃ out, run_applescript_with prefix script w log = (log ++ [script], Ok out).
Proof.
  intros Hw. unfold run_applescript_with. rewrite Hw. simpl. by eexists.
Qed.

Lemma run_applescript_any prefix script w log :
  ∃ r, run_applescript_with prefix script w log = (log ++ [script], r)
       ∧ ((∃ out, r = Ok out) ∨ ∃ msg, r = Raise (RuntimeError msg)).
Proof.
  unfold run_applescript_with. destruct (returncode (w log script) =? 0)%Z.
  - eexists. split; [done|]. left. by eexists.
  - eexists. split; [done|]. right. by eexists.
Qed.

Lemma fetch_property_outcome prefix prop w log :
  ∃ r, fetch_property_with prefix prop w log = (log ++ [fetch_script prop], r).
Proof.
  unfold fetch_property_with, bind, ret.
  destruct (run_applescript_any prefix (fetch_script prop) w log)
    as (r & -> & [[out ->]|[msg ->]]); by eexists.
Qed.

Lemma bind_Ok {A B} (m : M A) (k : A → M B) w log log' b :
  bind m k w log = (log', Ok b) →
  ∃ a log1, m w log = (log1, Ok a) ∧ k a w log1 = (log', Ok b).
Proof.
  unfold bind. destruct (m w log) as [log1 [a|e]]; [|done]. intros H. by exists a, log1.
Qed.

(** A library that was read is the loop's result on seven field sequences,
    and reading it took the seven queries. *)
Lemma get_library_tracks_result prefix w log log' ts :
  get_library_tracks_with prefix w log = (log', Ok ts) →
  (∃ names artists albums genres years ratings plays,
     ts = collect_tracks names artists albums genres years ratings plays)
  ∧ log' = log ++ map fetch_script
             [u "name"; u "artist"; u "album"; u "genre"; u "year"; u "rating";
              u "play count"].
Proof.
  unfold get_library_tracks_with. intros H.
  repeat (apply bind_Ok in H as (? & ? & Hf & H);
          match type of Hf with
          | fetch_property_with prefix ?p w ?l = _ =>
              destruct (fetch_property_outcome prefix p w l) as [? Hf'];
              rewrite Hf' in Hf; injection Hf as <- ->; clear Hf'
          end).
  unfold ret in H. injection H as <- <-. split; [by eexists _, _, _, _, _, _, _|].
  rewrite <- !app_assoc. reflexivity.
Qed.

Example gapped_bridge_library :
  Agent.get_library_tracks gapped_bridge []
  = (map fetch_script
       [u "name"; u "artist"; u "album"; u "genre"; u "year"; u "rating"; u "play count"],
     Ok [Track 0 (u "A") (u "X") [] [] [] [] []; Track 2 (u "B") (u "Z") [] [] [] [] []]).
Proof. vm_compute. reflexivity. Qed.

(** C1, as stated, fails: with a blank name in the middle the ids are the
    positions 0 and 2 of the names, not the running indices 0 and 1 of the
    tracks kept. *)
Lemma ids_not_running_index : ¬ ids_are_running_index gapped_library.
Proof.
  intros H.
  specialize (H 1 (Track 2 (u "B") [] [] [] [] [] []) eq_refl).
  discriminate H.
Qed.

Lemma running_index_of_seq ts n :
  map t_id ts = map Z.of_nat (seq 0 n) → ids_are_running_index ts.
Proof.
  intros Hmap k t Hk.
  assert ((t_id <$> ts) !! k = Some (t_id t)) as H1 by (by rewrite list_lookup_fmap, Hk).
  change (t_id <$> ts) with (map t_id ts) in H1. rewrite Hmap in H1.
  change (map Z.of_nat (seq 0 n)) with (Z.of_nat <$> seq 0 n) in H1.
  rewrite list_lookup_fmap in H1.
  destruct (seq 0 n !! k) as [j|] eqn:Hj; [|done].
  apply lookup_seq in Hj as [-> _]. simpl in H1. congruence.
Qed.

(** C1 (amended): the id of a track is the position of its name in the
    extracted name sequence (at least its running index); ids are strictly
    increasing, hence unique; they are the running indices when no name is
    blank; every track of the library, and so every track listed in a catalog,
    is found again under its id. *)
Theorem library_ids_are_name_positions
    (names artists albums genres years ratings plays : list str) :
  let ts := collect_tracks names artists albums genres years ratings plays in
  (∀ k t, ts !! k = Some t →
     ∃ j name, t_id t = Z.of_nat j ∧ k ≤ j ∧ names !! j = Some name
               ∧ t_title t = strip name ∧ t_title t ≠ [])
  ∧ StronglySorted Z.lt (map t_id ts)
  ∧ NoDup (map t_id ts)
  ∧ (Forall (λ name, strip name ≠ []) names → ids_are_running_index ts)
  ∧ (∀ t, t ∈ ts → id_to_track ts !! t_id t = Some t)
  ∧ (∀ rnd catalog desc used t,
       select_catalog rnd ts = Ok (catalog, desc, used) → t ∈ used →
       resolve [t_id t] ts = [t]).
Proof.
  intros ts.
  assert (StronglySorted Z.lt (map t_id ts)) as Hsorted by apply collect_from_sorted.
  assert (NoDup (map t_id ts)) as Hnd by by apply StronglySorted_lt_NoDup.
  split_and!; try done.
  - intros k t Hk. by apply collect_from_position in Hk.
  - intros Hall. eapply running_index_of_seq. by apply collect_from_contiguous.
  - intros t Ht. by apply id_to_track_member.
  - intros rnd catalog desc used t Hsel Ht.
    apply select_catalog_used in Hsel as [Hsub _].
    unfold resolve. simpl. rewrite id_to_track_member; [done | done |].
    eapply elem_of_submseteq; [exact Ht | exact Hsub].
Qed.

Lemma library_ids_are_name_positions_witness :
  let ts := gapped_library in
  StronglySorted Z.lt (map t_id ts)
  ∧ (∀ t, t ∈ ts → id_to_track ts !! t_id t = Some t)
  ∧ ids_are_running_index (collect_tracks [u "A"; u "B"] [] [] [] [] [] []).
Proof.
  pose proof (library_ids_are_name_positions gapped_names [] [] [] [] [] [])
    as (_ & Hs & _ & _ & Hl & _).
  pose proof (library_ids_are_name_positions [u "A"; u "B"] [] [] [] [] [] [])
    as (_ & _ & _ & Hr & _).
  split_and!; [exact Hs | exact Hl |].
  apply Hr. repeat constructor; by vm_compute.
Defined.

(** ** Play counts *)

(** C3, as stated, fails: a play count that is no number is not read as 0,
    [int] raises, and so does the sampling of a library that holds it. *)
Lemma play_key_abc_raises :
  play_key unreadable_track = Raise (IntValueError (u "abc"))
  ∧ play_key unreadable_track ≠ Ok 0%Z
  ∧ MAX_TRACKS_COMPACT < length unreadable_library
  ∧ ∀ rnd, select_catalog rnd unreadable_library = Raise (IntValueError (u "abc")).
Proof.
  split_and!.
  - reflexivity.
  - discriminate.
  - apply Nat.ltb_lt. by vm_compute.
  - intros rnd. by vm_compute.
Qed.

Lemma elem_of_dropwhile_keep {A} (p : A → bool) x l :
  x ∈ l → p x = false → x ∈ dropwhile p l.
Proof.
  intros Hin Hx. induction l as [|y l IH]; [done|]. simpl.
  destruct (p y) eqn:Hy; [|done].
  apply elem_of_cons in Hin as [->|Hin]; [congruence | by apply IH].
Qed.

Lemma elem_of_rev_2 {A} (x : A) l : x ∈ l → x ∈ rev l.
Proof. intros H. apply list_elem_of_In, in_rev. rewrite rev_involutive. by apply list_elem_of_In. Qed.

Lemma int_digits_refuses c r : ∀ acc prev,
  c ∈ r → is_digit c = false → c ≠ 95%N → int_digits acc prev r = None.
Proof.
  induction r as [|x r IH]; intros acc prev Hin Hd Hu; [by apply elem_of_nil in Hin|].
  simpl. apply elem_of_cons in Hin as [<-|Hin].
  - rewrite Hd. apply N.eqb_neq in Hu. by rewrite Hu.
  - destruct (is_digit x); [by apply IH|].
    destruct ((x =? 95)%N && prev); [by apply IH | done].
Qed.

Lemma int_body_refuses c r :
  c ∈ r → is_digit c = false → c ≠ 95%N → int_body r = None.
Proof.
  intros Hin Hd Hu. unfold int_body.
  destruct (MAX_STR_DIGITS <? length (List.filter is_digit r)); [done|].
  by apply (int_digits_refuses c).
Qed.

(** What [int] makes of a character that no literal holds. *)
Lemma int_char_not_numeral c :
  not_numeral_char c →
  is_c_space (int_char c) = false ∧ is_digit (int_char c) = false
  ∧ int_char c ≠ 43%N ∧ int_char c ≠ 45%N ∧ int_char c ≠ 95%N.
Proof.
  intros (Hs & Hp & Hm & Hu & Hd). unfold int_char.
  destruct (N.ltb_spec c 127) as [Hlt|Hge].
  - assert (is_digit c = false) as Hdig.
    { destruct (is_digit c) eqn:Hc; [|done]. exfalso.
      assert (decimal_of c = Some (c - 48)%N) as Hdec.
      { unfold decimal_of, DECIMAL_ZEROS. cbn [find].
        assert ((48 <=? c)%N && (c <? 48 + 10)%N = true) as ->; [|done].
        clear Hs. char_facts. rewrite N.ltb_lt. lia. }
      congruence. }
    split_and!; try done.
    unfold is_c_space. clear Hdig Hd. char_facts. lia.
  - rewrite Hs, Hd. split_and!; (reflexivity || discriminate).
Qed.

(** A string that holds such a character is no integer literal. *)
Lemma py_int_not_numeral s c : c ∈ s → not_numeral_char c → py_int s = None.
Proof.
  intros Hin Hc.
  destruct (int_char_not_numeral c Hc) as (Hsp & Hdig & Hp & Hm & Hu).
  unfold py_int.
  assert (int_char c
            ∈ rev (dropwhile is_c_space (rev (dropwhile is_c_space (map int_char s)))))
    as Hin'.
  { apply elem_of_rev_2, elem_of_dropwhile_keep; [|done].
    apply elem_of_rev_2, elem_of_dropwhile_keep; [|done].
    apply (list_elem_of_fmap_2 int_char). exact Hin. }
  destruct (rev _) as [|d r]; [done|].
  apply elem_of_cons in Hin'.
  destruct (N.eqb_spec d 45) as [->|_].
  { destruct Hin' as [?|Hr]; [done|]. by rewrite (int_body_refuses _ r Hr). }
  destruct (N.eqb_spec d 43) as [->|_].
  { destruct Hin' as [?|Hr]; [done|]. by rewrite (int_body_refuses _ r Hr). }
  rewrite (int_body_refuses (int_char c) (d :: r)); [done | | done | done].
  apply elem_of_cons. destruct Hin' as [->|Hr]; [by left | by right].
Qed.

(** The text [int] parses for a sign followed by ASCII digits. *)
Lemma int_text_signed sign s :
  sign = 43%N ∨ sign = 45%N → all_digits s →
  rev (dropwhile is_c_space (rev (dropwhile is_c_space (map int_char (sign :: s)))))
  = sign :: s.
Proof.
  intros Hsign Hd.
  assert (map int_char (sign :: s) = sign :: s) as ->.
  { cbn [map]. f_equal; [by destruct Hsign as [-> | ->]|].
    induction Hd as [|c s Hc _ IH]; [done|]. simpl. by rewrite int_char_digit, IH. }
  assert (Forall (λ c, is_c_space c = false) (sign :: s)) as Hs.
  { constructor; [by destruct Hsign as [-> | ->]|].
    eapply Forall_impl; [exact Hd|]. apply digit_not_c_space. }
  rewrite (dropwhile_none _ _ Hs).
  rewrite (dropwhile_none _ (rev (sign :: s))) by by apply Forall_rev.
  apply rev_involutive.
Qed.

Lemma int_body_str_of_N n :
  (n < 10 ^ N.of_nat MAX_STR_DIGITS)%N → int_body (str_of_N n) = Some n.
Proof.
  intros Hn. destruct (str_of_N_digits n) as [Hd Hne].
  destruct (int_digits_digits_go (N.size_nat n) n [] 0%N false (size_nat_bound n))
    as [p Hp].
  fold (str_of_N n) in Hp.
  unfold int_body. rewrite filter_all_digits by done.
  assert (length (str_of_N n) ≤ MAX_STR_DIGITS) as Hlen.
  { apply (digits_go_length _ n [] MAX_STR_DIGITS Hn). unfold MAX_STR_DIGITS. lia. }
  destruct (Nat.ltb_spec MAX_STR_DIGITS (length (str_of_N n))); [lia|].
  rewrite Hp. simpl. f_equal; lia.
Qed.

(** [int] reads a signed decimal numeral as its value. *)
Lemma py_int_signed n :
  (n < 10 ^ N.of_nat MAX_STR_DIGITS)%N →
  py_int (45%N :: str_of_N n) = Some (- Z.of_N n)%Z
  ∧ py_int (43%N :: str_of_N n) = Some (Z.of_N n).
Proof.
  intros Hn. destruct (str_of_N_digits n) as [Hd _].
  unfold py_int. split.
  - rewrite (int_text_signed 45%N _ (or_intror eq_refl) Hd).
    cbn [N.eqb Pos.eqb]. by rewrite (int_body_str_of_N n Hn).
  - rewrite (int_text_signed 43%N _ (or_introl eq_refl) Hd).
    cbn [N.eqb Pos.eqb]. by rewrite (int_body_str_of_N n Hn).
Qed.

(** Sampling an oversized library that holds a track whose play count [int]
    refuses raises the error of [int]. *)
Lemma sampling_fails_with rnd tracks t :
  MAX_TRACKS_COMPACT < length tracks → t ∈ tracks → ¬ plays_readable t →
  ∃ s, select_catalog rnd tracks = Raise (IntValueError s).
Proof.
  intros Hlen Hin Ht. rewrite (select_catalog_sampled rnd tracks Hlen).
  unfold sorted_by_plays.
  destruct (keyed_unreadable tracks) as [s Hs].
  { intros Hall. apply Ht. by apply (proj1 (Forall_forall _ _) Hall). }
  exists s. by rewrite Hs.
Qed.

(** C3 (amended): the play count used for the order is [int(plays or 0)]:
    0 for the empty string and, for a numeral, its value: [n] for the decimal
    numeral of [n] (within the digit limit of [int]), also after a sign. A
    string that holds a character no literal holds (a letter, a dot, a slash)
    is no integer literal; on a non-empty string that is no integer literal
    the key raises the ValueError of [int], and no catalog is sampled from an
    oversized library that holds such a track. *)
Theorem play_key_value (t : track) :
  (t_plays t = [] → play_key t = Ok 0%Z)
  ∧ (∀ n : N, (n < 10 ^ N.of_nat MAX_STR_DIGITS)%N →
       (t_plays t = str_of_N n → play_key t = Ok (Z.of_N n))
       ∧ (t_plays t = 43%N :: str_of_N n → play_key t = Ok (Z.of_N n))
       ∧ (t_plays t = 45%N :: str_of_N n → play_key t = Ok (- Z.of_N n)%Z))
  ∧ (∀ c, c ∈ t_plays t → not_numeral_char c → py_int (t_plays t) = None)
  ∧ (t_plays t ≠ [] → py_int (t_plays t) = None →
       play_key t = Raise (IntValueError (t_plays t))
       ∧ ∀ rnd tracks, MAX_TRACKS_COMPACT < length tracks → t ∈ tracks →
           ∃ s, select_catalog rnd tracks = Raise (IntValueError s)).
Proof.
  split_and!.
  - intros H. unfold play_key. by rewrite H.
  - intros n Hn. destruct (py_int_signed n Hn) as [Hminus Hplus]. split_and!.
    + intros H. unfold play_key. rewrite H.
      destruct (str_of_N_digits n) as [_ Hne].
      destruct (str_of_N n) as [|c s] eqn:Hs; [done|].
      rewrite <- Hs. by rewrite py_int_str_of_N.
    + intros H. unfold play_key. by rewrite H, Hplus.
    + intros H. unfold play_key. by rewrite H, Hminus.
  - intros c Hin Hc. by apply (py_int_not_numeral _ c).
  - intros Hne Hnone.
    assert (¬ plays_readable t) as Hbad.
    { intros [Hnil|[z Hz]]; [done | congruence]. }
    split; [by apply play_key_unreadable|].
    intros rnd tracks Hlen Hin. by apply (sampling_fails_with rnd tracks t).
Qed.

Lemma play_key_value_witness :
  play_key (Track 7 (u "Song") [] [] [] [] [] []) = Ok 0%Z
  ∧ play_key (Track 7 (u "Song") [] [] [] [] [] (u "42")) = Ok 42%Z
  ∧ py_int (u "n/a") = None
  ∧ play_key track_na = Raise (IntValueError (u "n/a"))
  ∧ ∃ s, select_catalog [] half_readable_library = Raise (IntValueError s).
Proof.
  assert (py_int (t_plays track_na) = None) as Hna.
  { destruct (play_key_value track_na) as (_ & _ & H & _).
    apply (H 47%N).
    - apply (bool_decide_unpack _). vm_compute. exact I.
    - unfold not_numeral_char. vm_compute. split_and!; (reflexivity || discriminate). }
  destruct (play_key_value track_na) as (_ & _ & _ & Hraise).
  destruct Hraise as [Hkey Hsample]; [discriminate | exact Hna |].
  split_and!.
  - destruct (play_key_value (Track 7 (u "Song") [] [] [] [] [] [])) as (H & _).
    apply H. reflexivity.
  - destruct (play_key_value (Track 7 (u "Song") [] [] [] [] [] (u "42")))
      as (_ & H & _).
    destruct (H 42%N) as (H' & _); [apply N.ltb_lt; vm_compute; reflexivity|].
    apply H'. reflexivity.
  - exact Hna.
  - exact Hkey.
  - apply Hsample.
    + apply Nat.ltb_lt. vm_compute. reflexivity.
    + apply (list_elem_of_lookup_2 _ 1). vm_compute. reflexivity.
Defined.

(** ** Sampling an oversized library *)

(** C2, as stated for every track sequence, fails: on an oversized library
    with one play count that is no number, no catalog is produced at all. *)
Lemma sampling_fails_on_unreadable_plays :
  MAX_TRACKS_COMPACT < length half_readable_library
  ∧ (∀ rnd, select_catalog rnd half_readable_library = Raise (IntValueError (u "n/a")))
  ∧ ¬ (∀ rnd, ∃ catalog desc used,
         select_catalog rnd half_readable_library = Ok (catalog, desc, used)
         ∧ length used = MAX_TRACKS_COMPACT).
Proof.
  assert (∀ rnd, select_catalog rnd half_readable_library
                 = Raise (IntValueError (u "n/a"))) as H.
  { intros rnd. by vm_compute. }
  split_and!; [apply Nat.ltb_lt; by vm_compute | exact H |].
  intros Hall. destruct (Hall []) as (c & d & used & Hsel & _).
  rewrite H in Hsel. discriminate.
Qed.

(** C2 (amended): for an oversized library whose play counts are all empty
    or integer literals, [sorted] yields a stable descending rearrangement
    [by_plays]; whatever the draws, the catalog lists exactly
    [MAX_TRACKS_COMPACT] tracks of the library, the first half of which is
    the head of [by_plays], and every track of that head has at least the
    play count of every track outside it. *)
Theorem sampled_catalog_keeps_head (tracks : list track) :
  MAX_TRACKS_COMPACT < length tracks →
  Forall plays_readable tracks →
  ∃ by_plays,
    sorted_by_plays tracks = Ok by_plays
    ∧ by_plays ≡ₚ tracks
    ∧ StronglySorted ge_plays by_plays
    ∧ (∀ k, filter (λ t, plays_of t = k) by_plays = filter (λ t, plays_of t = k) tracks)
    ∧ (∀ t t', t ∈ take (MAX_TRACKS_COMPACT / 2) by_plays →
               t' ∈ drop (MAX_TRACKS_COMPACT / 2) by_plays →
               (plays_of t' <= plays_of t)%Z)
    ∧ ∀ rnd, ∃ used,
        select_catalog rnd tracks = Ok (build_compact_catalog used, COMPACT_DESC, used)
        ∧ length used = MAX_TRACKS_COMPACT
        ∧ take (MAX_TRACKS_COMPACT / 2) used = take (MAX_TRACKS_COMPACT / 2) by_plays
        ∧ (∀ t, t ∈ take (MAX_TRACKS_COMPACT / 2) by_plays → t ∈ used)
        ∧ used ⊆+ tracks.
Proof.
  intros Hlen Hread.
  destruct (sorted_by_plays_spec tracks Hread) as (bp & Hsort & Hperm & Hs & Hstable).
  exists bp. split_and!; try done.
  - intros t t' Ht Ht'.
    exact (sorted_head_dominates ge_plays bp _ t t' Hs Ht Ht').
  - intros rnd. exists (sample_tracks rnd bp).
    assert (MAX_TRACKS_COMPACT < length bp) as Hbp
      by by rewrite (Permutation_length Hperm).
    destruct (sample_tracks_spec rnd bp Hbp) as (Hn & Hhead & Hsub).
    split_and!.
    + rewrite select_catalog_sampled by done. by rewrite Hsort.
    + done.
    + done.
    + intros t Ht. rewrite <- Hhead in Ht. by eapply subseteq_take.
    + by rewrite <- Hperm.
Qed.

Lemma readable_library_ok :
  MAX_TRACKS_COMPACT < length readable_library ∧ Forall plays_readable readable_library.
Proof.
  split; [apply Nat.ltb_lt; by vm_compute|].
  apply (bool_decide_unpack _). by vm_compute.
Qed.

Lemma sampled_catalog_keeps_head_witness :
  ∃ by_plays,
    sorted_by_plays readable_library = Ok by_plays
    ∧ ∀ rnd, ∃ used,
        select_catalog rnd readable_library
        = Ok (build_compact_catalog used, COMPACT_DESC, used)
        ∧ length used = MAX_TRACKS_COMPACT
        ∧ take (MAX_TRACKS_COMPACT / 2) used = take (MAX_TRACKS_COMPACT / 2) by_plays.
Proof.
  destruct (sampled_catalog_keeps_head readable_library) as (bp & H1 & _ & _ & _ & _ & H2).
  - apply Nat.ltb_lt. vm_compute. reflexivity.
  - apply (bool_decide_unpack _). vm_compute. exact I.
  - exists bp. split; [exact H1|]. intros rnd.
    destruct (H2 rnd) as (used & Ha & Hb & Hc & _). exists used.
    exact (conj Ha (conj Hb Hc)).
Defined.

Example readable_library_head :
  (λ t, (t_id t, t_plays t)) <$> take 3 (sample_tracks [] (default [] (
     match sorted_by_plays readable_library with Ok l => Some l | Raise _ => None end)))
  = [(1%Z, u "5"); (0%Z, u "3"); (2%Z, [])].
Proof. vm_compute. reflexivity. Qed.

(** ** Catalog text *)

























Example full_catalog_ex :
  build_full_catalog [Track 0 (u "A") (u "X") (u "L") (u "Rock") (u "1999") (u "5") (u "12");
                      Track 2 (u "B") (u "Y") [] [] [] [] []]
  = u "0|A|X|L|Rock|1999|" ++ STAR ++ u "5|" ++ PLAY ++ u "12" ++ [NL]
    ++ u "2|B|Y||||" ++ STAR ++ u "|" ++ PLAY.
Proof. reflexivity. Qed.

(** ** Materialisation *)

Lemma is_prefix_spec p : ∀ s, is_prefix p s = true ↔ ∃ r, s = p ++ r.
Proof.
  induction p as [|a p IH]; intros s; simpl.
  - split; [by exists s | done].
  - destruct s as [|b s]; [split; [done | by intros [? ?]]|].
    rewrite andb_true_iff, N.eqb_eq, IH. split.
    + intros [-> [r ->]]. by exists r.
    + intros [r [= -> ->]]. split; [done | by exists r].
Qed.

Lemma strip_prefix_app p r : strip_prefix p (p ++ r) = Some r.
Proof.
  unfold strip_prefix.
  rewrite (proj2 (is_prefix_spec p (p ++ r))) by by exists r.
  by rewrite drop_app_length.
Qed.

Lemma escape_cons c s : escape (c :: s) = escape_char c ++ escape s.
Proof.
  unfold escape, replace1, escape_char. simpl.
  rewrite flat_map_app. f_equal.
  destruct (N.eqb_spec c BACKSLASH) as [->|Hb]; [done|].
  simpl. rewrite app_nil_r. by destruct (c =? DQ)%N.
Qed.

Lemma read_literal_escape s : ∀ acc rest,
  read_literal acc (escape s ++ DQ :: rest) = Some (rev acc ++ s, rest).
Proof.
  induction s as [|c s IH]; intros acc rest.
  - simpl. by rewrite app_nil_r.
  - rewrite escape_cons. unfold escape_char.
    destruct (N.eqb_spec c BACKSLASH) as [->|Hb].
    + simpl. rewrite IH. simpl. by rewrite <- app_assoc.
    + destruct (N.eqb_spec c DQ) as [->|Hq].
      * simpl. rewrite IH. simpl. by rewrite <- app_assoc.
      * cbn [app read_literal].
        apply N.eqb_neq in Hb, Hq. rewrite Hb, Hq, IH. simpl. by rewrite <- app_assoc.
Qed.

Lemma batch_count_spec n :
  n ≤ batch_count n * BATCH ∧ (n ≠ 0 → (batch_count n - 1) * BATCH < n ∧ 0 < batch_count n).
Proof.
  unfold batch_count, BATCH.
  pose proof (Nat.div_mod (n + (50 - 1)) 50 ltac:(done)) as Hd.
  pose proof (Nat.mod_upper_bound (n + (50 - 1)) 50 ltac:(done)) as Hm.
  revert Hd Hm. generalize ((n + (50 - 1)) / 50) ((n + (50 - 1)) mod 50). intros. lia.
Qed.

Lemma chunk_at_length selected b :
  length (chunk_at selected b) = min BATCH (length selected - b * BATCH).
Proof. unfold chunk_at. by rewrite length_take, length_drop. Qed.

Lemma batch_loop_ok prefix safe_name selected w :
  compliant w → ∀ todo b log,
  batch_loop prefix safe_name selected todo b w log
  = (log ++ map (λ b, batch_script safe_name (chunk_at selected b)) (seq b todo), Ok tt).
Proof.
  intros Hw. induction todo as [|todo IH]; intros b log.
  - simpl. by rewrite app_nil_r.
  - cbn [batch_loop]. unfold bind.
    destruct (run_applescript_ok prefix
                (batch_script safe_name (chunk_at selected b)) w log Hw) as [out ->].
    rewrite IH. simpl. by rewrite <- app_assoc.
Qed.

Lemma batch_loop_any prefix safe_name selected w : ∀ todo b log,
  ∃ k r,
    batch_loop prefix safe_name selected todo b w log
    = (log ++ take k (map (λ b, batch_script safe_name (chunk_at selected b)) (seq b todo)), r)
    ∧ (r = Ok tt ∨ ∃ msg, r = Raise (RuntimeError msg)).
Proof.
  induction todo as [|todo IH]; intros b log.
  - exists 0, (Ok tt). simpl. rewrite app_nil_r. by split; [|left].
  - cbn [batch_loop]. unfold bind.
    destruct (run_applescript_any prefix
                (batch_script safe_name (chunk_at selected b)) w log)
      as (r & -> & [[out ->]|[msg ->]]).
    + destruct (IH (S b) (log ++ [batch_script safe_name (chunk_at selected b)]))
        as (k & r' & -> & Hr').
      exists (S k), r'. simpl. by rewrite <- app_assoc.
    + exists 1, (Raise (RuntimeError msg)). simpl. rewrite take_0.
      split; [done|]. right. by eexists.
Qed.

Lemma add_selected_nil prefix name w log : add_selected prefix name [] w log = (log, Ok 0).
Proof. reflexivity. Qed.

Lemma add_selected_ok prefix name selected w log :
  compliant w → selected ≠ [] →
  add_selected prefix name selected w log
  = (log ++ planned_scripts name selected, Ok (length selected)).
Proof.
  intros Hw Hne. destruct selected as [|t sel]; [done|].
  unfold add_selected, bind.
  destruct (run_applescript_ok prefix (create_script (escape name)) w log Hw) as [out ->].
  rewrite (batch_loop_ok _ _ _ _ Hw). unfold ret.
  unfold planned_scripts, batch_scripts. by rewrite <- app_assoc.
Qed.

(** Whatever the bridge does, the scripts issued are an initial part of the
    planned ones, and the outcome is the number selected or the bridge's
    error. *)
Lemma add_selected_any prefix name selected w log :
  ∃ k r,
    add_selected prefix name selected w log = (log ++ take k (planned_scripts name selected), r)
    ∧ (r = Ok (length selected) ∨ ∃ msg, r = Raise (RuntimeError msg)).
Proof.
  destruct selected as [|t sel].
  - exists 0, (Ok 0). rewrite add_selected_nil, take_0, app_nil_r. by split; [|left].
  - unfold add_selected, bind.
    destruct (run_applescript_any prefix (create_script (escape name)) w log)
      as (r & -> & [[out ->]|[msg ->]]).
    + destruct (batch_loop_any prefix (escape name) (t :: sel) w
                  (batch_count (length (t :: sel))) 0
                  (log ++ [create_script (escape name)]))
        as (k & r' & -> & [->|[msg ->]]).
      * exists (S k), (Ok (length (t :: sel))). unfold ret, planned_scripts, batch_scripts.
        simpl take. rewrite <- app_assoc. by split; [|left].
      * exists (S k), (Raise (RuntimeError msg)). unfold planned_scripts, batch_scripts.
        simpl take. rewrite <- app_assoc. split; [done|]. right. by eexists.
    + exists 1, (Raise (RuntimeError msg)). unfold planned_scripts. simpl take.
      rewrite take_0. split; [done|]. right. by eexists.
Qed.

(** The batches, put end to end, are the selection. *)
Lemma chunks_from selected : ∀ n b,
  concat (map (chunk_at selected) (seq b n)) = take (n * BATCH) (drop (b * BATCH) selected).
Proof.
  induction n as [|n IH]; intros b; [done|].
  cbn [seq map concat]. rewrite IH. unfold chunk_at.
  replace (S b * BATCH) with (b * BATCH + BATCH) by lia.
  rewrite <- drop_drop. rewrite take_take_drop. f_equal.
Qed.

Lemma batch_count_covers n : n ≤ batch_count n * BATCH.
Proof.
  unfold batch_count, BATCH.
  pose proof (Nat.div_mod (n + (50 - 1)) 50 ltac:(done)) as Hd.
  pose proof (Nat.mod_upper_bound (n + (50 - 1)) 50 ltac:(done)) as Hm.
  revert Hd Hm. generalize ((n + (50 - 1)) / 50) ((n + (50 - 1)) mod 50). intros. lia.
Qed.

Lemma chunks_cover selected :
  concat (map (chunk_at selected) (seq 0 (batch_count (length selected)))) = selected.
Proof.
  rewrite chunks_from. simpl drop. apply take_ge, batch_count_covers.
Qed.

Example batches_of_120 :
  map length (map (chunk_at (replicate 120 unreadable_track)) (seq 0 (batch_count 120)))
  = [50; 50; 20].
Proof. reflexivity. Qed.

(** *** Reading the scripts back *)

Lemma read_quoted_escape s rest :
  read_quoted (q (escape s) ++ rest) = Some (s, rest).
Proof.
  unfold q. rewrite <- !app_assoc. cbn [app read_quoted]. rewrite N.eqb_refl.
  apply (read_literal_escape s [] rest).
Qed.

Lemma create_script_form safe_name :
  create_script safe_name = CREATE_HEAD ++ q safe_name ++ CREATE_TAIL.
Proof.
  unfold create_script, CREATE_HEAD, CREATE_TAIL. rewrite <- !app_assoc. reflexivity.
Qed.

(** The creation script types the playlist name. *)
Lemma typed_name_create name : typed_name (create_script (escape name)) = Some name.
Proof.
  unfold typed_name. rewrite create_script_form, strip_prefix_app, read_quoted_escape.
  unfold str_eqb. by rewrite bool_decide_eq_true_2.
Qed.

Lemma add_track_lines_form safe_name t :
  add_track_lines safe_name t
  = ENTRY_HEAD ++ q (escape (t_title t)) ++ ENTRY_MID ++ q (escape (t_artist t))
    ++ ENTRY_TAIL ++ q safe_name.
Proof.
  unfold add_track_lines, ENTRY_HEAD, ENTRY_MID, ENTRY_TAIL. rewrite <- !app_assoc.
  reflexivity.
Qed.

Lemma read_entry_lines name t rest :
  read_entry (add_track_lines (escape name) t ++ rest) = Some (entry_of name t, rest).
Proof.
  unfold read_entry. rewrite add_track_lines_form, <- !app_assoc.
  rewrite strip_prefix_app, read_quoted_escape.
  rewrite strip_prefix_app, read_quoted_escape.
  rewrite strip_prefix_app, read_quoted_escape. reflexivity.
Qed.

Lemma add_track_lines_head safe_name t :
  ∃ r, add_track_lines safe_name t = NL :: r.
Proof. rewrite add_track_lines_form. unfold ENTRY_HEAD. by eexists. Qed.

Lemma read_entries_batch name : ∀ chunk fuel,
  chunk ≠ [] → length chunk ≤ fuel →
  read_entries fuel
    (join [NL] (map (add_track_lines (escape name)) chunk) ++ [NL] ++ BATCH_END)
  = Some (map (entry_of name) chunk).
Proof.
  induction chunk as [|t chunk IH]; intros fuel Hne Hlen; [done|].
  destruct fuel as [|fuel]; [simpl in Hlen; lia|].
  destruct chunk as [|t' chunk].
  - cbn [map join read_entries]. rewrite read_entry_lines.
    rewrite strip_prefix_app. unfold str_eqb. by rewrite bool_decide_eq_true_2.
  - change (join [NL] (map (add_track_lines (escape name)) (t :: t' :: chunk)))
      with (add_track_lines (escape name) t
            ++ [NL] ++ join [NL] (map (add_track_lines (escape name)) (t' :: chunk))).
    rewrite <- !app_assoc. cbn [read_entries]. rewrite read_entry_lines.
    rewrite strip_prefix_app.
    assert (str_eqb (join [NL] (map (add_track_lines (escape name)) (t' :: chunk))
                     ++ [NL] ++ BATCH_END) BATCH_END = false) as ->.
    { unfold str_eqb. apply bool_decide_eq_false_2.
      destruct (add_track_lines_head (escape name) t') as [r Hr].
      destruct chunk; cbn [map join]; rewrite Hr; discriminate. }
    rewrite IH; [done | done | simpl in *; lia].
Qed.

Lemma join_length_parts (parts : list str) :
  Forall (λ p, p ≠ []) parts → length parts ≤ length (join [NL] parts).
Proof.
  induction 1 as [|p parts Hp _ IH]; [done|].
  destruct parts as [|p' parts].
  - simpl. destruct p; [done | simpl; lia].
  - change (join [NL] (p :: p' :: parts)) with (p ++ [NL] ++ join [NL] (p' :: parts)).
    rewrite !length_app. simpl in *. lia.
Qed.

(** The requests read from the script of a batch are those of its tracks, in
    order: title, artist and playlist name of each. *)
Lemma script_entries_batch name chunk :
  chunk ≠ [] →
  script_entries (batch_script (escape name) chunk) = Some (map (entry_of name) chunk).
Proof.
  intros Hne. unfold script_entries.
  assert (batch_script (escape name) chunk
          = BATCH_HEAD ++ join [NL] (map (add_track_lines (escape name)) chunk)
                       ++ [NL] ++ BATCH_END) as ->.
  { unfold batch_script, BATCH_HEAD, BATCH_END. rewrite <- !app_assoc. reflexivity. }
  rewrite strip_prefix_app. apply read_entries_batch; [done|].
  rewrite length_app.
  pose proof (join_length_parts (map (add_track_lines (escape name)) chunk)) as Hj.
  rewrite length_map in Hj. etrans; [apply Hj | lia].
  apply Forall_forall. intros l [t [-> _]]%list_elem_of_fmap.
  destruct (add_track_lines_head (escape name) t) as [r ->]. discriminate.
Qed.

Lemma inserted_batches name (chunks : list (list track)) :
  Forall (λ chunk, chunk ≠ []) chunks →
  inserted (map (batch_script (escape name)) chunks)
  = Some (map (entry_of name) (concat chunks)).
Proof.
  induction 1 as [|chunk chunks Hne _ IH]; [done|].
  cbn [map inserted concat]. rewrite (script_entries_batch name chunk Hne), IH.
  by rewrite map_app.
Qed.

(** The requests of the batches of a selection are those of its tracks, in
    the order of the selection. *)
Lemma inserted_selection name (selected : list track) :
  inserted (batch_scripts (escape name) selected) = Some (map (entry_of name) selected).
Proof.
  unfold batch_scripts.
  rewrite <- (map_map (chunk_at selected) (batch_script (escape name))).
  rewrite inserted_batches; [by rewrite chunks_cover|].
  apply Forall_forall. intros chunk [b [-> Hb]]%list_elem_of_fmap.
  apply list_elem_of_In, in_seq in Hb as [_ Hb]. simpl in Hb.
  destruct (batch_count_spec (length selected)) as [_ Hlow].
  assert (length selected ≠ 0) as Hn.
  { intros Hz. rewrite Hz in Hb. unfold batch_count, BATCH in Hb. simpl in Hb. lia. }
  destruct (Hlow Hn) as [Hl _].
  intros Hnil. apply (f_equal length) in Hnil. rewrite chunk_at_length in Hnil.
  cbn [length] in Hnil. change BATCH with 50 in *.
  revert Hb Hl Hnil. generalize (batch_count (length selected)). intros k Hb Hl Hnil. nia.
Qed.

(** ** Resolution of the curated ids *)

Lemma foldl_insert_is_Some ts : ∀ (m : gmap Z track) (i : Z),
  is_Some (foldl (λ m t, <[t_id t := t]> m) m ts !! i) ↔ i ∈ map t_id ts ∨ is_Some (m !! i).
Proof.
  induction ts as [|a ts IH]; intros m i; simpl.
  - rewrite elem_of_nil. tauto.
  - rewrite IH, elem_of_cons, lookup_insert_is_Some. 
    destruct (decide (t_id a = i)); intuition congruence.
Qed.

Lemma id_to_track_is_Some ts i : is_Some (id_to_track ts !! i) ↔ i ∈ map t_id ts.
Proof.
  unfold id_to_track. rewrite foldl_insert_is_Some, lookup_empty.
  split; [intros [?|[? ?]]; done | by left].
Qed.

(** The resolved tracks are those of the ids that the library knows, in the
    order and with the multiplicity of the ids. *)
Lemma resolve_ids ids ts :
  map t_id (resolve ids ts) = filter (λ i, i ∈ map t_id ts) ids.
Proof.
  induction ids as [|i ids IH]; [done|].
  rewrite resolve_cons, filter_cons.
  destruct (id_to_track ts !! i) as [t|] eqn:Hi.
  - rewrite decide_True by (apply id_to_track_is_Some; by eexists).
    simpl. rewrite IH. f_equal. by eapply id_to_track_key.
  - rewrite decide_False; [done|].
    intros Hin. apply id_to_track_is_Some in Hin as [? ?]. congruence.
Qed.

Lemma resolve_count ids ts i t :
  id_to_track ts !! i = Some t →
  length (filter (λ x, x = t) (resolve ids ts)) = length (filter (λ j, j = i) ids).
Proof.
  intros Hi. induction ids as [|j ids IH]; [done|].
  rewrite resolve_cons, (filter_cons _ j).
  destruct (decide (j = i)) as [->|Hne].
  - rewrite Hi, filter_cons, decide_True by done. simpl. by rewrite IH.
  - destruct (id_to_track ts !! j) as [t'|] eqn:Hj; [|done].
    rewrite filter_cons, decide_False; [done|].
    intros ->. apply id_to_track_key in Hi, Hj. congruence.
Qed.

Lemma add_selected_count prefix name selected w log :
  compliant w → (add_selected prefix name selected w log).2 = Ok (length selected).
Proof.
  intros Hw. destruct selected as [|t sel]; [done|].
  by rewrite add_selected_ok.
Qed.

Lemma add_selected_outcome prefix name selected w log :
  (add_selected prefix name selected w log).2 = Ok (length selected)
  ∨ ∃ msg, (add_selected prefix name selected w log).2 = Raise (RuntimeError msg).
Proof.
  destruct (add_selected_any prefix name selected w log) as (k & r & -> & Hr). exact Hr.
Qed.

Lemma materialisers_count track_ids all_tracks w log rnd name randomise :
  compliant w →
  (UI.create_playlist rnd name track_ids all_tracks randomise w log).2
  = Ok (length (resolve track_ids all_tracks))
  ∧ (Agent.create_swinsian_playlist rnd name track_ids all_tracks w log).2
    = Ok (length (resolve track_ids all_tracks)).
Proof.
  intros Hw. unfold UI.create_playlist, Agent.create_swinsian_playlist.
  rewrite !add_selected_count by done. rewrite shuffle_length.
  by destruct randomise; rewrite ?shuffle_length.
Qed.

(** C7: when no curated id resolves, both materialisers return 0 and the log
    of issued scripts is unchanged: neither the creation script nor a batch
    is run. *)
Theorem empty_selection_issues_no_call
    (w : bridge) (log : list str) (rnd : list nat) (playlist_name : str)
    (track_ids : list Z) (all_tracks : list track) (randomise : bool) :
  resolve track_ids all_tracks = [] →
  UI.create_playlist rnd playlist_name track_ids all_tracks randomise w log = (log, Ok 0)
  ∧ Agent.create_swinsian_playlist rnd playlist_name track_ids all_tracks w log = (log, Ok 0).
Proof.
  intros H. unfold UI.create_playlist, Agent.create_swinsian_playlist.
  rewrite H. by destruct randomise.
Qed.

Lemma empty_selection_issues_no_call_witness :
  UI.create_playlist [1; 2] (u "Test") [9; 7]%Z lib3 true (failing_from 0) [] = ([], Ok 0)
  ∧ Agent.create_swinsian_playlist [1; 2] (u "Test") [9; 7]%Z lib3 (failing_from 0) []
    = ([], Ok 0).
Proof.
  apply (empty_selection_issues_no_call (failing_from 0) [] [1; 2] (u "Test") [9; 7]%Z lib3 true).
  vm_compute. reflexivity.
Defined.

(** C8: resolution keeps exactly the ids the library knows, in order; the
    materialisers return the number of resolved tracks, or fail because the
    bridge does, never because of an id; the creation script types the
    playlist name. On the example library, ids 2, 0, 9 resolve to the tracks 2
    and 0, the count is 2, the creation script types the name Test, and the
    batch script asks for C by Z and A by X to be added to the playlist
    Test. *)
Theorem unmatched_ids_are_dropped (track_ids : list Z) (all_tracks : list track) :
  map t_id (resolve track_ids all_tracks) = filter (λ i, i ∈ map t_id all_tracks) track_ids
  ∧ (∀ t, t ∈ resolve track_ids all_tracks → t ∈ all_tracks)
  ∧ (∀ w log rnd name randomise,
       let out := UI.create_playlist rnd name track_ids all_tracks randomise w log in
       out.2 = Ok (length (resolve track_ids all_tracks))
       ∨ ∃ msg, out.2 = Raise (RuntimeError msg))
  ∧ (∀ w log rnd name,
       let out := Agent.create_swinsian_playlist rnd name track_ids all_tracks w log in
       out.2 = Ok (length (resolve track_ids all_tracks))
       ∨ ∃ msg, out.2 = Raise (RuntimeError msg))
  ∧ (∀ w log rnd name randomise, compliant w →
       (UI.create_playlist rnd name track_ids all_tracks randomise w log).2
       = Ok (length (resolve track_ids all_tracks))
       ∧ (Agent.create_swinsian_playlist rnd name track_ids all_tracks w log).2
         = Ok (length (resolve track_ids all_tracks)))
  ∧ (∀ w log rnd name randomise, compliant w → resolve track_ids all_tracks ≠ [] →
       ∃ script scripts script' scripts',
         (UI.create_playlist rnd name track_ids all_tracks randomise w log).1
         = log ++ script :: scripts
         ∧ typed_name script = Some name
         ∧ (Agent.create_swinsian_playlist rnd name track_ids all_tracks w log).1
           = log ++ script' :: scripts'
         ∧ typed_name script' = Some name)
  ∧ resolve [2; 0; 9]%Z lib3 = [track_C; track_A]
  ∧ UI.create_playlist [] (u "Test") [2; 0; 9]%Z lib3 false ok_bridge []
    = ([create_script (u "Test"); batch_script (u "Test") [track_C; track_A]], Ok 2)
  ∧ typed_name (create_script (u "Test")) = Some (u "Test")
  ∧ script_entries (batch_script (u "Test") [track_C; track_A])
    = Some [(u "C", u "Z", u "Test"); (u "A", u "X", u "Test")].
Proof.
  split_and!.
  - apply resolve_ids.
  - intros t Ht. by apply resolve_elem in Ht as [? _].
  - intros w log rnd name randomise. simpl. unfold UI.create_playlist.
    destruct randomise.
    + rewrite <- (shuffle_length rnd (resolve track_ids all_tracks)).
      apply add_selected_outcome.
    + apply add_selected_outcome.
  - intros w log rnd name. simpl. unfold Agent.create_swinsian_playlist.
    rewrite <- (shuffle_length rnd (resolve track_ids all_tracks)).
    apply add_selected_outcome.
  - intros w log rnd name randomise Hw. by apply materialisers_count.
  - intros w log rnd name randomise Hw Hne.
    assert (shuffle rnd (resolve track_ids all_tracks) ≠ []) as Hsh.
    { intros Hnil. apply (f_equal length) in Hnil. rewrite shuffle_length in Hnil.
      by destruct (resolve track_ids all_tracks). }
    unfold UI.create_playlist, Agent.create_swinsian_playlist.
    eexists _, _, _, _. split_and!.
    + rewrite add_selected_ok; [reflexivity | done | by destruct randomise].
    + apply typed_name_create.
    + rewrite add_selected_ok; [reflexivity | done | done].
    + apply typed_name_create.
  - vm_compute. reflexivity.
  - vm_compute. reflexivity.
  - apply (typed_name_create (u "Test")).
  - apply (script_entries_batch (u "Test") [track_C; track_A]). discriminate.
Qed.

Lemma ok_bridge_compliant : compliant ok_bridge.
Proof. intros ??. reflexivity. Qed.

Lemma unmatched_ids_are_dropped_witness :
  (Agent.create_swinsian_playlist [1; 0] (u "Test") [2; 0; 9]%Z lib3 ok_bridge []).2 = Ok 2.
Proof.
  destruct (unmatched_ids_are_dropped [2; 0; 9]%Z lib3) as (_ & _ & _ & _ & H & _).
  destruct (H ok_bridge [] [1; 0] (u "Test") true ok_bridge_compliant) as [_ Ha].
  exact Ha.
Defined.

(** C9, as stated, fails for the command line: its materialiser has no flag
    and shuffles all the same. With the draw 0 the tracks resolved as C, A are
    inserted as A, C. *)
Lemma agent_shuffles_without_flag :
  resolve [2; 0]%Z lib3 = [track_C; track_A]
  ∧ Agent.create_swinsian_playlist [0] (u "Test") [2; 0]%Z lib3 ok_bridge []
    = ([create_script (u "Test"); batch_script (u "Test") [track_A; track_C]], Ok 2)
  ∧ inserted [batch_script (u "Test") [track_A; track_C]]
    = Some [(u "A", u "X", u "Test"); (u "C", u "Z", u "Test")]
  ∧ ¬ (∀ rnd name track_ids all_tracks,
         resolve track_ids all_tracks ≠ [] →
         ∃ script scripts n,
           Agent.create_swinsian_playlist rnd name track_ids all_tracks ok_bridge []
           = (script :: scripts, Ok n)
           ∧ inserted scripts
             = Some (map (entry_of name) (resolve track_ids all_tracks))).
Proof.
  assert (Agent.create_swinsian_playlist [0] (u "Test") [2; 0]%Z lib3 ok_bridge []
          = ([create_script (u "Test"); batch_script (u "Test") [track_A; track_C]], Ok 2))
    as Hrun by (vm_compute; reflexivity).
  assert (inserted [batch_script (u "Test") [track_A; track_C]]
          = Some [(u "A", u "X", u "Test"); (u "C", u "Z", u "Test")]) as Hins.
  { apply (inserted_batches (u "Test") [[track_A; track_C]]).
    constructor; [discriminate | constructor]. }
  split_and!; [vm_compute; reflexivity | exact Hrun | exact Hins |].
  intros Hall.
  destruct (Hall [0] (u "Test") [2; 0]%Z lib3) as (script & scripts & n & Heq & Horder).
  { vm_compute. discriminate. }
  rewrite Hrun in Heq. injection Heq as <- <- _.
  rewrite Hins in Horder. vm_compute in Horder. discriminate.
Qed.

(** C9 (amended): the GUI materialiser shuffles the resolved sequence exactly
    when [randomise] is set. With the flag unset, whatever the draws, the
    tracks are requested from the player in the order of the resolved
    sequence, whose ids are the curated ids that resolved, in their order;
    with the flag set they are requested in the order of the shuffled
    sequence, a rearrangement of the resolved one. The command line
    materialiser has no flag and does what the GUI does with the flag set. *)
Theorem insertion_order_follows_flag
    (w : bridge) (log : list str) (rnd : list nat) (playlist_name : str)
    (track_ids : list Z) (all_tracks : list track) :
  compliant w →
  resolve track_ids all_tracks ≠ [] →
  let selected := resolve track_ids all_tracks in
  let shuffled := shuffle rnd selected in
  (UI.create_playlist rnd playlist_name track_ids all_tracks false w log
   = (log ++ create_script (escape playlist_name)
          :: batch_scripts (escape playlist_name) selected, Ok (length selected))
   ∧ inserted (batch_scripts (escape playlist_name) selected)
     = Some (map (entry_of playlist_name) selected)
   ∧ map t_id selected = filter (λ i, i ∈ map t_id all_tracks) track_ids)
  ∧ (UI.create_playlist rnd playlist_name track_ids all_tracks true w log
     = (log ++ create_script (escape playlist_name)
            :: batch_scripts (escape playlist_name) shuffled, Ok (length selected))
     ∧ inserted (batch_scripts (escape playlist_name) shuffled)
       = Some (map (entry_of playlist_name) shuffled)
     ∧ shuffled ≡ₚ selected)
  ∧ Agent.create_swinsian_playlist rnd playlist_name track_ids all_tracks w log
    = UI.create_playlist rnd playlist_name track_ids all_tracks true w log
  ∧ shuffle [0] [track_C; track_A] = [track_A; track_C].
Proof.
  intros Hw Hne selected shuffled.
  assert (shuffled ≠ []) as Hsh.
  { intros Hnil. apply (f_equal length) in Hnil. unfold shuffled in Hnil.
    rewrite shuffle_length in Hnil. apply Hne, length_zero_iff_nil. exact Hnil. }
  unfold UI.create_playlist, Agent.create_swinsian_playlist.
  fold selected. fold shuffled. split_and!.
  - by rewrite add_selected_ok.
  - apply inserted_selection.
  - apply resolve_ids.
  - rewrite add_selected_ok by done. unfold shuffled. by rewrite shuffle_length.
  - apply inserted_selection.
  - apply shuffle_perm.
  - by rewrite !add_selected_ok.
  - reflexivity.
Qed.

Lemma insertion_order_follows_flag_witness :
  UI.create_playlist [0] (u "Test") [2; 0; 9]%Z lib3 false ok_bridge []
  = ([create_script (u "Test"); batch_script (u "Test") [track_C; track_A]], Ok 2)
  ∧ UI.create_playlist [0] (u "Test") [2; 0; 9]%Z lib3 true ok_bridge []
    = ([create_script (u "Test"); batch_script (u "Test") [track_A; track_C]], Ok 2)
  ∧ inserted (batch_scripts (u "Test") [track_C; track_A])
    = Some [(u "C", u "Z", u "Test"); (u "A", u "X", u "Test")].
Proof.
  destruct (insertion_order_follows_flag ok_bridge [] [0] (u "Test") [2; 0; 9]%Z lib3
              ok_bridge_compliant) as ((H1 & H2 & _) & (H3 & _) & _).
  { vm_compute. discriminate. }
  split_and!.
  - rewrite H1. vm_compute. reflexivity.
  - rewrite H3. vm_compute. reflexivity.
  - exact H2.
Defined.

(** The command line materialiser has no flag: it always shuffles. *)
Lemma agent_always_shuffles w log rnd name ids tracks :
  compliant w → shuffle rnd (resolve ids tracks) ≠ [] →
  Agent.create_swinsian_playlist rnd name ids tracks w log
  = (log ++ planned_scripts name (shuffle rnd (resolve ids tracks)),
     Ok (length (resolve ids tracks))).
Proof.
  intros Hw Hne. unfold Agent.create_swinsian_playlist.
  rewrite add_selected_ok by done. by rewrite shuffle_length.
Qed.

(** C10: a valid id that occurs k times among the curated ids has its track
    resolved k times; the resolved sequence has one entry per occurrence of a
    known id, and its length is the count returned, which can exceed the
    number of records referenced: three times id 0 gives a count of 3. *)
Theorem duplicate_ids_are_kept (track_ids : list Z) (all_tracks : list track) :
  (∀ i t, id_to_track all_tracks !! i = Some t →
     length (filter (λ x, x = t) (resolve track_ids all_tracks))
     = length (filter (λ j, j = i) track_ids))
  ∧ length (resolve track_ids all_tracks)
    = length (filter (λ i, i ∈ map t_id all_tracks) track_ids)
  ∧ (∀ w log rnd name randomise, compliant w →
       (UI.create_playlist rnd name track_ids all_tracks randomise w log).2
       = Ok (length (resolve track_ids all_tracks))
       ∧ (Agent.create_swinsian_playlist rnd name track_ids all_tracks w log).2
         = Ok (length (resolve track_ids all_tracks)))
  ∧ resolve [0; 0; 0]%Z lib3 = [track_A; track_A; track_A]
  ∧ (UI.create_playlist [] (u "Test") [0; 0; 0]%Z lib3 false ok_bridge []).2 = Ok 3.
Proof.
  split_and!.
  - intros i t. apply resolve_count.
  - rewrite <- resolve_ids. by rewrite length_map.
  - intros w log rnd name randomise Hw. by apply materialisers_count.
  - vm_compute. reflexivity.
  - vm_compute. reflexivity.
Qed.

Lemma duplicate_ids_are_kept_witness :
  length (filter (λ x, x = track_A) (resolve [0; 2; 0; 9; 0]%Z lib3)) = 3.
Proof.
  destruct (duplicate_ids_are_kept [0; 2; 0; 9; 0]%Z lib3) as (H & _).
  rewrite (H 0%Z track_A); [reflexivity|]. vm_compute. reflexivity.
Defined.

(** ** Fences and brace spans *)

Lemma strip_prefix_Some p s r : strip_prefix p s = Some r → s = p ++ r.
Proof.
  unfold strip_prefix. destruct (is_prefix p s) eqn:Hp; [|done].
  apply is_prefix_spec in Hp as [r' ->]. rewrite drop_app_length. congruence.
Qed.

Lemma strip_prefix_None_head a p b s : a ≠ b → strip_prefix (a :: p) (b :: s) = None.
Proof.
  intros Hne. unfold strip_prefix. simpl.
  by destruct (N.eqb_spec a b).
Qed.
















(** ** Parsing the reply *)

Lemma json_loads_raise s e : json_loads s = Raise e → e = JSONDecodeError.
Proof.
  unfold json_loads. destruct (parse_value _ _) as [[v r]|]; [|congruence].
  destruct (skip_ws r); congruence.
Qed.









Lemma dropwhile_cons_inv {A} (p : A → bool) l x r :
  dropwhile p l = x :: r → p x = false ∧ ∃ k, l = k ++ x :: r.
Proof.
  induction l as [|y l IH]; simpl; [done|].
  destruct (p y) eqn:Hy.
  - intros [Hx [k ->]]%IH. split; [done|]. by exists (y :: k).
  - intros [= -> ->]. split; [done|]. by exists [].
Qed.




Example example_object_loads : json_loads example_object = Ok (JDict example_pairs).
Proof. vm_compute. reflexivity. Qed.

Example empty_object_defaults :
  Agent.parse_reply (u "{}") = Ok (JString (u "AI Playlist"), JList [], JString []).
Proof. vm_compute. reflexivity. Qed.


Lemma parse_reply_Ok msg reply c :
  parse_reply_with msg reply = Ok c → ∃ kvs, c = curation_of_pairs kvs.
Proof.
  unfold parse_reply_with. destruct (load_reply msg (unfence reply)) as [d|e]; [|done].
  destruct d; simpl; try done. intros [= <-]. by eexists.
Qed.










(** ** The fuel of the decoder

    [json_loads] runs [parse_value] with fuel [2 * length s + 2]. Whatever a
    larger fuel parses, this fuel parses: the fuel never cuts a parse short. *)

Lemma skip_ws_length r : length (skip_ws r) ≤ length r.
Proof.
  unfold skip_ws. destruct (dropwhile_suffix is_json_ws r) as [k Hk].
  rewrite Hk at 2. rewrite length_app. lia.
Qed.

Lemma span_app {A} (p : A → bool) l : ∀ a b, span p l = (a, b) → l = a ++ b.
Proof.
  induction l as [|x l IH]; simpl; intros a b; [by intros [= <- <-]|].
  destruct (p x); [|by intros [= <- <-]].
  destruct (span p l) as [a' b']. intros [= <- <-]. simpl. f_equal. by apply IH.
Qed.

Lemma span_length {A} (p : A → bool) l a b : span p l = (a, b) → length b ≤ length l.
Proof. intros ->%span_app. rewrite length_app. lia. Qed.

Lemma scan_string_cons acc c r :
  scan_string acc (c :: r) =
  if (c =? 34)%N then Some (rev acc, r)
  else if (c =? 92)%N then
    match r with
    | [] => None
    | e :: r1 =>
        if (e =? 117)%N then
          match r1 with
          | a :: b :: c' :: d :: r2 =>
              match hex4 a b c' d with
              | None => None
              | Some hi =>
                  match r2 with
                  | b1 :: b2 :: e' :: f :: g :: h :: r3 =>
                      match low_surrogate_after hi r2 with
                      | None => None
                      | Some (Some (joined, _)) => scan_string (joined :: acc) r3
                      | Some None => scan_string (hi :: acc) r2
                      end
                  | _ => scan_string (hi :: acc) r2
                  end
              end
          | _ => None
          end
        else
          match simple_escape e with
          | Some ch => scan_string (ch :: acc) r1
          | None => None
          end
    end
  else if (c <? 32)%N then None
  else scan_string (c :: acc) r.
Proof. reflexivity. Qed.

Lemma scan_string_shorter n : ∀ s acc t r,
  length s ≤ n → scan_string acc s = Some (t, r) → length r < length s.
Proof.
  induction n as [|n IH]; intros s acc t r Hn H.
  - destruct s; [done | simpl in Hn; lia].
  - destruct s as [|c s0]; [done|]. rewrite scan_string_cons in H.
    cbn [length] in Hn. split_match H;
      first [ apply IH in H; cbn [length] in *; lia
            | injection H as <- <-; cbn [length]; lia ].
Qed.

Lemma scan_int_part_shorter s ds r : scan_int_part s = Some (ds, r) → length r < length s.
Proof.
  unfold scan_int_part. intros H. destruct s as [|c s0]; [done|].
  destruct (c =? 48)%N; [injection H as <- <-; simpl; lia|].
  destruct (is_digit c); [|done].
  destruct (span is_digit s0) as [a b] eqn:Hs. injection H as <- <-.
  apply span_length in Hs. simpl. lia.
Qed.

Lemma scan_frac_length s fr r : scan_frac s = (fr, r) → length r ≤ length s.
Proof.
  unfold scan_frac. intros H. destruct s as [|c s0]; [by injection H as <- <-|].
  destruct (c =? 46)%N; [|by injection H as <- <-].
  destruct (span is_digit s0) as [a b] eqn:Hs. apply span_length in Hs.
  destruct a; injection H as <- <-; simpl; lia.
Qed.

Lemma scan_exp_length s ex r : scan_exp s = (ex, r) → length r ≤ length s.
Proof.
  unfold scan_exp. intros H. destruct s as [|e s0]; [by injection H as <- <-|].
  destruct ((e =? 101) || (e =? 69))%N; [|by injection H as <- <-].
  destruct s0 as [|sg r1].
  - simpl in H. by injection H as <- <-.
  - destruct ((sg =? 43) || (sg =? 45))%N.
    + destruct (span is_digit r1) as [a b] eqn:Hs. apply span_length in Hs.
      destruct a; injection H as <- <-; simpl; lia.
    + destruct (span is_digit (sg :: r1)) as [a b] eqn:Hs. apply span_length in Hs.
      destruct a; injection H as <- <-; simpl in *; lia.
Qed.

Lemma scan_number_shorter s v r : scan_number s = Some (v, r) → length r < length s.
Proof.
  unfold scan_number. intros H.
  assert (∃ neg s1, match s with
                    | c :: r => if (c =? 45)%N then (true, r) else (false, s)
                    | [] => (false, s)
                    end = (neg, s1) ∧ length s1 ≤ length s) as (neg & s1 & Heq & Hlen).
  { destruct s as [|c s0]; [by exists false, []|].
    destruct (c =? 45)%N; eexists _, _; (split; [done|]); simpl; lia. }
  rewrite Heq in H.
  destruct (scan_int_part s1) as [[ds r0]|] eqn:Hi; [|done].
  apply scan_int_part_shorter in Hi.
  destruct (scan_frac r0) as [fr r1] eqn:Hf. apply scan_frac_length in Hf.
  destruct (scan_exp r1) as [ex r2] eqn:He. apply scan_exp_length in He.
  destruct fr, ex; injection H as <- <-; lia.
Qed.

Lemma strip_prefix_shorter p s r :
  p ≠ [] → strip_prefix p s = Some r → length r < length s.
Proof.
  intros Hp ->%strip_prefix_Some. rewrite length_app.
  destruct p; [done | simpl; lia].
Qed.

Lemma scan_constant_shorter s v r : scan_constant s = Some (v, r) → length r < length s.
Proof.
  unfold scan_constant. intros H.
  repeat (match type of H with
          | context [match strip_prefix ?p s with _ => _ end] =>
              destruct (strip_prefix p s) eqn:?;
              [injection H as <- <-;
               eapply strip_prefix_shorter; [|eassumption]; by vm_compute|]
          end).
  by eapply scan_number_shorter.
Qed.

Lemma parse_value_S f s :
  parse_value (S f) s =
  match s with
  | [] => None
  | c :: r =>
      if (c =? 34)%N then
        match scan_string [] r with
        | Some (txt, r') => Some (JString txt, r')
        | None => None
        end
      else if (c =? LBRACE)%N then
        match skip_ws r with
        | [] => None
        | c' :: r' =>
            if (c' =? RBRACE)%N then Some (JDict [], r')
            else parse_members f [] (c' :: r')
        end
      else if (c =? 91)%N then
        match skip_ws r with
        | [] => None
        | c' :: r' =>
            if (c' =? 93)%N then Some (JList [], r')
            else parse_elems f [] (c' :: r')
        end
      else scan_constant s
  end.
Proof. reflexivity. Qed.

Lemma parse_elems_S f acc s :
  parse_elems (S f) acc s =
  match parse_value f s with
  | None => None
  | Some (v, r) =>
      match skip_ws r with
      | [] => None
      | c :: r' =>
          if (c =? 93)%N then Some (JList (rev (v :: acc)), r')
          else if (c =? 44)%N then parse_elems f (v :: acc) (skip_ws r')
          else None
      end
  end.
Proof. reflexivity. Qed.

Lemma parse_members_S f acc s :
  parse_members (S f) acc s =
  match s with
  | [] => None
  | c :: r =>
      if (c =? 34)%N then
        match scan_string [] r with
        | None => None
        | Some (key, r1) =>
            match skip_ws r1 with
            | [] => None
            | c1 :: r2 =>
                if (c1 =? 58)%N then
                  match parse_value f (skip_ws r2) with
                  | None => None
                  | Some (v, r3) =>
                      match skip_ws r3 with
                      | [] => None
                      | c3 :: r4 =>
                          if (c3 =? RBRACE)%N
                          then Some (JDict (rev ((key, v) :: acc)), r4)
                          else if (c3 =? 44)%N
                          then parse_members f ((key, v) :: acc) (skip_ws r4)
                          else None
                      end
                  end
                else None
            end
        end
      else None
  end.
Proof. reflexivity. Qed.

Section Fuel.

(** A parse consumes input, and succeeds again with any fuel from twice the
    number of characters consumed. *)
Let value_ok (f : nat) : Prop :=
  ∀ s v r, parse_value f s = Some (v, r) →
    length r < length s
    ∧ ∀ f', 2 * (length s - length r) - 1 ≤ f' → parse_value f' s = Some (v, r).

Let elems_ok (f : nat) : Prop :=
  ∀ acc s v r, parse_elems f acc s = Some (v, r) →
    length r < length s
    ∧ ∀ f', 2 * (length s - length r) ≤ f' → parse_elems f' acc s = Some (v, r).

Let members_ok (f : nat) : Prop :=
  ∀ acc s v r, parse_members f acc s = Some (v, r) →
    length r < length s
    ∧ ∀ f', 2 * (length s - length r) ≤ f' → parse_members f' acc s = Some (v, r).

Lemma value_ok_step f : elems_ok f → members_ok f → value_ok (S f).
Proof.
  intros He Hm s v r H. rewrite parse_value_S in H.
  destruct s as [|c s0]; [done|].
  destruct (c =? 34)%N eqn:E1.
  { destruct (scan_string [] s0) as [[txt r']|] eqn:Hs; [|done]. injection H as <- <-.
    pose proof (scan_string_shorter _ _ _ _ _ (le_n _) Hs). cbn [length].
    split; [lia|]. intros [|f'] Hf; [lia|]. by rewrite parse_value_S, E1, Hs. }
  destruct (c =? LBRACE)%N eqn:E2.
  { pose proof (skip_ws_length s0) as Hw.
    destruct (skip_ws s0) as [|c' r'] eqn:Hs; [done|]. cbn [length] in *.
    destruct (c' =? RBRACE)%N eqn:E3.
    - injection H as <- <-. split; [lia|]. intros [|f'] Hf; [lia|].
      by rewrite parse_value_S, E1, E2, Hs, E3.
    - apply Hm in H as [Hlen Hfuel]. cbn [length] in *. split; [lia|].
      intros [|f'] Hf; [lia|]. rewrite parse_value_S, E1, E2, Hs, E3.
      apply Hfuel. lia. }
  destruct (c =? 91)%N eqn:E3.
  { pose proof (skip_ws_length s0) as Hw.
    destruct (skip_ws s0) as [|c' r'] eqn:Hs; [done|]. cbn [length] in *.
    destruct (c' =? 93)%N eqn:E4.
    - injection H as <- <-. split; [lia|]. intros [|f'] Hf; [lia|].
      by rewrite parse_value_S, E1, E2, E3, Hs, E4.
    - apply He in H as [Hlen Hfuel]. cbn [length] in *. split; [lia|].
      intros [|f'] Hf; [lia|]. rewrite parse_value_S, E1, E2, E3, Hs, E4.
      apply Hfuel. lia. }
  pose proof (scan_constant_shorter _ _ _ H) as Hlen. split; [done|].
  intros [|f'] Hf; [lia|]. by rewrite parse_value_S, E1, E2, E3.
Qed.

Lemma elems_ok_step f : value_ok f → elems_ok f → elems_ok (S f).
Proof.
  intros Hv He acc s v r H. rewrite parse_elems_S in H.
  destruct (parse_value f s) as [[v1 r1]|] eqn:Hp; [|done].
  apply Hv in Hp as [Hlen1 Hfuel1].
  pose proof (skip_ws_length r1) as Hw.
  destruct (skip_ws r1) as [|c r'] eqn:Hs; [done|]. cbn [length] in *.
  destruct (c =? 93)%N eqn:E1.
  { injection H as <- <-. split; [lia|]. intros [|f'] Hf; [lia|].
    rewrite parse_elems_S, Hfuel1 by lia. by rewrite Hs, E1. }
  destruct (c =? 44)%N eqn:E2; [|done].
  pose proof (skip_ws_length r') as Hw'.
  apply He in H as [Hlen Hfuel]. split; [lia|].
  intros [|f'] Hf; [lia|].
  rewrite parse_elems_S, Hfuel1 by lia. rewrite Hs, E1, E2. apply Hfuel. lia.
Qed.

Lemma members_ok_step f : value_ok f → members_ok f → members_ok (S f).
Proof.
  intros Hv Hm acc s v r H. rewrite parse_members_S in H.
  destruct s as [|c s0]; [done|].
  destruct (c =? 34)%N eqn:E1; [|done].
  destruct (scan_string [] s0) as [[key r1]|] eqn:Hk; [|done].
  pose proof (scan_string_shorter _ _ _ _ _ (le_n _) Hk) as Hlenk.
  pose proof (skip_ws_length r1) as Hw1.
  destruct (skip_ws r1) as [|c1 r2] eqn:Hs1; [done|]. cbn [length] in *.
  destruct (c1 =? 58)%N eqn:E2; [|done].
  pose proof (skip_ws_length r2) as Hw2.
  destruct (parse_value f (skip_ws r2)) as [[v1 r3]|] eqn:Hp; [|done].
  apply Hv in Hp as [Hlen1 Hfuel1].
  pose proof (skip_ws_length r3) as Hw3.
  destruct (skip_ws r3) as [|c3 r4] eqn:Hs3; [done|]. cbn [length] in *.
  destruct (c3 =? RBRACE)%N eqn:E3.
  { injection H as <- <-. split; [lia|]. intros [|f'] Hf; [lia|].
    rewrite parse_members_S, E1, Hk, Hs1, E2, Hfuel1 by lia. by rewrite Hs3, E3. }
  destruct (c3 =? 44)%N eqn:E4; [|done].
  pose proof (skip_ws_length r4) as Hw4.
  apply Hm in H as [Hlen Hfuel]. split; [lia|].
  intros [|f'] Hf; [lia|].
  rewrite parse_members_S, E1, Hk, Hs1, E2, Hfuel1 by lia.
  rewrite Hs3, E3, E4. apply Hfuel. lia.
Qed.

Lemma fuel_ok f : value_ok f ∧ elems_ok f ∧ members_ok f.
Proof.
  induction f as [|f (Hv & He & Hm)].
  - by split_and!; intros ?.
  - split_and!; [by apply value_ok_step | by apply elems_ok_step | by apply members_ok_step].
Qed.

End Fuel.

(** The fuel of [json_loads] is enough: a parse that some fuel finds is the
    one [json_loads] finds. *)
Lemma json_loads_fuel s f v r :
  parse_value f (skip_ws s) = Some (v, r) →
  parse_value (2 * length s + 2) (skip_ws s) = Some (v, r).
Proof.
  intros H. destruct (fuel_ok f) as (Hv & _). apply Hv in H as [Hlen Hfuel].
  apply Hfuel. pose proof (skip_ws_length s). lia.
Qed.

Lemma json_loads_complete s f v r :
  parse_value f (skip_ws s) = Some (v, r) → skip_ws r = [] → json_loads s = Ok v.
Proof.
  intros H Hr. unfold json_loads. by rewrite (json_loads_fuel s f v r H), Hr.
Qed.

(** * Further properties *)

(** ** Stripping *)

Lemma dropwhile_idem {A} (p : A → bool) l : dropwhile p (dropwhile p l) = dropwhile p l.
Proof.
  induction l as [|x l IH]; simpl; [done|].
  destruct (p x) eqn:Hx; [done|]. simpl. by rewrite Hx.
Qed.

Lemma dropwhile_app {A} (p : A → bool) l r :
  dropwhile p (l ++ r) =
  match dropwhile p l with
  | [] => dropwhile p r
  | x :: k => (x :: k) ++ r
  end.
Proof.
  induction l as [|x l IH]; simpl; [by destruct (dropwhile p r)|].
  by destruct (p x).
Qed.

Lemma dropwhile_head {A} (p : A → bool) l x k : dropwhile p l = x :: k → p x = false.
Proof. intros H. by apply dropwhile_cons_inv in H as [? _]. Qed.

Lemma rstrip_padding s ws :
  Forall (λ c, is_space c = true) ws → rstrip (s ++ ws) = rstrip s.
Proof.
  intros Hws. unfold rstrip. rewrite rev_app_distr, dropwhile_all; [done|].
  apply Forall_forall. intros c Hc. rewrite Forall_forall in Hws. apply Hws.
  apply list_elem_of_In, in_rev. by apply list_elem_of_In.
Qed.

Lemma rstrip_cons c s : is_space c = false → ∃ k, rstrip (c :: s) = c :: k.
Proof.
  intros Hc. unfold rstrip. simpl rev.
  rewrite (dropwhile_app_stop is_space (rev s) c []) by done.
  rewrite rev_app_distr. simpl. by eexists.
Qed.

(** What [strip] returns has no whitespace left at either end. *)
Lemma strip_idem s : strip (strip s) = strip s.
Proof.
  unfold strip.
  assert (lstrip (rstrip (lstrip s)) = rstrip (lstrip s)) as ->.
  { unfold lstrip. destruct (dropwhile is_space s) as [|c k] eqn:Hs; [done|].
    apply dropwhile_head in Hs as Hc.
    destruct (rstrip_cons c k Hc) as [k' ->]. by apply dropwhile_false. }
  unfold rstrip. by rewrite rev_involutive, dropwhile_idem.
Qed.

(** Whitespace around a text does not change what [strip] returns. *)
Lemma strip_padding ws1 s ws2 :
  Forall (λ c, is_space c = true) ws1 → Forall (λ c, is_space c = true) ws2 →
  strip (ws1 ++ s ++ ws2) = strip s.
Proof.
  intros H1 H2. unfold strip, lstrip. rewrite dropwhile_all by done.
  rewrite dropwhile_app. destruct (dropwhile is_space s) as [|c k] eqn:Hs.
  - rewrite <- (app_nil_r ws2), dropwhile_all by done. done.
  - by apply rstrip_padding.
Qed.

(** ** The library reader: fields *)

Section CollectFields.
Variables artists albums genres years ratings plays : list str.

Let collect i names := collect_from i names artists albums genres years ratings plays.

(** The track built at position [j] from the name [name]. *)
Let track_at (j : nat) (name : str) : track :=
  Track (Z.of_nat j) (strip name) (field_at artists j) (field_at albums j)
        (field_at genres j) (field_at years j) (field_at ratings j) (field_at plays j).

Lemma collect_from_record names : ∀ i k t,
  collect i names !! k = Some t →
  ∃ j name, names !! j = Some name ∧ k ≤ j ∧ strip name ≠ [] ∧ t = track_at (i + j) name.
Proof.
  induction names as [|name names IH]; intros i k t Hk; [done|].
  unfold collect in *. simpl in Hk.
  destruct (strip name) as [|c cs] eqn:Hname.
  - apply IH in Hk as (j & nm & Hnm & Hle & Hne & ->).
    exists (S j), nm. split_and!; [done | lia | done |].
    by replace (i + S j) with (S i + j) by lia.
  - destruct k as [|k]; simpl in Hk.
    + injection Hk as <-. exists 0, name. unfold track_at. rewrite Hname, Nat.add_0_r.
      by split_and!; [| lia | |].
    + apply IH in Hk as (j & nm & Hnm & Hle & Hne & ->).
      exists (S j), nm. split_and!; [done | lia | done |].
    by replace (i + S j) with (S i + j) by lia.
Qed.

Lemma collect_from_length names : ∀ i,
  length (collect i names) = length (filter (λ name, strip name ≠ []) names).
Proof.
  induction names as [|name names IH]; intros i; [done|].
  unfold collect in *. simpl. rewrite filter_cons.
  destruct (strip name) eqn:Hname.
  - rewrite decide_False by (intros H; by apply H). apply IH.
  - rewrite decide_True by done. simpl. by rewrite IH.
Qed.

Lemma omap_ext_in {A B} (f g : A → option B) (l : list A) :
  (∀ x, x ∈ l → f x = g x) → omap f l = omap g l.
Proof.
  induction l as [|x l IH]; intros H; [done|]. cbn [omap list_omap].
  rewrite (H x) by apply list_elem_of_here.
  rewrite IH; [done|]. intros y Hy. apply H. by apply list_elem_of_further.
Qed.

(** The loop yields, position by position, the track of each name that is
    not blank. *)
Lemma collect_from_positions names : ∀ i,
  collect i names
  = omap (λ j, match names !! (j - i) with
               | Some name =>
                   match strip name with
                   | [] => None
                   | _ :: _ => Some (track_at j name)
                   end
               | None => None
               end) (seq i (length names)).
Proof.
  induction names as [|name names IH]; intros i; [done|].
  unfold collect in *. cbn [collect_from length seq omap list_omap].
  rewrite Nat.sub_diag. cbn [lookup list_lookup].
  rewrite (IH (S i)).
  assert (omap (λ j, match (name :: names) !! (j - i) with
                     | Some name0 =>
                         match strip name0 with
                         | [] => None
                         | _ :: _ => Some (track_at j name0)
                         end
                     | None => None
                     end) (seq (S i) (length names))
          = omap (λ j, match names !! (j - S i) with
                       | Some name0 =>
                           match strip name0 with
                           | [] => None
                           | _ :: _ => Some (track_at j name0)
                           end
                       | None => None
                       end) (seq (S i) (length names))) as ->.
  { apply omap_ext_in. intros j Hj. apply list_elem_of_In, in_seq in Hj as [Hj _].
    by replace (j - i) with (S (j - S i)) by lia. }
  destruct (strip name) as [|c cs] eqn:Hs; [done|].
  cbn [omap list_omap]. unfold track_at. by rewrite Hs.
Qed.

End CollectFields.

Lemma field_at_stripped xs j : strip (field_at xs j) = field_at xs j.
Proof. unfold field_at. destruct (xs !! j); [apply strip_idem | done]. Qed.

Lemma field_at_short xs j : length xs ≤ j → field_at xs j = [].
Proof. intros H. unfold field_at. by rewrite lookup_ge_None_2. Qed.

(** X1: one track per name that is not blank, in the order of the names:
    the library is what going through the positions of the names in order and
    making the track of each name that is not blank yields. A track takes
    every field from the position of its name, stripped, and the empty string
    from a field sequence that ends before that position. *)
Theorem library_fields_are_aligned
    (names artists albums genres years ratings plays : list str) :
  let ts := collect_tracks names artists albums genres years ratings plays in
  ts = omap (track_at_position names artists albums genres years ratings plays)
            (seq 0 (length names))
  ∧ length ts = length (filter (λ name, strip name ≠ []) names)
  ∧ length ts ≤ length names
  ∧ (∀ k t, ts !! k = Some t →
       ∃ j name, names !! j = Some name ∧ k ≤ j ∧ strip name ≠ []
         ∧ t = Track (Z.of_nat j) (strip name) (field_at artists j) (field_at albums j)
                     (field_at genres j) (field_at years j) (field_at ratings j)
                     (field_at plays j))
  ∧ (∀ j name, names !! j = Some name → strip name ≠ [] →
       Track (Z.of_nat j) (strip name) (field_at artists j) (field_at albums j)
             (field_at genres j) (field_at years j) (field_at ratings j)
             (field_at plays j) ∈ ts)
  ∧ (∀ (xs : list str) j, length xs ≤ j → field_at xs j = [])
  ∧ (∀ (xs : list str) j x, xs !! j = Some x → field_at xs j = strip x).
Proof.
  intros ts.
  assert (ts = omap (track_at_position names artists albums genres years ratings plays)
                    (seq 0 (length names))) as Hts.
  { unfold ts, collect_tracks. rewrite collect_from_positions.
    apply omap_ext_in. intros j _. unfold track_at_position. by rewrite Nat.sub_0_r. }
  split_and!.
  - exact Hts.
  - apply collect_from_length.
  - unfold ts, collect_tracks. rewrite collect_from_length. apply length_filter.
  - intros k t Hk. by apply collect_from_record in Hk.
  - intros j name Hj Hne. rewrite Hts. apply list_elem_of_omap. exists j. split.
    + apply list_elem_of_In, in_seq. apply lookup_lt_Some in Hj. lia.
    + unfold track_at_position. rewrite Hj. by destruct (strip name).
  - apply field_at_short.
  - intros xs j x H. unfold field_at. by rewrite H.
Qed.

Lemma library_fields_are_aligned_witness :
  collect_tracks [u "A"; u " "; u "B"] [u " X "] [] [] [] [] []
  = [Track 0 (u "A") (u "X") [] [] [] [] []; Track 2 (u "B") [] [] [] [] [] []]
  ∧ Track 2 (u "B") [] [] [] [] [] []
    ∈ collect_tracks [u "A"; u " "; u "B"] [u " X "] [] [] [] [] [].
Proof.
  destruct (library_fields_are_aligned [u "A"; u " "; u "B"] [u " X "] [] [] [] [] [])
    as (H1 & _ & _ & _ & H2 & _).
  split.
  - rewrite H1. vm_compute. reflexivity.
  - apply (H2 2 (u "B")); [reflexivity | vm_compute; discriminate].
Defined.

(** X2: every track of a library has a title that is not empty, and none of its
    seven fields starts or ends with whitespace: stripping it again changes
    nothing. *)
Theorem library_tracks_are_stripped
    (names artists albums genres years ratings plays : list str) (t : track) :
  t ∈ collect_tracks names artists albums genres years ratings plays →
  t_title t ≠ []
  ∧ strip (t_title t) = t_title t ∧ strip (t_artist t) = t_artist t
  ∧ strip (t_album t) = t_album t ∧ strip (t_genre t) = t_genre t
  ∧ strip (t_year t) = t_year t ∧ strip (t_rating t) = t_rating t
  ∧ strip (t_plays t) = t_plays t.
Proof.
  intros [k Hk]%list_elem_of_lookup_1.
  apply collect_from_record in Hk as (j & name & _ & _ & Hne & ->). simpl.
  split_and!; [done | apply strip_idem | apply field_at_stripped ..].
Qed.

Lemma library_tracks_are_stripped_witness :
  t_artist (Track 0 (u "A") (u "X") [] [] [] [] []) = u "X"
  ∧ strip (u "X") = u "X".
Proof.
  destruct (library_tracks_are_stripped [u " A "] [u "  X "] [] [] [] [] []
              (Track 0 (u "A") (u "X") [] [] [] [] [])) as (_ & _ & H & _).
  - apply (bool_decide_unpack _). vm_compute. exact I.
  - split; [reflexivity | exact H].
Defined.

(** ** Escaping *)

(** X3: a name, title or artist put into a script is read back as itself. The
    quoted literal [q (escape s)] ends at its closing quote, whatever quotes
    and backslashes [s] holds, and its text is [s]; so [escape] loses nothing:
    two texts with the same escaped form are equal. *)
Theorem escaped_literal_reads_back (s rest : str) :
  read_literal [] (escape s ++ DQ :: rest) = Some (s, rest)
  ∧ (∀ tail, ∃ body, q (escape s) ++ tail = DQ :: body
                     ∧ read_literal [] body = Some (s, tail))
  ∧ (∀ s', escape s = escape s' → s = s').
Proof.
  split_and!.
  - apply (read_literal_escape s [] rest).
  - intros tail. exists (escape s ++ DQ :: tail). split.
    + unfold q. simpl. by rewrite <- app_assoc.
    + apply (read_literal_escape s [] tail).
  - intros s' Heq.
    pose proof (read_literal_escape s [] []) as H1.
    pose proof (read_literal_escape s' [] []) as H2.
    rewrite Heq in H1. simpl in *. congruence.
Qed.

Lemma escaped_literal_reads_back_witness :
  read_literal [] (escape [DQ] ++ DQ :: u "x") = Some ([DQ], u "x").
Proof.
  destruct (escaped_literal_reads_back [DQ] (u "x")) as [H _]. exact H.
Defined.

Example escape_ex :
  escape (u "a" ++ [DQ] ++ u "b\c") = u "a\" ++ [DQ] ++ u "b\\c".
Proof. reflexivity. Qed.

(** ** The first column of a catalog line *)

Lemma span_stop {A} (p : A → bool) l y r :
  Forall (λ x, p x = true) l → p y = false → span p (l ++ y :: r) = (l, y :: r).
Proof.
  intros Hl Hy. induction Hl as [|x l Hx _ IH]; simpl; [by rewrite Hy|].
  by rewrite Hx, IH.
Qed.

Lemma str_of_Z_no_bar z : Forall (λ c, negb (c =? 124)%N = true) (str_of_Z z).
Proof.
  assert (∀ s, all_digits s → Forall (λ c, negb (c =? 124)%N = true) s) as Hd.
  { intros s Hs. eapply Forall_impl; [exact Hs|]. simpl. intros c Hc.
    apply negb_true_iff, N.eqb_neq. char_facts. lia. }
  destruct z as [|p|p]; simpl.
  - by repeat constructor.
  - apply Hd, str_of_N_digits.
  - constructor; [done|]. apply Hd, str_of_N_digits.
Qed.

Lemma first_column_lines t :
  first_column (compact_line t) = str_of_Z (t_id t)
  ∧ first_column (full_line t) = str_of_Z (t_id t).
Proof.
  unfold first_column, compact_line, full_line, BAR. split.
  - change (str_of_Z (t_id t) ++ [124%N] ++ ?r)
      with (str_of_Z (t_id t) ++ 124%N :: r).
    by rewrite span_stop by (done || apply str_of_Z_no_bar).
  - change (str_of_Z (t_id t) ++ [124%N] ++ ?r)
      with (str_of_Z (t_id t) ++ 124%N :: r).
    by rewrite span_stop by (done || apply str_of_Z_no_bar).
Qed.

(** X4: the first column of every catalog line, full or compact, is the id of
    its track, whatever the title and the other fields hold, bars included. *)
Theorem first_column_is_id (t : track) :
  first_column (compact_line t) = str_of_Z (t_id t)
  ∧ first_column (full_line t) = str_of_Z (t_id t).
Proof. apply first_column_lines. Qed.

Example first_column_ex :
  first_column (compact_line (Track 17 (u "A|B") (u "X") [] [] [] [] [])) = u "17".
Proof. reflexivity. Qed.

(** ** Batches *)

(** X5: the batches cut the selection into consecutive pieces: put end to end
    they are the selection; there are ceil(n / 50) of them, none for an empty
    selection; no batch is empty or longer than 50, and every batch but the
    last holds exactly 50 tracks. *)
Theorem batches_partition_selection (selected : list track) :
  let k := batch_count (length selected) in
  concat (map (chunk_at selected) (seq 0 k)) = selected
  ∧ (k = 0 ↔ selected = [])
  ∧ length selected ≤ k * BATCH
  ∧ (selected ≠ [] → (k - 1) * BATCH < length selected)
  ∧ (∀ b, b < k → chunk_at selected b ≠ [] ∧ length (chunk_at selected b) ≤ BATCH)
  ∧ (∀ b, S b < k → length (chunk_at selected b) = BATCH)
  ∧ (∀ b, k ≤ b → chunk_at selected b = []).
Proof.
  intros k. pose proof (chunks_cover selected) as Hcover. fold k in Hcover.
  destruct (batch_count_spec (length selected)) as [Hup Hlow]. fold k in Hup, Hlow.
  assert (∀ b, length (chunk_at selected b) = min 50 (length selected - b * 50)) as Hlen.
  { intros b. apply chunk_at_length. }
  assert (∀ l : list track, l = [] ↔ length l = 0) as Hnil.
  { intros l. split; [by intros -> | apply length_zero_iff_nil]. }
  assert (length selected = 0 → k = 0) as Hzero.
  { unfold k. by intros ->. }
  change BATCH with 50 in *. clearbody k.
  split_and!.
  - exact Hcover.
  - rewrite Hnil. lia.
  - exact Hup.
  - rewrite Hnil. lia.
  - intros b Hb. rewrite Hnil, Hlen. nia.
  - intros b Hb. rewrite Hlen. nia.
  - intros b Hb. rewrite Hnil, Hlen. nia.
Qed.

Lemma batches_partition_selection_witness :
  length (chunk_at (replicate 120 track_A) 1) = BATCH.
Proof.
  destruct (batches_partition_selection (replicate 120 track_A))
    as (_ & _ & _ & _ & _ & H & _).
  apply H. apply Nat.ltb_lt. vm_compute. reflexivity.
Defined.

Example batches_of_120_tracks :
  let selected := replicate 120 track_A in
  batch_count (length selected) = 3
  ∧ map length (map (chunk_at selected) (seq 0 3)) = [50; 50; 20].
Proof. split; reflexivity. Qed.

(** ** The calls of the materialisers *)

Lemma run_scripts_app prefix s1 s2 w log :
  run_scripts prefix (s1 ++ s2) w log =
  match run_scripts prefix s1 w log with
  | (log', Ok _) => run_scripts prefix s2 w log'
  | (log', Raise e) => (log', Raise e)
  end.
Proof.
  revert log. induction s1 as [|s s1 IH]; intros log; [done|].
  cbn [app run_scripts]. unfold bind.
  destruct (run_applescript_with prefix s w log) as [log1 [out|e]]; [apply IH | done].
Qed.

Lemma batch_loop_run prefix safe_name selected w : ∀ todo b log,
  batch_loop prefix safe_name selected todo b w log
  = run_scripts prefix
      (map (λ b, batch_script safe_name (chunk_at selected b)) (seq b todo)) w log.
Proof.
  induction todo as [|todo IH]; intros b log; [done|].
  cbn [batch_loop seq map run_scripts]. unfold bind.
  destruct (run_applescript_with _ _ w log) as [log1 [out|e]]; [apply IH | done].
Qed.

(** The materialisers run the planned scripts in order and return the number
    selected if none fails. *)
Lemma add_selected_run prefix name selected w log :
  selected ≠ [] →
  add_selected prefix name selected w log =
  match run_scripts prefix (planned_scripts name selected) w log with
  | (log', Ok _) => (log', Ok (length selected))
  | (log', Raise e) => (log', Raise e)
  end.
Proof.
  intros Hne. destruct selected as [|t sel]; [done|].
  unfold add_selected, planned_scripts, batch_scripts.
  cbn [run_scripts]. unfold bind.
  destruct (run_applescript_with _ _ w log) as [log1 [out|e]]; [|done].
  unfold bind. rewrite batch_loop_run.
  by destruct (run_scripts _ _ w log1) as [log2 [[]|e]].
Qed.

(** Scripts run up to the first call that fails, and no further. *)
Lemma run_scripts_first_failure prefix w : ∀ scripts log k script,
  scripts !! k = Some script →
  (∀ i, i < k → call_succeeds w log scripts i) →
  returncode (w (log ++ take k scripts) script) ≠ 0%Z →
  run_scripts prefix scripts w log
  = (log ++ take (S k) scripts,
     Raise (RuntimeError (prefix ++ strip (stderr (w (log ++ take k scripts) script))))).
Proof.
  induction scripts as [|s scripts IH]; intros log k script Hk Hok Hfail; [done|].
  cbn [run_scripts]. unfold bind.
  destruct k as [|k].
  - simpl in Hk. injection Hk as ->. simpl in *. rewrite app_nil_r in *.
    unfold run_applescript_with. destruct (Z.eqb_spec (returncode (w log script)) 0); done.
  - assert (returncode (w log s) = 0%Z) as H0.
    { specialize (Hok 0 ltac:(lia) s eq_refl). simpl in Hok. by rewrite app_nil_r in Hok. }
    unfold run_applescript_with at 1. rewrite H0. simpl.
    simpl in Hk. rewrite (IH (log ++ [s]) k script Hk).
    + by rewrite <- !app_assoc.
    + intros i Hi sc Hsc. specialize (Hok (S i) ltac:(lia) sc Hsc).
      simpl in Hok. by rewrite <- app_assoc.
    + by rewrite <- app_assoc.
Qed.

Lemma run_scripts_all_succeed prefix w : ∀ scripts log,
  (∀ i, call_succeeds w log scripts i) →
  run_scripts prefix scripts w log = (log ++ scripts, Ok tt).
Proof.
  induction scripts as [|s scripts IH]; intros log Hok.
  - simpl. by rewrite app_nil_r.
  - cbn [run_scripts]. unfold bind.
    assert (returncode (w log s) = 0%Z) as H0.
    { specialize (Hok 0 s eq_refl). simpl in Hok. by rewrite app_nil_r in Hok. }
    unfold run_applescript_with at 1. rewrite H0. simpl.
    rewrite IH; [by rewrite <- app_assoc|].
    intros i sc Hsc. specialize (Hok (S i) sc Hsc). simpl in Hok. by rewrite <- app_assoc.
Qed.

(** X6: a run on which every call succeeds issues the creation script and then
    one script per batch, 1 + ceil(n / 50) calls in all for n resolved tracks,
    on the command line and in the GUI alike; for an empty selection it issues
    none. *)
Theorem materialiser_call_count
    (w : bridge) (log : list str) (rnd : list nat) (name : str)
    (track_ids : list Z) (all_tracks : list track) (randomise : bool) :
  compliant w →
  let n := length (resolve track_ids all_tracks) in
  let calls := if n =? 0 then 0 else 1 + batch_count n in
  length (UI.create_playlist rnd name track_ids all_tracks randomise w log).1
  = length log + calls
  ∧ length (Agent.create_swinsian_playlist rnd name track_ids all_tracks w log).1
    = length log + calls.
Proof.
  intros Hw n calls.
  assert (∀ prefix sel, length sel = n →
            length (add_selected prefix name sel w log).1 = length log + calls) as Hsel.
  { intros prefix sel Hlen. destruct sel as [|t sel].
    - simpl in Hlen. unfold calls. rewrite <- Hlen. simpl. lia.
    - rewrite add_selected_ok by done. simpl fst. rewrite length_app.
      unfold planned_scripts, batch_scripts.
      rewrite length_cons, length_map, length_seq, Hlen. unfold calls.
      destruct (Nat.eqb_spec n 0) as [Hz|_]; [simpl in Hlen; lia | lia]. }
  unfold UI.create_playlist, Agent.create_swinsian_playlist. split.
  - apply Hsel. destruct randomise; [apply shuffle_length | done].
  - apply Hsel. apply shuffle_length.
Qed.

Lemma materialiser_call_count_witness :
  length (UI.create_playlist [] (u "Test") [2; 0; 9]%Z lib3 false ok_bridge []).1 = 2.
Proof.
  destruct (materialiser_call_count ok_bridge [] [] (u "Test") [2; 0; 9]%Z lib3 false
              ok_bridge_compliant) as [H _].
  exact H.
Defined.

(** X7: when a call fails, the materialiser stops there: the scripts issued are
    the planned ones up to and including the failing one, none after it and
    none twice, and the error is the RuntimeError made of the stripped stderr
    of that call. *)
Theorem materialiser_stops_at_first_failure
    (prefix name : str) (selected : list track) (w : bridge) (log : list str)
    (k : nat) (script : str) :
  selected ≠ [] →
  planned_scripts name selected !! k = Some script →
  (∀ i, i < k → call_succeeds w log (planned_scripts name selected) i) →
  returncode (w (log ++ take k (planned_scripts name selected)) script) ≠ 0%Z →
  add_selected prefix name selected w log
  = (log ++ take (S k) (planned_scripts name selected),
     Raise (RuntimeError
              (prefix ++ strip (stderr (w (log ++ take k (planned_scripts name selected))
                                          script))))).
Proof.
  intros Hne Hk Hok Hfail. rewrite add_selected_run by done.
  by rewrite (run_scripts_first_failure prefix w _ log k script Hk Hok Hfail).
Qed.

Lemma materialiser_stops_at_first_failure_witness :
  UI.create_playlist [] (u "Test") [2; 0; 9]%Z lib3 false (failing_from 1) []
  = ([create_script (u "Test"); batch_script (u "Test") [track_C; track_A]],
     Raise (RuntimeError (u "boom"))).
Proof.
  unfold UI.create_playlist.
  rewrite (materialiser_stops_at_first_failure UI.ERR_PREFIX (u "Test")
             (resolve [2; 0; 9]%Z lib3) (failing_from 1) [] 1
             (batch_script (u "Test") [track_C; track_A])).
  - vm_compute. reflexivity.
  - vm_compute. discriminate.
  - vm_compute. reflexivity.
  - intros i Hi sc Hsc. assert (i = 0) as -> by lia. vm_compute. reflexivity.
  - vm_compute. discriminate.
Defined.

(** ** The calls of the library reader *)

Lemma run_scripts_issued prefix w : ∀ scripts log,
  ∃ j, j ≤ length scripts ∧ (scripts ≠ [] → 0 < j)
       ∧ (run_scripts prefix scripts w log).1 = log ++ take j scripts.
Proof.
  induction scripts as [|s scripts IH]; intros log.
  - exists 0. split_and!; [done | done | by rewrite app_nil_r].
  - cbn [run_scripts]. unfold bind.
    destruct (run_applescript_any prefix s w log) as (r & -> & [[out ->]|[msg ->]]).
    + destruct (IH (log ++ [s])) as (j & Hj & _ & Hlog). exists (S j).
      split_and!; [simpl; lia | lia |]. rewrite Hlog. by rewrite <- app_assoc.
    + exists 1. split_and!; [simpl; lia | lia |]. cbn [fst take]. by rewrite take_0.
Qed.

(** The reader makes the calls of [run_scripts] on the seven queries, and
    fails when and as they do. *)
Lemma get_library_tracks_scripts prefix w log :
  match get_library_tracks_with prefix w log, run_scripts prefix library_queries w log with
  | (l1, Ok _), (l2, Ok _) => l1 = l2
  | (l1, Raise e1), (l2, Raise e2) => l1 = l2 ∧ e1 = e2
  | _, _ => False
  end.
Proof.
  unfold get_library_tracks_with, library_queries, fetch_property_with.
  cbn [map run_scripts]. unfold bind, ret.
  repeat match goal with
         | |- context [run_applescript_with ?p ?s ?w ?l] =>
             destruct (run_applescript_with p s w l) as [? [?|?]]
         end;
    first [reflexivity | exact (conj eq_refl eq_refl)].
Qed.

(** X8: the library reader makes its seven queries in a fixed order, name
    first and play count last, and stops at the first that fails: it issues
    between one and seven calls, always a front part of the seven; when the
    first k succeed and the next fails, it has issued k + 1 and raises the
    RuntimeError made of the stripped stderr of the failing call; when all
    succeed it returns the tracks after exactly seven. *)
Theorem library_read_outcome (prefix : str) (w : bridge) (log : list str) :
  (∃ j, 1 ≤ j ≤ 7
        ∧ (get_library_tracks_with prefix w log).1 = log ++ take j library_queries)
  ∧ ((∀ i, call_succeeds w log library_queries i) →
     ∃ tracks, get_library_tracks_with prefix w log = (log ++ library_queries, Ok tracks))
  ∧ (∀ k script,
       library_queries !! k = Some script →
       (∀ i, i < k → call_succeeds w log library_queries i) →
       returncode (w (log ++ take k library_queries) script) ≠ 0%Z →
       get_library_tracks_with prefix w log
       = (log ++ take (S k) library_queries,
          Raise (RuntimeError
                   (prefix ++ strip (stderr (w (log ++ take k library_queries) script)))))).
Proof.
  pose proof (get_library_tracks_scripts prefix w log) as Hrel.
  split_and!.
  - destruct (run_scripts_issued prefix w library_queries log) as (j & Hj & Hpos & Hlog).
    exists j. split; [split; [by apply Hpos | exact Hj] |].
    rewrite <- Hlog.
    destruct (get_library_tracks_with prefix w log) as [l1 [ts|e1]],
             (run_scripts prefix library_queries w log) as [l2 [[]|e2]];
      cbn [fst]; first [exact Hrel | exact (proj1 Hrel) | destruct Hrel].
  - intros Hall. rewrite (run_scripts_all_succeed prefix w _ log Hall) in Hrel.
    destruct (get_library_tracks_with prefix w log) as [l1 [ts|e1]]; [|destruct Hrel].
    exists ts. by rewrite Hrel.
  - intros k script Hk Hok Hfail.
    rewrite (run_scripts_first_failure prefix w _ log k script Hk Hok Hfail) in Hrel.
    destruct (get_library_tracks_with prefix w log) as [l1 [ts|e1]]; [destruct Hrel|].
    destruct Hrel as [-> ->]. reflexivity.
Qed.

Lemma library_read_outcome_witness :
  UI.get_library_tracks (failing_from 2) []
  = (take 3 library_queries, Raise (RuntimeError (u "boom"))).
Proof.
  destruct (library_read_outcome UI.ERR_PREFIX (failing_from 2) []) as (_ & _ & H).
  unfold UI.get_library_tracks.
  rewrite (H 2 (fetch_script (u "album"))).
  - vm_compute. reflexivity.
  - vm_compute. reflexivity.
  - intros i Hi sc Hsc.
    destruct i as [|[|i]]; [vm_compute; reflexivity | vm_compute; reflexivity | lia].
  - vm_compute. discriminate.
Defined.

(** ** The liveness probe *)

Lemma probe_outcome prefix w log :
  ∃ b : bool,
    is_swinsian_running_with prefix w log = (log ++ [RUNNING_SCRIPT], Ok b)
    ∧ (b = true ↔ returncode (w log RUNNING_SCRIPT) = 0%Z
                  ∧ lower (strip (stdout (w log RUNNING_SCRIPT))) = u "true")
    ∧ (returncode (w log RUNNING_SCRIPT) ≠ 0%Z → b = false).
Proof.
  unfold is_swinsian_running_with, run_applescript_with.
  destruct (Z.eqb_spec (returncode (w log RUNNING_SCRIPT)) 0) as [H0|H0].
  - eexists. split; [reflexivity|]. rewrite strip_idem. unfold str_eqb. split.
    + split.
      * intros Hb. split; [exact H0 | by apply bool_decide_eq_true in Hb].
      * intros [_ Hb]. by apply bool_decide_eq_true.
    + intros Hne. by destruct Hne.
  - exists false. split; [reflexivity|]. split; [|done].
    split; [discriminate | by intros [? _]].
Qed.

(** X9: the probe never raises and makes exactly one call; it answers True
    only when that call succeeds and prints the word true, in any letter case
    and with any white space around it, and False in every other case, a
    failed call included. *)
Theorem probe_never_raises (prefix : str) (w : bridge) (log : list str) :
  ∃ b : bool,
    is_swinsian_running_with prefix w log = (log ++ [RUNNING_SCRIPT], Ok b)
    ∧ (b = true ↔ returncode (w log RUNNING_SCRIPT) = 0%Z
                  ∧ lower (strip (stdout (w log RUNNING_SCRIPT))) = u "true")
    ∧ (returncode (w log RUNNING_SCRIPT) ≠ 0%Z → b = false).
Proof. apply probe_outcome. Qed.

Lemma probe_never_raises_witness :
  is_swinsian_running_with UI.ERR_PREFIX (failing_from 0) [] = ([RUNNING_SCRIPT], Ok false).
Proof.
  destruct (probe_never_raises UI.ERR_PREFIX (failing_from 0) []) as (b & -> & _ & Hb).
  rewrite Hb; [reflexivity | vm_compute; discriminate].
Defined.

(** ** The two front ends *)

Lemma probe_ignores_prefix p1 p2 w log :
  is_swinsian_running_with p1 w log = is_swinsian_running_with p2 w log.
Proof.
  unfold is_swinsian_running_with, run_applescript_with.
  by destruct (returncode (w log RUNNING_SCRIPT) =? 0)%Z.
Qed.

Lemma agree_bind {A B} (m1 m2 : M A) (f1 f2 : A → M B) w log :
  agree (m1 w log) (m2 w log) →
  (∀ a log', agree (f1 a w log') (f2 a w log')) →
  agree (bind m1 f1 w log) (bind m2 f2 w log).
Proof.
  unfold agree, bind. intros [Hl Ho] Hf.
  destruct (m1 w log) as [l1 [a1|e1]], (m2 w log) as [l2 [a2|e2]];
    cbn [fst snd same_outcome] in *; subst; [apply Hf | done | by destruct e1 | ].
  split; [reflexivity | exact Ho].
Qed.

Lemma agree_ret {A} (a : A) w log : agree (ret a w log) (ret a w log).
Proof. by split. Qed.

Lemma agree_run_applescript script w log :
  agree (UI.run_applescript script w log) (Agent.run_applescript script w log).
Proof.
  unfold UI.run_applescript, Agent.run_applescript, run_applescript_with, agree.
  destruct (returncode (w log script) =? 0)%Z; split; reflexivity.
Qed.

Lemma agree_fetch_property prop w log :
  agree (UI.fetch_property prop w log) (Agent.fetch_property prop w log).
Proof.
  unfold UI.fetch_property, Agent.fetch_property, fetch_property_with.
  apply agree_bind; [apply agree_run_applescript | intros; apply agree_ret].
Qed.

Lemma agree_batch_loop safe_name selected w : ∀ todo b log,
  agree (batch_loop UI.ERR_PREFIX safe_name selected todo b w log)
        (batch_loop Agent.ERR_PREFIX safe_name selected todo b w log).
Proof.
  induction todo as [|todo IH]; intros b log; [apply agree_ret|].
  cbn [batch_loop]. apply agree_bind; [apply agree_run_applescript | intros; apply IH].
Qed.

Lemma agree_add_selected name selected w log :
  agree (add_selected UI.ERR_PREFIX name selected w log)
        (add_selected Agent.ERR_PREFIX name selected w log).
Proof.
  destruct selected as [|t sel]; [apply agree_ret|]. unfold add_selected.
  apply agree_bind; [apply agree_run_applescript | intros _ log1].
  apply agree_bind; [apply agree_batch_loop | intros; apply agree_ret].
Qed.

(** X10: the GUI and the command line drive the player alike: reading the
    library and creating a shuffled playlist issue the same scripts in both and
    end in the same value, or in the same bridge error, whose message the
    command line prefixes with AppleScript error; the liveness probe is the
    same function; and a reply is parsed to the same curation, the two
    differing in the text put before a reply without any braces. *)
Theorem front_ends_agree (w : bridge) (log : list str) :
  agree (UI.get_library_tracks w log) (Agent.get_library_tracks w log)
  ∧ (∀ rnd name track_ids all_tracks,
       agree (UI.create_playlist rnd name track_ids all_tracks true w log)
             (Agent.create_swinsian_playlist rnd name track_ids all_tracks w log))
  ∧ is_swinsian_running_with UI.ERR_PREFIX w log
    = is_swinsian_running_with Agent.ERR_PREFIX w log
  ∧ (∀ reply,
       match UI.parse_reply reply, Agent.parse_reply reply with
       | Ok c, Ok c' => c = c'
       | Raise (ValueError m), Raise (ValueError m') =>
           m = UI.FORMAT_MSG ++ unfence reply ∧ m' = Agent.FORMAT_MSG ++ unfence reply
       | Raise e, Raise e' => e = e'
       | _, _ => False
       end).
Proof.
  split_and!.
  - unfold UI.get_library_tracks, Agent.get_library_tracks, get_library_tracks_with.
    repeat (apply agree_bind; [apply agree_fetch_property | intros ? ?]).
    apply agree_ret.
  - intros. apply agree_add_selected.
  - apply probe_ignores_prefix.
  - intros reply. unfold UI.parse_reply, Agent.parse_reply, parse_reply_with, load_reply.
    assert (∀ d, match rbind (Ok d) curation_of, rbind (Ok d) curation_of with
                 | Ok c, Ok c' => c = c'
                 | Raise (ValueError m), Raise (ValueError m') =>
                     m = UI.FORMAT_MSG ++ unfence reply
                     ∧ m' = Agent.FORMAT_MSG ++ unfence reply
                 | Raise e, Raise e' => e = e'
                 | _, _ => False
                 end) as Hcur.
    { intros d. cbn [rbind]. unfold curation_of. by destruct d. }
    destruct (json_loads (unfence reply)) as [d|e] eqn:Hd; [apply Hcur|].
    destruct (find_brace_span (unfence reply)) as [m|].
    + destruct (json_loads m) as [d|e'] eqn:Hm; [apply Hcur|].
      apply json_loads_raise in Hm. subst e'. reflexivity.
    + cbn [rbind]. split; reflexivity.
Qed.

(** ** The error of an oversized library *)

Lemma keyed_app a b :
  keyed (a ++ b) = rbind (keyed a) (λ ka, rbind (keyed b) (λ kb, Ok (ka ++ kb))).
Proof.
  induction a as [|t a IH]; simpl.
  - by destruct (keyed b).
  - destruct (play_key t) as [k|e]; [|done]. cbn [rbind]. rewrite IH.
    destruct (keyed a) as [ka|e]; [|done]. cbn [rbind].
    by destruct (keyed b).
Qed.

Lemma keyed_first_unreadable pre t post :
  Forall plays_readable pre → ¬ plays_readable t →
  keyed (pre ++ t :: post) = Raise (IntValueError (t_plays t)).
Proof.
  intros Hpre Ht. rewrite keyed_app, (keyed_readable pre Hpre). cbn [rbind keyed].
  by rewrite (play_key_unreadable t Ht).
Qed.

(** X11: play counts are read only for a library of more than 4000 tracks. Up
    to 4000 tracks a catalog of the whole library is produced whatever the
    play counts hold. Beyond, a catalog is produced exactly when every play
    count is empty or an integer literal; otherwise the error raised is the
    int() error of the first unreadable play count in library order, whatever
    the draws. *)
Theorem oversized_catalog_error (rnd : list nat) (tracks : list track) :
  (length tracks ≤ MAX_TRACKS_COMPACT →
     ∃ catalog desc, select_catalog rnd tracks = Ok (catalog, desc, tracks))
  ∧ (MAX_TRACKS_COMPACT < length tracks →
     (Forall plays_readable tracks ↔ ∃ r, select_catalog rnd tracks = Ok r)
     ∧ ∀ pre t post,
         tracks = pre ++ t :: post → Forall plays_readable pre → ¬ plays_readable t →
         select_catalog rnd tracks = Raise (IntValueError (t_plays t))).
Proof.
  split.
  - intros Hlen. destruct (decide (length tracks ≤ MAX_TRACKS_FULL)) as [Hf|Hf].
    + eexists _, _. by apply select_catalog_full.
    + eexists _, _. apply select_catalog_compact; [lia | done].
  - intros Hlen. rewrite (select_catalog_sampled rnd tracks Hlen). unfold sorted_by_plays.
    split.
    + split.
      * intros Hall. rewrite (keyed_readable tracks Hall). cbn [rbind]. by eexists.
      * intros [r Hr]. destruct (decide (Forall plays_readable tracks)) as [|Hn]; [done|].
        destruct (keyed_unreadable tracks Hn) as [s Hs]. rewrite Hs in Hr. discriminate.
    + intros pre t post -> Hpre Ht. by rewrite (keyed_first_unreadable pre t post Hpre Ht).
Qed.

Lemma oversized_catalog_error_witness :
  select_catalog [] half_readable_library = Raise (IntValueError (u "n/a")).
Proof.
  destruct (oversized_catalog_error [] half_readable_library) as [_ H].
  destruct H as [_ H]; [apply Nat.ltb_lt; vm_compute; reflexivity|].
  rewrite (H [Track 0 (u "A") [] [] [] [] [] (u "12")] track_na
             (drop 2 half_readable_library)).
  - reflexivity.
  - vm_compute. reflexivity.
  - constructor; [|constructor]. right. vm_compute. eexists. reflexivity.
  - intros [Hp|[z Hp]]; vm_compute in Hp; discriminate.
Defined.

(** ** The checks of the window *)

Lemma key_refused_false k :
  App.key_refused k = false ↔ k ≠ [] ∧ (is_prefix (u "sk-ant-") k = true ∨ 10 ≤ length k).
Proof.
  unfold App.key_refused. destruct k as [|c k]; [split; [done | by intros [? _]]|].
  rewrite andb_false_iff, negb_false_iff, Nat.ltb_ge. split; [by intros H | by intros [_ H]].
Qed.

Lemma prompt_refused_false p :
  App.prompt_refused p = false ↔ p ≠ [] ∧ p ≠ App.PLACEHOLDER.
Proof.
  unfold App.prompt_refused, str_eqb. destruct p as [|c p]; [split; [done | by intros [? _]]|].
  rewrite bool_decide_eq_false. split; [by intros H | by intros [_ H]].
Qed.

Lemma read_num_songs_range s n : App.read_num_songs s = Some n → (1 ≤ n ≤ 500)%Z.
Proof.
  unfold App.read_num_songs. destruct (py_int s) as [m|]; [|done].
  destruct (1 <=? m)%Z eqn:H1, (m <=? 500)%Z eqn:H2; simpl; try done.
  intros [= <-]. lia.
Qed.

(** X12: the window checks its three fields before it touches the player, in
    the order key, prompt, number: a refused key is reported whatever the
    other fields hold, a refused prompt whatever the number holds, and none of
    the three refusals makes a call; the run never raises, and the only call
    it can make is the one of the liveness probe. *)
Theorem run_checks_fields_first
    (api_key_var prompt_var num_songs_var : str) (randomise : bool)
    (w : bridge) (log : list str) :
  let out := App.run api_key_var prompt_var num_songs_var randomise w log in
  (∃ o, out.2 = Ok o)
  ∧ (out.1 = log ∨ out.1 = log ++ [RUNNING_SCRIPT])
  ∧ (out.2 = Ok App.BadKey ∨ out.2 = Ok App.BadPrompt ∨ out.2 = Ok App.BadNumber →
     out.1 = log)
  ∧ (App.key_refused (strip api_key_var) = true → out = (log, Ok App.BadKey))
  ∧ (App.key_refused (strip api_key_var) = false →
     App.prompt_refused (strip prompt_var) = true → out = (log, Ok App.BadPrompt))
  ∧ (out.2 = Ok App.NotRunning →
     ¬ (returncode (w log RUNNING_SCRIPT) = 0%Z
        ∧ lower (strip (stdout (w log RUNNING_SCRIPT))) = u "true")).
Proof.
  intros out. unfold App.run in out.
  destruct (probe_outcome UI.ERR_PREFIX w log) as (b & Hrun & Hb & _).
  destruct (App.key_refused (strip api_key_var)) eqn:Hk.
  { subst out. unfold ret. cbn [fst snd].
    split_and!; [by eexists | by left | done | done | done | done]. }
  destruct (App.prompt_refused (strip prompt_var)) eqn:Hp.
  { subst out. unfold ret. cbn [fst snd].
    split_and!; [by eexists | by left | done | done | done | done]. }
  destruct (App.read_num_songs (strip num_songs_var)) as [n|] eqn:Hn.
  2:{ subst out. unfold ret. cbn [fst snd].
      split_and!; [by eexists | by left | done | done | done | done]. }
  subst out. unfold bind. rewrite Hrun. destruct b; unfold ret; cbn [fst snd].
  - split_and!; [by eexists | by right | | done | done | done].
    intros [H|[H|H]]; discriminate H.
  - split_and!; [by eexists | by right | | done | done |].
    + intros [H|[H|H]]; discriminate H.
    + intros _ Hrunning. apply Hb in Hrunning. discriminate.
Qed.

Lemma run_checks_fields_first_witness :
  App.run (u "  ") (u "jazz") (u "25") true running_bridge [] = ([], Ok App.BadKey).
Proof.
  destruct (run_checks_fields_first (u "  ") (u "jazz") (u "25") true running_bridge [])
    as (_ & _ & _ & H & _).
  apply H. vm_compute. reflexivity.
Defined.

(** X13: when the window starts the worker, the inputs it hands over are the
    stripped fields, and they passed every check: the key is non-empty and
    either begins with sk-ant- or has at least ten characters, the prompt is
    neither empty nor the placeholder text, the number lies between 1 and 500,
    and the probe has just found the player running. *)
Theorem run_started_inputs
    (api_key_var prompt_var num_songs_var : str) (randomise : bool)
    (w : bridge) (log : list str) (api_key prompt : str) (num_songs : Z) (r : bool) :
  (App.run api_key_var prompt_var num_songs_var randomise w log).2
  = Ok (App.Started api_key prompt num_songs r) →
  api_key = strip api_key_var ∧ api_key ≠ []
  ∧ (is_prefix (u "sk-ant-") api_key = true ∨ 10 ≤ length api_key)
  ∧ prompt = strip prompt_var ∧ prompt ≠ [] ∧ prompt ≠ App.PLACEHOLDER
  ∧ (1 ≤ num_songs ≤ 500)%Z
  ∧ r = randomise
  ∧ (App.run api_key_var prompt_var num_songs_var randomise w log).1
    = log ++ [RUNNING_SCRIPT]
  ∧ returncode (w log RUNNING_SCRIPT) = 0%Z
  ∧ lower (strip (stdout (w log RUNNING_SCRIPT))) = u "true".
Proof.
  unfold App.run.
  destruct (probe_outcome UI.ERR_PREFIX w log) as (b & Hrun & Hb & _).
  destruct (App.key_refused (strip api_key_var)) eqn:Hk; [discriminate|].
  destruct (App.prompt_refused (strip prompt_var)) eqn:Hp; [discriminate|].
  destruct (App.read_num_songs (strip num_songs_var)) as [n|] eqn:Hn; [|discriminate].
  unfold bind. rewrite Hrun. destruct b; unfold ret; cbn [fst snd]; [|discriminate].
  intros [= <- <- <- <-].
  apply key_refused_false in Hk as [Hk1 Hk2].
  apply prompt_refused_false in Hp as [Hp1 Hp2].
  apply read_num_songs_range in Hn.
  destruct (proj1 Hb eq_refl) as [Hb1 Hb2].
  exact (conj eq_refl (conj Hk1 (conj Hk2 (conj eq_refl (conj Hp1 (conj Hp2
           (conj Hn (conj eq_refl (conj eq_refl (conj Hb1 Hb2)))))))))).
Qed.

Lemma run_started_inputs_witness :
  strip (u " sk-ant-x ") ≠ [] ∧ (1 ≤ 25 ≤ 500)%Z.
Proof.
  assert ((App.run (u " sk-ant-x ") (u "jazz") (u " 25") true running_bridge []).2
          = Ok (App.Started (u "sk-ant-x") (u "jazz") 25 true)) as H.
  { vm_compute. reflexivity. }
  destruct (run_started_inputs _ _ _ _ _ _ _ _ _ _ H) as (Hk & Hne & _ & _ & _ & _ & Hn & _).
  rewrite <- Hk. exact (conj Hne Hn).
Defined.

(** X14: the key shown at start-up comes from the keyring when it holds a
    non-empty one, whatever the environment holds; otherwise, an error of the
    keyring included, from the environment variable when that is set and not
    empty; the key put into the field is never the empty string. *)
Theorem stored_key_precedence (keyring : result (option str)) (env : option str) :
  (∀ k, keyring = Ok (Some k) → k ≠ [] → App.load_api_key keyring env = Some k)
  ∧ ((∀ k, keyring = Ok (Some k) → k = []) →
     App.load_api_key keyring env = App.load_api_key (Ok None) env
     ∧ (∀ k, env = Some k → k ≠ [] → App.load_api_key keyring env = Some k)
     ∧ (env = None ∨ env = Some [] → App.load_api_key keyring env = None))
  ∧ (∀ k, App.load_api_key keyring env = Some k →
       k ≠ [] ∧ (keyring = Ok (Some k) ∨ env = Some k)).
Proof.
  unfold App.load_api_key. split_and!.
  - intros k -> Hk. by destruct k.
  - intros Hempty.
    assert (match keyring with Ok (Some (c :: k)) => False | _ => True end) as Hkr.
    { destruct keyring as [[[|c k]|]|e]; try done. by specialize (Hempty _ eq_refl). }
    split_and!.
    + by destruct keyring as [[[|c k]|]|e].
    + intros k -> Hk. destruct keyring as [[[|c' k']|]|e]; try done; by destruct k.
    + intros [->| ->]; by destruct keyring as [[[|c' k']|]|e].
  - intros k. destruct keyring as [[[|c' k']|]|e], env as [[|c e']|]; simpl;
      intros [= <-]; split; first [done | by left | by right].
Qed.

Lemma stored_key_precedence_witness :
  App.load_api_key (Raise (RuntimeError (u "locked"))) (Some (u "sk-ant-env"))
  = Some (u "sk-ant-env").
Proof.
  destruct (stored_key_precedence (Raise (RuntimeError (u "locked"))) (Some (u "sk-ant-env")))
    as (_ & H & _).
  destruct H as (_ & H & _); [intros k Hk; discriminate Hk|].
  apply H; [reflexivity | vm_compute; discriminate].
Defined.

(** ** What a script line tells of a track *)

Lemma literal_inv s s' rest rest' :
  q (escape s) ++ rest = q (escape s') ++ rest' → s = s' ∧ rest = rest'.
Proof.
  unfold q. rewrite <- !app_assoc. intros H. apply app_inv_head in H.
  apply (f_equal (read_literal [])) in H.
  change ([DQ] ++ rest) with (DQ :: rest) in H.
  change ([DQ] ++ rest') with (DQ :: rest') in H.
  rewrite !read_literal_escape in H. by injection H.
Qed.

(** X15: a track enters the script of its batch through its title and its
    artist only, each as an escaped literal: the lines of two tracks are the
    same exactly when title and artist are, whatever their ids and other
    fields; so the script of a batch is the same for track lists that agree on
    titles and artists. *)
Theorem script_lines_tell_title_and_artist (safe_name : str) (t t' : track) :
  (add_track_lines safe_name t = add_track_lines safe_name t'
   ↔ t_title t = t_title t' ∧ t_artist t = t_artist t')
  ∧ (∀ chunk chunk',
       map (λ t, (t_title t, t_artist t)) chunk = map (λ t, (t_title t, t_artist t)) chunk' →
       batch_script safe_name chunk = batch_script safe_name chunk').
Proof.
  split.
  - unfold add_track_lines. split.
    + intros H. do 2 apply app_inv_head in H.
      apply literal_inv in H as [Ht H]. apply app_inv_head in H.
      apply literal_inv in H as [Ha _]. done.
    + by intros [-> ->].
  - intros chunk chunk' H. unfold batch_script.
    assert (map (add_track_lines safe_name) chunk = map (add_track_lines safe_name) chunk')
      as ->; [|reflexivity].
    revert chunk' H. induction chunk as [|a chunk IH]; intros [|a' chunk'] H; try done.
    injection H as Ht Ha H. cbn [map]. rewrite (IH chunk' H).
    unfold add_track_lines. by rewrite Ht, Ha.
Qed.

Lemma script_lines_tell_title_and_artist_witness :
  batch_script (u "Mix") [Track 0 (u "A") (u "X") (u "Live") [] [] [] []]
  = batch_script (u "Mix") [Track 7 (u "A") (u "X") (u "Studio") [] [] [] (u "3")].
Proof.
  destruct (script_lines_tell_title_and_artist (u "Mix") track_A track_A) as [_ H].
  apply H. reflexivity.
Defined.

(** ** Ids as JSON numbers *)

Lemma digits_go_value fuel : ∀ n acc a,
  (n < 2 ^ N.of_nat fuel)%N →
  ∃ p, foldl (λ acc c, (acc * 10 + (c - 48))%N) a (digits_go (S fuel) n acc)
       = foldl (λ acc c, (acc * 10 + (c - 48))%N) (a * p + n)%N acc.
Proof.
  induction fuel as [|fuel IH]; intros n acc a Hn.
  - assert (n = 0%N) as -> by (simpl in Hn; lia).
    exists 10%N. simpl. f_equal; lia.
  - change (digits_go (S (S fuel)) n acc) with
      (let acc' := (48 + n mod 10)%N :: acc in
       if (n / 10 =? 0)%N then acc' else digits_go (S fuel) (n / 10)%N acc').
    cbv zeta. pose proof (N.div_mod n 10 ltac:(done)) as Hdm.
    pose proof (N.mod_upper_bound n 10 ltac:(done)) as Hm.
    rewrite Nat2N.inj_succ, N.pow_succ_r' in Hn.
    revert Hdm Hm. generalize (n / 10)%N (n mod 10)%N. intros d r Hdm Hm.
    destruct (N.eqb_spec d 0) as [Hz|Hnz].
    + exists 10%N. simpl. f_equal; lia.
    + destruct (IH d ((48 + r)%N :: acc) a) as [p Hp]; [lia|].
      exists (p * 10)%N. rewrite Hp. simpl. f_equal; lia.
Qed.

Lemma digits_go_head fuel : ∀ n acc,
  (n < 2 ^ N.of_nat fuel)%N → n ≠ 0%N →
  ∃ c r, digits_go (S fuel) n acc = c :: r ∧ c ≠ 48%N.
Proof.
  induction fuel as [|fuel IH]; intros n acc Hn Hne.
  - simpl in Hn. lia.
  - change (digits_go (S (S fuel)) n acc) with
      (let acc' := (48 + n mod 10)%N :: acc in
       if (n / 10 =? 0)%N then acc' else digits_go (S fuel) (n / 10)%N acc').
    cbv zeta. pose proof (N.div_mod n 10 ltac:(done)) as Hdm.
    pose proof (N.mod_upper_bound n 10 ltac:(done)) as Hm.
    rewrite Nat2N.inj_succ, N.pow_succ_r' in Hn.
    revert Hdm Hm. generalize (n / 10)%N (n mod 10)%N. intros d r Hdm Hm.
    destruct (N.eqb_spec d 0) as [Hz|Hnz].
    + eexists _, _. split; [reflexivity | lia].
    + apply IH; [lia | done].
Qed.

(** The numeral of a positive number: digits, the first of them not 0, that
    read back as the number. *)
Lemma str_of_N_numeral n :
  n ≠ 0%N →
  ∃ c r, str_of_N n = c :: r ∧ c ≠ 48%N ∧ is_digit c = true ∧ all_digits r
         ∧ N_of_digits (c :: r) = n.
Proof.
  intros Hne. unfold str_of_N.
  destruct (digits_go_head (N.size_nat n) n [] (size_nat_bound n) Hne) as (c & r & Heq & Hc).
  destruct (digits_go_value (N.size_nat n) n [] 0%N (size_nat_bound n)) as [p Hp].
  pose proof (proj1 (str_of_N_digits n)) as Hd. unfold str_of_N in Hd.
  rewrite Heq in Hd, Hp |- *. apply Forall_cons in Hd as [Hdc Hdr].
  exists c, r. split_and!; [done | done | done | done |].
  unfold N_of_digits. rewrite Hp. simpl. lia.
Qed.

Lemma span_all {A} (p : A → bool) l : Forall (λ x, p x = true) l → span p l = (l, []).
Proof. induction 1 as [|x l Hx _ IH]; simpl; [done|]. by rewrite Hx, IH. Qed.

Lemma scan_number_numeral c r :
  is_digit c = true → c ≠ 48%N → all_digits r →
  scan_number (c :: r) = Some (JInt (Z.of_N (N_of_digits (c :: r))), [])
  ∧ scan_number (45%N :: c :: r) = Some (JInt (- Z.of_N (N_of_digits (c :: r))), []).
Proof.
  intros Hc H0 Hr.
  assert (scan_int_part (c :: r) = Some (c :: r, [])) as Hint.
  { unfold scan_int_part. apply N.eqb_neq in H0. rewrite H0, Hc.
    by rewrite (span_all is_digit r Hr). }
  assert ((c =? 45)%N = false) as H45.
  { apply N.eqb_neq. char_facts. lia. }
  unfold scan_number. rewrite H45, N.eqb_refl, Hint. split; reflexivity.
Qed.

Lemma parse_value_numeral fuel c r :
  is_digit c = true → c ≠ 48%N → all_digits r →
  parse_value (S fuel) (c :: r) = Some (JInt (Z.of_N (N_of_digits (c :: r))), [])
  ∧ parse_value (S fuel) (45%N :: c :: r)
    = Some (JInt (- Z.of_N (N_of_digits (c :: r))), []).
Proof.
  intros Hc H0 Hr. destruct (scan_number_numeral c r Hc H0 Hr) as [Hpos Hneg].
  assert (48 ≤ c ≤ 57)%N as Hrange by (char_facts; lia).
  split.
  - cbn [parse_value]. unfold LBRACE.
    destruct (N.eqb_spec c 34) as [?|_]; [lia|].
    destruct (N.eqb_spec c 123) as [?|_]; [lia|].
    destruct (N.eqb_spec c 91) as [?|_]; [lia|].
    unfold scan_constant.
    repeat match goal with
           | |- context [strip_prefix (u ?s) _] =>
               let v := eval vm_compute in (u s) in change (u s) with v
           end.
    rewrite !strip_prefix_None_head by lia. exact Hpos.
  - cbn [parse_value]. unfold LBRACE.
    change (45 =? 34)%N with false. change (45 =? 123)%N with false.
    change (45 =? 91)%N with false. cbv iota.
    unfold scan_constant.
    assert (strip_prefix (u "-Infinity") (45%N :: c :: r) = None) as ->.
    { unfold strip_prefix.
      change (is_prefix (u "-Infinity") (45%N :: c :: r)) with
        ((45 =? 45)%N && ((73 =? c)%N && is_prefix (u "nfinity") r)).
      destruct (N.eqb_spec 73 c) as [?|_]; [lia | reflexivity]. }
    repeat match goal with
           | |- context [strip_prefix (u ?s) _] =>
               let v := eval vm_compute in (u s) in change (u s) with v
           end.
    rewrite !strip_prefix_None_head by lia.
    exact Hneg.
Qed.

Lemma json_loads_numeral z : json_loads (str_of_Z z) = Ok (JInt z).
Proof.
  destruct z as [|p|p].
  - reflexivity.
  - destruct (str_of_N_numeral (Npos p) ltac:(done)) as (c & r & Heq & H0 & Hc & Hr & Hv).
    unfold str_of_Z. rewrite Heq. unfold json_loads.
    assert (skip_ws (c :: r) = c :: r) as ->.
    { unfold skip_ws. apply dropwhile_false. char_facts. lia. }
    destruct (2 * length (c :: r) + 2) as [|f] eqn:Hf; [lia|].
    rewrite (proj1 (parse_value_numeral f c r Hc H0 Hr)), Hv. reflexivity.
  - destruct (str_of_N_numeral (Npos p) ltac:(done)) as (c & r & Heq & H0 & Hc & Hr & Hv).
    unfold str_of_Z. rewrite Heq. unfold json_loads.
    change (u "-" ++ c :: r) with (45%N :: c :: r).
    assert (skip_ws (45%N :: c :: r) = 45%N :: c :: r) as -> by reflexivity.
    destruct (2 * length (45%N :: c :: r) + 2) as [|f] eqn:Hf; [lia|].
    rewrite (proj2 (parse_value_numeral f c r Hc H0 Hr)), Hv. reflexivity.
Qed.

(** X16: the id at the head of a catalog line, full or compact, is a JSON
    number that the decoder of the reply reads back as the integer id of the
    track, negative ids included: an id echoed as written is the id of the
    library. The decoder refuses numerals of more than 4300 digits, a limit
    the model of it leaves out; the ids are taken below it. *)
Theorem catalog_id_reads_back (t : track) :
  (Z.abs (t_id t) < 10 ^ Z.of_nat MAX_STR_DIGITS)%Z →
  json_loads (first_column (compact_line t)) = Ok (JInt (t_id t))
  ∧ json_loads (first_column (full_line t)) = Ok (JInt (t_id t)).
Proof.
  intros _. destruct (first_column_lines t) as [-> ->].
  split; apply json_loads_numeral.
Qed.

Lemma catalog_id_reads_back_witness :
  json_loads (first_column (compact_line track_C)) = Ok (JInt 2).
Proof.
  apply (catalog_id_reads_back track_C).
  apply Z.ltb_lt. vm_compute. reflexivity.
Defined.

(** ** The values of a property *)

Lemma split_go_tilde_other cur c s :
  c ≠ TILDE → split_go (u "~~~") 0 cur (c :: s) = split_go (u "~~~") 0 (c :: cur) s.
Proof.
  intros Hc. cbn [split_go].
  change (is_prefix (u "~~~") (c :: s)) with ((TILDE =? c)%N && is_prefix (u "~~") s).
  by destruct (N.eqb_spec TILDE c) as [?|_].
Qed.

Lemma split_go_tilde_last l : ∀ cur,
  TILDE ∉ l → split_go (u "~~~") 0 cur l = [rev cur ++ l].
Proof.
  induction l as [|c l IH]; intros cur Hl.
  - simpl. by rewrite app_nil_r.
  - apply not_elem_of_cons in Hl as [Hc Hl]. rewrite split_go_tilde_other by done.
    rewrite IH by done. simpl. by rewrite <- app_assoc.
Qed.

Lemma split_go_tilde_field l rest : ∀ cur,
  TILDE ∉ l →
  split_go (u "~~~") 0 cur (l ++ u "~~~" ++ rest)
  = (rev cur ++ l) :: split_go (u "~~~") 0 [] rest.
Proof.
  induction l as [|c l IH]; intros cur Hl.
  - rewrite app_nil_r. reflexivity.
  - apply not_elem_of_cons in Hl as [Hc Hl].
    change ((c :: l) ++ u "~~~" ++ rest) with (c :: (l ++ u "~~~" ++ rest)).
    rewrite split_go_tilde_other by done.
    rewrite IH by done. simpl. by rewrite <- app_assoc.
Qed.

(** Splitting the joined values at the separator gives the values back. *)
Lemma split_join_values (values : list str) :
  values ≠ [] → Forall (λ v, TILDE ∉ v) values →
  split (u "~~~") (join (u "~~~") values) = values.
Proof.
  intros Hne Hall. unfold split.
  induction Hall as [|v rest Hv Hrest IH]; [done|].
  destruct rest as [|v' rest].
  - simpl. by rewrite split_go_tilde_last.
  - change (join (u "~~~") (v :: v' :: rest))
      with (v ++ u "~~~" ++ join (u "~~~") (v' :: rest)).
    rewrite split_go_tilde_field by done. simpl rev. rewrite app_nil_l.
    f_equal. by apply IH.
Qed.

(** X17: a property query gives back the values the player joined, one per
    track and in its order, when no value holds a tilde; a blank output gives
    no values at all, not one empty value. In both cases the query is the one
    call made. *)
Theorem property_values_read_back
    (prefix prop : str) (w : bridge) (log : list str) (values : list str) :
  returncode (w log (fetch_script prop)) = 0%Z →
  strip (stdout (w log (fetch_script prop))) = join (u "~~~") values →
  (join (u "~~~") values = [] →
     fetch_property_with prefix prop w log = (log ++ [fetch_script prop], Ok []))
  ∧ (join (u "~~~") values ≠ [] → Forall (λ v, TILDE ∉ v) values →
     fetch_property_with prefix prop w log = (log ++ [fetch_script prop], Ok values)).
Proof.
  intros Hrc Hout. unfold fetch_property_with, bind, run_applescript_with.
  rewrite Hrc, Hout. cbn [Z.eqb]. unfold ret. split.
  - by intros ->.
  - intros Hne Hall.
    assert (values ≠ []) as Hv by (by intros ->).
    rewrite <- (split_join_values values Hv Hall) at 2.
    by destruct (join (u "~~~") values).
Qed.

Lemma property_values_read_back_witness :
  fetch_property_with UI.ERR_PREFIX (u "artist") gapped_bridge []
  = ([fetch_script (u "artist")], Ok [u "X"; u "Y"; u "Z"]).
Proof.
  destruct (property_values_read_back UI.ERR_PREFIX (u "artist") gapped_bridge []
              [u "X"; u "Y"; u "Z"]) as [_ H].
  - vm_compute. reflexivity.
  - vm_compute. reflexivity.
  - apply H.
    + vm_compute. discriminate.
    + apply (bool_decide_unpack _). vm_compute. exact I.
Defined.

(** A value that holds the separator breaks the alignment: two values come
    back as three. *)
Example separator_in_value :
  split (u "~~~") (join (u "~~~") [u "a~~~b"; u "c"]) = [u "a"; u "b"; u "c"].
Proof. reflexivity. Qed.

(** ** White space around a reply *)

(** X18: white space before and after the reply does not matter: the padded
    reply is parsed to the same curation, or fails with the same error and the
    same message, as the reply itself. *)
Theorem reply_padding_is_ignored (msg reply ws1 ws2 : str) :
  Forall (λ c, is_space c = true) ws1 → Forall (λ c, is_space c = true) ws2 →
  unfence (ws1 ++ reply ++ ws2) = unfence reply
  ∧ parse_reply_with msg (ws1 ++ reply ++ ws2) = parse_reply_with msg reply.
Proof.
  intros H1 H2.
  assert (unfence (ws1 ++ reply ++ ws2) = unfence reply) as Hu.
  { unfold unfence. by rewrite strip_padding. }
  split; [exact Hu|]. unfold parse_reply_with. by rewrite Hu.
Qed.

Lemma reply_padding_is_ignored_witness :
  UI.parse_reply ([NL] ++ example_object ++ u "  ") = UI.parse_reply example_object.
Proof.
  apply (reply_padding_is_ignored UI.FORMAT_MSG example_object [NL] (u "  ")).
  - apply (bool_decide_unpack _). vm_compute. exact I.
  - apply (bool_decide_unpack _). vm_compute. exact I.
Defined.

(** ** The curation request *)

(** X19: the request for a curation ends in one of three ways. An error of the
    catalog step is raised whatever the service would answer; an error of the
    service is passed on unchanged; otherwise the outcome is that of parsing
    the reply to the message made of the prompt, the field descriptor and the
    catalog. For a library of at most 4000 tracks the draws play no part. *)
Theorem curation_request_outcome
    (system msg : str) (claude : model) (rnd : list nat) (prompt : str)
    (tracks : list track) :
  (∀ e, select_catalog rnd tracks = Raise e →
        ∀ claude', ask_with system msg claude' rnd prompt tracks = Raise e)
  ∧ (∀ catalog desc used,
       select_catalog rnd tracks = Ok (catalog, desc, used) →
       (∀ e, claude system (user_message prompt desc catalog) = Raise e →
             ask_with system msg claude rnd prompt tracks = Raise e)
       ∧ (∀ text, claude system (user_message prompt desc catalog) = Ok text →
                  ask_with system msg claude rnd prompt tracks
                  = parse_reply_with msg text))
  ∧ (length tracks ≤ MAX_TRACKS_COMPACT →
     ∀ rnd', ask_with system msg claude rnd' prompt tracks
             = ask_with system msg claude rnd prompt tracks).
Proof.
  unfold ask_with. split_and!.
  - intros e He claude'. by rewrite He.
  - intros catalog desc used Hsel. rewrite Hsel. cbn [rbind]. split.
    + intros e He. by rewrite He.
    + intros text Ht. by rewrite Ht.
  - intros Hlen rnd'.
    assert (∀ r, select_catalog r tracks = select_catalog [] tracks) as Hr.
    { intros r. destruct (decide (length tracks ≤ MAX_TRACKS_FULL)) as [Hf|Hf].
      - by rewrite !select_catalog_full.
      - by rewrite !select_catalog_compact by (lia || done). }
    by rewrite (Hr rnd), (Hr rnd').
Qed.

Lemma curation_request_outcome_witness :
  UI.ask_claude (λ _ _, Ok example_object) [] (u "jazz") 25 half_readable_library
  = Raise (IntValueError (u "n/a")).
Proof.
  destruct (curation_request_outcome (UI.system 25) UI.FORMAT_MSG (λ _ _, Ok [])
              [] (u "jazz") half_readable_library) as (H & _ & _).
  apply H. vm_compute. reflexivity.
Defined.
